(** * Verification of the two course notebooks

    - [Sheet14]: the [train] loop of the error-backpropagation notebook
      (a neural network feeding a linear support-vector classifier).
    - the graphical-models notebook: the three factor graphs over 20x20
      digit images, their probability tables and their [predict] functions.

    Numeric arrays are lists; counts and probability tables are computed
    over [Q]; log-tables and messages live in [R]. *)

From Stdlib Require Import String.
From Stdlib Require Import List Arith ZArith QArith Lia Bool Permutation.
From Stdlib Require Import Reals Qreals Lra FunctionalExtensionality.
From Stdlib Require Import DecimalString.
Import ListNotations.

Set Implicit Arguments.

Open Scope nat_scope.

(* ================================================================= *)
(** * Part I: [train] of the backpropagation notebook                 *)
(* ================================================================= *)

Module Sheet14.

Section Train.

(** Values that flow between the objects: inputs, labels, feature maps,
    gradients, input gradients, predictions, objective values, rates. *)
Variables Data Lab Feat Grad Back Pred Obj LR : Type.

(** [nn] and [svc] are objects handed to [train]; every method may read
    and write the state of its own object. *)
Record Network (NN : Type) : Type := {
  nn_forward : NN -> Data -> NN * Feat;
  nn_backward : NN -> Grad -> NN * Back;
  nn_update : NN -> LR -> NN
}.

Record Classifier (SVC : Type) : Type := {
  svc_optimize : SVC -> Feat -> Lab -> SVC * Obj;
  svc_gradient : SVC -> SVC * Grad;
  svc_predictions : SVC -> SVC * Pred
}.

(** [datasets.toy()] and [datasets.toy(test=True)]. *)
Record Toy : Type := {
  X : Data; Y : Lab;
  Xtest : Data; Ytest : Lab
}.

Variables NN SVC : Type.
Variable net : Network NN.
Variable clf : Classifier SVC.
Variable data : Toy.

(** The calls the loop makes, with their arguments and results. *)
Inductive event : Type :=
| EForward (x : Data) (z : Feat)
| EOptimize (z : Feat) (y : Lab) (j : Obj)
| EGradient (dz : Grad)
| EBackward (dz : Grad) (dx : Back)
| EUpdate (lr : LR)
| EPredictions (f : Pred)
| EPrint (it : nat) (j jtest : Obj)
| EVisualize (x : Data) (dx : Back) (f : Pred) (y : Lab).

Record world : Type := World {
  w_nn : NN;
  w_svc : SVC;
  w_log : list event
}.

(** State monad over the two objects and the call log. *)
Definition M (A : Type) : Type := world -> A * world.

Definition ret {A} (a : A) : M A := fun w => (a, w).

Definition bind {A B} (c : M A) (k : A -> M B) : M B :=
  fun w => let (a, w') := c w in k a w'.

Notation "x <- c ;; k" := (bind c (fun x => k))
  (at level 61, c at next level, right associativity).
Notation "c ;;; k" := (bind c (fun _ => k))
  (at level 61, right associativity).

Definition emit (e : event) : M unit :=
  fun w => (tt, World (w_nn w) (w_svc w) (w_log w ++ [e])).

Definition forward (x : Data) : M Feat :=
  fun w => let (n, z) := nn_forward net (w_nn w) x in
           (z, World n (w_svc w) (w_log w ++ [EForward x z])).

Definition backward (dz : Grad) : M Back :=
  fun w => let (n, dx) := nn_backward net (w_nn w) dz in
           (dx, World n (w_svc w) (w_log w ++ [EBackward dz dx])).

Definition update (lr : LR) : M unit :=
  fun w => (tt, World (nn_update net (w_nn w) lr) (w_svc w)
                      (w_log w ++ [EUpdate lr])).

Definition optimize (z : Feat) (y : Lab) : M Obj :=
  fun w => let (s, j) := svc_optimize clf (w_svc w) z y in
           (j, World (w_nn w) s (w_log w ++ [EOptimize z y j])).

Definition gradient : M Grad :=
  fun w => let (s, dz) := svc_gradient clf (w_svc w) in
           (dz, World (w_nn w) s (w_log w ++ [EGradient dz])).

Definition predictions : M Pred :=
  fun w => let (s, f) := svc_predictions clf (w_svc w) in
           (f, World (w_nn w) s (w_log w ++ [EPredictions f])).

(** [it in msteps] *)
Definition py_in (it : nat) (steps : list nat) : bool :=
  existsb (Nat.eqb it) steps.

(** One step of gradient descent in the neural network. *)
Definition descent_step (lr : LR) : M unit :=
  Z <- forward (X data) ;;
  optimize Z (Y data) ;;;
  DZ <- gradient ;;
  backward DZ ;;;
  update lr.

(** [print('...' % (it, svc.optimize(nn.forward(X),Y),
                    svc.optimize(nn.forward(Xtest),Ytest)))] *)
Definition print_error (it : nat) : M unit :=
  z <- forward (X data) ;;
  J <- optimize z (Y data) ;;
  zt <- forward (Xtest data) ;;
  Jtest <- optimize zt (Ytest data) ;;
  emit (EPrint it J Jtest).

Definition visualize_step : M unit :=
  Ztest <- forward (Xtest data) ;;
  optimize Ztest (Ytest data) ;;;
  DZtest <- gradient ;;
  Ftest <- predictions ;;
  DXtest <- backward DZtest ;;
  emit (EVisualize (Xtest data) DXtest Ftest (Ytest data)).

Definition report (msteps vsteps : list nat) (it : nat) : M unit :=
  (if py_in it msteps then print_error it else ret tt) ;;;
  (if py_in it vsteps then visualize_step else ret tt).

Definition iteration (msteps vsteps : list nat) (lr : LR) (it : nat)
  : M unit :=
  descent_step lr ;;; report msteps vsteps it.

Fixpoint for_each (its : list nat) (body : nat -> M unit) : M unit :=
  match its with
  | [] => ret tt
  | it :: rest => body it ;;; for_each rest body
  end.

(** [for it in range(1,101): ...] *)
Definition train_loop (msteps vsteps : list nat) (lr : LR) : M unit :=
  for_each (seq 1 100) (iteration msteps vsteps lr).

Definition train (nn : NN) (svc : SVC) (msteps vsteps : list nat) (lr : LR)
  : world :=
  snd (train_loop msteps vsteps lr (World nn svc [])).

(** *** Reading the call log *)

Definition is_update (e : event) : bool :=
  match e with EUpdate _ => true | _ => false end.

Definition no_update (l : list event) : Prop :=
  forallb (fun e => negb (is_update e)) l = true.

(** The five calls of one descent step, with the data flowing between
    them: the features returned by [forward] go to [optimize], the
    gradient returned by [gradient] goes to [backward]. *)
Definition descent_calls (lr : LR) (z : Feat) (j : Obj) (dz : Grad)
           (dx : Back) : list event :=
  [EForward (X data) z; EOptimize z (Y data) j; EGradient dz;
   EBackward dz dx; EUpdate lr].

(** The log of one iteration: the descent step, then reporting calls,
    none of which is an update. *)
Definition iteration_log (lr : LR) (l : list event) : Prop :=
  exists z j dz dx rest,
    l = descent_calls lr z j dz dx ++ rest /\ no_update rest.

(** The number of [nn.update] calls in a log. *)
Definition updates (l : list event) : nat :=
  List.length (filter is_update l).


(** *** Reading the run *)

(** One descent step run on the two objects: every method is called on the
    state its object is in at that point, with the value the call before it
    returned; [nn.update(lr)] is applied to the network [nn.backward] has
    left, and the five calls are appended to the log. *)
Definition descent_effect (lr : LR) (w w' : world) : Prop :=
  exists n1 z s1 j s2 dz n2 dx,
    nn_forward net (w_nn w) (X data) = (n1, z) /\
    svc_optimize clf (w_svc w) z (Y data) = (s1, j) /\
    svc_gradient clf s1 = (s2, dz) /\
    nn_backward net n1 dz = (n2, dx) /\
    w' = World (nn_update net n2 lr) s2
               (w_log w ++ descent_calls lr z j dz dx).

(** The calls of the [print] statement at iteration [it]; the arguments of
    the format are evaluated from left to right. *)
Definition print_calls (it : nat) (z : Feat) (j : Obj) (zt : Feat) (jt : Obj)
  : list event :=
  [EForward (X data) z; EOptimize z (Y data) j;
   EForward (Xtest data) zt; EOptimize zt (Ytest data) jt;
   EPrint it j jt].

(** The [print] statement run on the two objects: the classifier is
    trained on the training features, then on the test features, and the
    two objectives are printed; no [update] is applied. *)
Definition print_effect (it : nat) (w w' : world) : Prop :=
  exists n1 z s1 j n2 zt s2 jt,
    nn_forward net (w_nn w) (X data) = (n1, z) /\
    svc_optimize clf (w_svc w) z (Y data) = (s1, j) /\
    nn_forward net n1 (Xtest data) = (n2, zt) /\
    svc_optimize clf s1 zt (Ytest data) = (s2, jt) /\
    w' = World n2 s2 (w_log w ++ print_calls it z j zt jt).

(** The calls of the visualisation branch. *)
Definition visualize_calls (z : Feat) (j : Obj) (dz : Grad) (f : Pred)
           (dx : Back) : list event :=
  [EForward (Xtest data) z; EOptimize z (Ytest data) j; EGradient dz;
   EPredictions f; EBackward dz dx;
   EVisualize (Xtest data) dx f (Ytest data)].

(** The visualisation branch run on the two objects; no [update] is
    applied. *)
Definition visualize_effect (w w' : world) : Prop :=
  exists n1 z s1 j s2 dz s3 f n2 dx,
    nn_forward net (w_nn w) (Xtest data) = (n1, z) /\
    svc_optimize clf (w_svc w) z (Ytest data) = (s1, j) /\
    svc_gradient clf s1 = (s2, dz) /\
    svc_predictions clf s2 = (s3, f) /\
    nn_backward net n1 dz = (n2, dx) /\
    w' = World n2 s3 (w_log w ++ visualize_calls z j dz f dx).

(** The reporting of iteration [it]: the [print] statement if
    [it in msteps], then the visualisation if [it in vsteps]. *)
Definition report_effect (msteps vsteps : list nat) (it : nat)
           (w w' : world) : Prop :=
  exists m,
    (if py_in it msteps then print_effect it w m else m = w) /\
    (if py_in it vsteps then visualize_effect m w' else w' = m).

(** The loop run over the iterations [its]: each iteration runs a descent
    step [w -> m], then its reporting [m -> r], and the loop goes on from
    [r]. *)
Inductive iterations (msteps vsteps : list nat) (lr : LR)
  : list nat -> world -> world -> Prop :=
| iterations_done (w : world) : iterations msteps vsteps lr [] w w
| iterations_step (it : nat) (its : list nat) (w m r w' : world) :
    descent_effect lr w m ->
    report_effect msteps vsteps it m r ->
    iterations msteps vsteps lr its r w' ->
    iterations msteps vsteps lr (it :: its) w w'.


(** *** Reading the reports *)

(** The iterations of [range(1,101)] with [it in steps], in the order the
    loop meets them. *)
Definition due (steps : list nat) : list nat :=
  filter (fun it => py_in it steps) (seq 1 100).

(** The log of the [print] statement of iteration [it]: empty unless
    [it in msteps]. *)
Definition print_part (msteps : list nat) (it : nat) (l : list event)
  : Prop :=
  if py_in it msteps
  then exists z j zt jt, l = print_calls it z j zt jt
  else l = [].

(** The log of the visualisation of iteration [it]: empty unless
    [it in vsteps]. *)
Definition visualize_part (vsteps : list nat) (it : nat) (l : list event)
  : Prop :=
  if py_in it vsteps
  then exists z j dz f dx, l = visualize_calls z j dz f dx
  else l = [].

(** The whole log of iteration [it]. *)
Definition iteration_calls (msteps vsteps : list nat) (lr : LR) (it : nat)
           (l : list event) : Prop :=
  exists z j dz dx l1 l2,
    l = descent_calls lr z j dz dx ++ l1 ++ l2 /\
    print_part msteps it l1 /\ visualize_part vsteps it l2.

(** The iteration numbers of the lines a log prints, in order. *)
Definition printed (l : list event) : list nat :=
  flat_map (fun e => match e with EPrint it _ _ => [it] | _ => [] end) l.

(** The number of events of a log that satisfy [p]. *)
Definition calls (p : event -> bool) (l : list event) : nat :=
  List.length (filter p l).

Definition is_forward (e : event) : bool :=
  match e with EForward _ _ => true | _ => false end.
Definition is_optimize (e : event) : bool :=
  match e with EOptimize _ _ _ => true | _ => false end.
Definition is_gradient (e : event) : bool :=
  match e with EGradient _ => true | _ => false end.
Definition is_backward (e : event) : bool :=
  match e with EBackward _ _ => true | _ => false end.
Definition is_predictions (e : event) : bool :=
  match e with EPredictions _ => true | _ => false end.
Definition is_visualize (e : event) : bool :=
  match e with EVisualize _ _ _ _ => true | _ => false end.

End Train.

(** ** A layer network

    [modules.py] (the "backbone implementation of the neural network") is
    not among the sources.  The model is the textbook layer network the
    notebook describes: [forward] computes the feature map from the
    parameters and keeps the activations it needs for the backward pass,
    [backward] computes the parameter gradient from the parameters, the
    kept activations and the incoming gradient and stores it, [update]
    takes a gradient step on the parameters.  Whether [backward] replaces
    or accumulates the stored gradient is left open: [grad_store old fresh]
    is what ends up stored. *)
Section ModuleNetwork.

Variables Data Feat Grad Back LR : Type.
Variables Params Acts Grads : Type.

Record Layers : Type := {
  fwd_out : Params -> Data -> Feat;
  fwd_acts : Params -> Data -> Acts;
  bwd_grads : Params -> Acts -> Grad -> Grads;
  bwd_input : Params -> Acts -> Grad -> Back;
  grad_store : Grads -> Grads -> Grads;
  step : Params -> Grads -> LR -> Params
}.

Variable L : Layers.

Record net_state : Type := Net {
  params : Params;
  acts : Acts;
  grads : Grads
}.

(** Modelled from the spec: [Module.forward] of the absent [modules.py];
    the feature map is computed from the parameters and the input, and the
    activations are kept for the backward pass. *)
Definition module_forward (n : net_state) (x : Data) : net_state * Feat :=
  (Net (params n) (fwd_acts L (params n) x) (grads n),
   fwd_out L (params n) x).

(** Modelled from the spec: [Module.backward] of the absent [modules.py];
    the parameter gradient of this pass is stored through [grad_store],
    the gradient with respect to the input is returned. *)
Definition module_backward (n : net_state) (dz : Grad) : net_state * Back :=
  (Net (params n) (acts n)
       (grad_store L (grads n) (bwd_grads L (params n) (acts n) dz)),
   bwd_input L (params n) (acts n) dz).

(** Modelled from the spec: [Module.update] of the absent [modules.py];
    a gradient step on the parameters with the stored gradient. *)
Definition module_update (n : net_state) (lr : LR) : net_state :=
  Net (step L (params n) (grads n) lr) (acts n) (grads n).

Definition module_network : Network Data Feat Grad Back LR net_state :=
  Build_Network module_forward module_backward module_update.

(** [backward] replaces the stored gradient. *)
Definition backward_replaces : Prop :=
  forall old fresh, grad_store L old fresh = fresh.

End ModuleNetwork.

(** ** A linear support-vector classifier

    [utils.py] ([utils.LinearSVC]) is not among the sources.  The model
    follows the notebook: [optimize(Z,Y)] trains the classifier on the
    features [Z] and the labels [Y], that is, it finds the parameters
    [(w,b)] that minimise the objective [J] on [(Z,Y)], and returns the
    value of the objective; [gradient()] is the gradient of [J] with
    respect to the feature map at the trained classifier, and
    [predictions()] are the outputs of the trained classifier on the
    features it was trained on. *)
Section LinearSVC.

Variables Lab Feat Grad Pred Obj Fit : Type.

(** The soft-margin problem: its minimiser, the objective [J], the
    gradient of [J] with respect to the features, and the outputs. *)
Record SVM : Type := {
  solve : Feat -> Lab -> Fit;
  objective : Fit -> Feat -> Lab -> Obj;
  feature_gradient : Fit -> Feat -> Lab -> Grad;
  outputs : Fit -> Feat -> Pred
}.

Variable S : SVM.

(** The trained classifier and the data it was trained on. *)
Record svc_state : Type := Svc {
  fitted : Fit;
  fitted_Z : Feat;
  fitted_Y : Lab
}.

(** Modelled from the spec: [LinearSVC.optimize] of the absent [utils.py];
    the classifier is trained on [(z,y)] and the objective reached is
    returned. *)
Definition linear_optimize (s : svc_state) (z : Feat) (y : Lab)
  : svc_state * Obj :=
  let f := solve S z y in (Svc f z y, objective S f z y).

(** Modelled from the spec: [LinearSVC.gradient] of the absent [utils.py];
    the gradient of the objective with respect to the features the
    classifier was trained on. *)
Definition linear_gradient (s : svc_state) : svc_state * Grad :=
  (s, feature_gradient S (fitted s) (fitted_Z s) (fitted_Y s)).

(** Modelled from the spec: [LinearSVC.predictions] of the absent
    [utils.py]. *)
Definition linear_predictions (s : svc_state) : svc_state * Pred :=
  (s, outputs S (fitted s) (fitted_Z s)).

Definition linear_svc : Classifier Lab Feat Grad Pred Obj svc_state :=
  Build_Classifier linear_optimize linear_gradient linear_predictions.

End LinearSVC.

(** ** What [train] learns with these two objects *)
Section Learned.

Variables Data Lab Feat Grad Back Pred Obj LR : Type.
Variables Params Acts Grads Fit : Type.
Variable L : Layers Data Feat Grad Back LR Params Acts Grads.
Variable S : SVM Lab Feat Grad Pred Obj Fit.

(** The parameters after one descent step on the training set [(x,y)]:
    the features of [x], the classifier trained on them, the gradient of
    its objective backpropagated, and one gradient step. *)
Definition descent_update (x : Data) (y : Lab) (lr : LR) (p : Params)
  : Params :=
  let z := fwd_out L p x in
  let dz := feature_gradient S (solve S z y) z y in
  step L p (bwd_grads L p (fwd_acts L p x) dz) lr.


End Learned.

(** A small network whose [backward] replaces the stored gradient, a small
    soft-margin problem, and a classifier that keeps what it has been
    fitted on before (a warm-started optimiser), all over booleans. *)
Module Toy.

Definition toy_layers : Layers bool bool bool bool unit bool bool bool :=
  {| fwd_out := fun _ x => x;
     fwd_acts := fun _ x => x;
     bwd_grads := fun _ _ dz => dz;
     bwd_input := fun _ _ dz => dz;
     grad_store := fun _ fresh => fresh;
     step := fun _ g _ => g |}.

Definition warm_svc : Classifier unit bool bool unit unit bool :=
  {| svc_optimize := fun s z _ => (xorb s z, tt);
     svc_gradient := fun s => (s, s);
     svc_predictions := fun s => (s, tt) |}.


Definition toy_data (xtest : bool) : Toy bool unit :=
  {| X := false; Y := tt; Xtest := xtest; Ytest := tt |}.

Definition toy_train (xtest : bool) (msteps vsteps : list nat) :=
  train (module_network toy_layers) warm_svc (toy_data xtest)
        (Net false false false) false msteps vsteps tt.

End Toy.

End Sheet14.

(* ================================================================= *)
(** * Part II: the graphical-models notebook                          *)
(* ================================================================= *)

Module Graphical.

(** ** Arrays

    A 20x20 image is a list of rows; the training set [X] is a list of
    images, [T] the list of class labels, [Z] the list of rows of 16
    subclass labels.  Pixels are 0 (black) or 1 (white). *)

Definition image : Type := list (list nat).

(** [x.sum()] of a 2-D array. *)
Definition np_sum2 (x : list (list nat)) : nat := list_sum (map list_sum x).

(** [x.ravel()] *)
Definition ravel (x : image) : list nat := concat x.

(** [l == v], elementwise. *)
Definition eq_mask (v : nat) (l : list nat) : list bool := map (Nat.eqb v) l.

(** [mask.sum()] *)
Definition count_true (m : list bool) : nat :=
  List.length (filter (fun b => b) m).

(** [l[mask]] *)
Fixpoint mask_select {A} (m : list bool) (l : list A) : list A :=
  match m, l with
  | b :: m', a :: l' =>
      if b then a :: mask_select m' l' else mask_select m' l'
  | _, _ => []
  end.

Fixpoint zip_add (a b : list nat) : list nat :=
  match a, b with
  | x :: a', y :: b' => (x + y) :: zip_add a' b'
  | _, _ => []
  end.

(** [rows.sum(axis=0)] for rows of [n] entries. *)
Definition sum_axis0 (n : nat) (rows : list (list nat)) : list nat :=
  fold_right zip_add (repeat 0 n) rows.

(** [np.split(l,[5,10,15])]: the slices [l[0:5]], [l[5:10]], [l[10:15]],
    [l[15:]]. *)
Definition np_split {A} (l : list A) : list (list A) :=
  [firstn 5 l; firstn 5 (skipn 5 l); firstn 5 (skipn 10 l); skipn 15 l].

(** [np.stack(np.split(a,[5,10,15],axis=1))] for an array [a] whose axis 1
    is the inner list: piece [k] keeps slice [k] of every inner list. *)
Definition split_stack {A} (a : list (list A)) : list (list (list A)) :=
  map (fun k => map (fun l => nth k (np_split l) []) a) (seq 0 4).

(** [np.stack(np.split(np.stack(np.split(x,[5,10,15],axis=1)),
    [5,10,15],axis=1))]: the array [B[rb][cb][r][c]] of the sixteen 5x5
    blocks, [rb] the block row and [cb] the block column. *)
Definition blocks (x : image) : list (list (list (list nat))) :=
  let S := split_stack x in            (* S[cb][row][c] *)
  map (fun rb => map (fun a => nth rb (np_split a) []) S) (seq 0 4).

(** [.reshape(16,5,5)]: the two block axes merge, group [4*rb+cb]. *)
Definition patches (x : image) : list (list (list nat)) := concat (blocks x).

(** [.reshape(16,25)]: moreover each 5x5 block is flattened. *)
Definition xsub (x : image) : list (list nat) :=
  map (fun p => concat p) (patches x).

(** A well-formed input image: 20 rows of 20 pixels, each 0 or 1. *)
Definition image_check (x : image) : bool :=
  (List.length x =? 20) &&
  forallb (fun r => (List.length r =? 20) && forallb (fun p => p <=? 1) r) x.

(** ** Probability tables *)

Definition Qn (n : nat) : Q := inject_Z (Z.of_nat n).

Definition nbclasses : nat := 10.

(** [nbexamples[cl] = (T==cl).sum()] *)
Definition class_counts (T : list nat) : list nat :=
  map (fun cl => count_true (eq_mask cl T)) (seq 0 nbclasses).

(** [(nbexamples+1) / (nbexamples+1).sum()] *)
Definition add_one_normalize (counts : list nat) : list Q :=
  let total := list_sum (map (fun n => n + 1) counts) in
  map (fun n => Qn (n + 1) / Qn total)%Q counts.

Definition PT (T : list nat) : list Q := add_one_normalize (class_counts T).

(** *** Example model: levels of the top and bottom half *)

Definition ex_nblevels : nat := 201.

(** [X[:,:10,:].sum(axis=2).sum(axis=1)] and [X[:,10:,:]...] *)
Definition Xtop (X : list image) : list nat :=
  map (fun x => np_sum2 (firstn 10 x)) X.
Definition Xbot (X : list image) : list nat :=
  map (fun x => np_sum2 (skipn 10 x)) X.

(** [nbexamples[cl,lv] = (x==lv).sum()] with [x = Xhalf[T==cl]] *)
Definition level_counts (Xhalf T : list nat) : list (list nat) :=
  map (fun cl =>
         let x := mask_select (eq_mask cl T) Xhalf in
         map (fun lv => count_true (eq_mask lv x)) (seq 0 ex_nblevels))
      (seq 0 nbclasses).

(** [(nbexamples+1) / (nbexamples+1).sum(axis=1)[:,np.newaxis]] *)
Definition PXT_levels (Xhalf T : list nat) : list (list Q) :=
  map add_one_normalize (level_counts Xhalf T).

Definition PXT1 (X : list image) (T : list nat) := PXT_levels (Xtop X) T.
Definition PXT2 (X : list image) (T : list nat) := PXT_levels (Xbot X) T.

(** *** Shallow model: one node per pixel *)

Definition nblevels : nat := 2.
Definition nbfeats : nat := 400.

(** [X[cl == T].sum(axis=0).ravel() / (cl==T).sum()] *)
Definition shallow_white (X : list image) (T : list nat) (cl : nat) : list Q :=
  let mask := eq_mask cl T in
  map (fun c => Qn c / Qn (count_true mask))%Q
      (sum_axis0 nbfeats (map ravel (mask_select mask X))).

(** [PXT[nbf][cl] = [1 - p, p]] *)
Definition shallow_PXT (X : list image) (T : list nat) : list (list (list Q)) :=
  map (fun nbf =>
         map (fun cl =>
                let p := nth nbf (shallow_white X T cl) 0%Q in
                [1 - p; p]%Q)
             (seq 0 nbclasses))
      (seq 0 nbfeats).

(** *** Hierarchical model: 16 groups of 25 pixels *)

Definition nbsubclss : nat := 12.
Definition nbgroups : nat := 16.
Definition nbgfeats : nat := 25.

(** [(Z[T==cl][:,:,np.newaxis] == np.arange(nbsubclss)).sum(axis=0)],
    then each row divided by its sum. *)
Definition PZT_class (T : list nat) (Z : list (list nat)) (cl : nat)
  : list (list Q) :=
  let Zc := mask_select (eq_mask cl T) Z in
  map (fun grp =>
         let counts :=
           map (fun sc => count_true (map (fun z => nth grp z 0 =? sc) Zc))
               (seq 0 nbsubclss) in
         map (fun c => Qn c / Qn (list_sum counts))%Q counts)
      (seq 0 nbgroups).

(** [PZT[grp][cl][sc]] *)
Definition PZT (T : list nat) (Z : list (list nat)) : list (list (list Q)) :=
  map (fun grp => map (fun cl => nth grp (PZT_class T Z cl) [])
                      (seq 0 nbclasses))
      (seq 0 nbgroups).

(** [np.argwhere(Z == sc)]: the index pairs [(example, group)], row by row. *)
Definition argwhere (Z : list (list nat)) (sc : nat) : list (nat * nat) :=
  flat_map (fun er : nat * list nat =>
              map (fun g => (fst er, g))
                  (filter (fun g => nth g (snd er) 0 =? sc)
                          (seq 0 (List.length (snd er)))))
           (combine (seq 0 (List.length Z)) Z).

(** [ind[:,0][grp==ind[:,1]]]: the examples whose group [grp] has the
    subclass. *)
Definition group_examples (ind : list (nat * nat)) (grp : nat) : list nat :=
  map fst (filter (fun p => grp =? snd p) ind).

(** [subX[ex][grp]] is the 5x5 patch of group [grp] in example [ex]. *)
Definition subX (X : list image) : list (list (list (list nat))) :=
  map patches X.

(** [subX[sel,grp].sum(axis=0).ravel()] *)
Definition white_counts (X : list image) (sel : list nat) (grp : nat)
  : list nat :=
  sum_axis0 nbgfeats
    (map (fun ex => concat (nth grp (nth ex (subX X) []) [])) sel).

(** The divisor of the [/=] statement:
    [ind[:,0][grp==ind[:,1]].sum() if ind[:,0][grp==ind[:,1]].sum() > 0
     else 1.] *)
Definition hier_divisor (sel : list nat) : Q :=
  if 0 <? list_sum sel then Qn (list_sum sel) else 1%Q.

(** [PXT[grp,f,sc,1]] after the loop. *)
Definition hier_white (X : list image) (Z : list (list nat))
           (grp f sc : nat) : Q :=
  let sel := group_examples (argwhere Z sc) grp in
  (Qn (nth f (white_counts X sel grp) 0%nat) / hier_divisor sel)%Q.

(** [PXT[grp][f][sc] = [1 - p, p]] *)
Definition hier_PXT (X : list image) (Z : list (list nat))
  : list (list (list (list Q))) :=
  map (fun grp =>
         map (fun f =>
                map (fun sc => let p := hier_white X Z grp f sc in
                               [1 - p; p]%Q)
                    (seq 0 nbsubclss))
             (seq 0 nbgfeats))
      (seq 0 nbgroups).

(** The fraction of the training patches of group [grp] with subclass
    label [sc] in which pixel [f] is white, as the specification words it
    (0 when there is no such patch). *)
Definition patch_white_fraction (X : list image) (Z : list (list nat))
           (grp f sc : nat) : Q :=
  let with_label :=
    filter (fun xz : image * list nat => nth grp (snd xz) 0 =? sc)
           (combine X Z) in
  let white :=
    filter (fun xz : image * list nat =>
              nth f (nth grp (xsub (fst xz)) []) 0 =? 1)
           with_label in
  (Qn (List.length white) / Qn (List.length with_label))%Q.

(** The smoothing constant [1e-20]. *)
Definition eps : Q := 1 # (10 ^ 20).

(** A training set of two all-white images whose sixteen groups all carry
    subclass 0. *)
Definition white_image : image := repeat (repeat 1 20) 20.
Definition two_white : list image := [white_image; white_image].
Definition two_white_labels : list (list nat) := [repeat 0 16; repeat 0 16].

(** ** Variable and factor nodes

    A [FactorNode] is built from a name, a log-table and the list of the
    variable nodes it joins; a variable node is referred to by its index in
    the order of creation. *)

Inductive ndarray : Type :=
| Arr1 (v : list R)
| Arr2 (a : list (list R)).

(** [np.log], elementwise. *)
Definition np_log (q : Q) : R := ln (Q2R q).
Definition log1 (p : list Q) : ndarray := Arr1 (map np_log p).
Definition log2 (p : list (list Q)) : ndarray := Arr2 (map (map np_log) p).

(** [P + 1e-20] *)
Definition smoothed (p : list (list Q)) : list (list Q) :=
  map (map (fun q => q + eps)%Q) p.

Record VariableNode : Type := mkVar { vname : string; nbstates : nat }.

Record FactorNode : Type := mkFac {
  fname : string;
  ftable : ndarray;
  fvars : list nat
}.

Record model : Type := mkModel {
  variables : list VariableNode;
  factors : list FactorNode
}.

Definition no_var : VariableNode := mkVar "" 0.
Definition no_fac : FactorNode := mkFac "" (Arr1 []) [].

Definition var_at (m : model) (v : nat) : VariableNode :=
  nth v (variables m) no_var.
Definition fac_at (m : model) (i : nat) : FactorNode :=
  nth i (factors m) no_fac.

(** ["%d" % n] *)
Definition dec (n : nat) : string := NilZero.string_of_uint (Nat.to_uint n).

(** *** Example model: [VT], [VX1], [VX2] *)

Definition ex_VT : nat := 0.
Definition ex_VX1 : nat := 1.
Definition ex_VX2 : nat := 2.

Definition example_variables : list VariableNode :=
  [ mkVar "VT" nbclasses; mkVar "VX1" ex_nblevels; mkVar "VX2" ex_nblevels ].

Definition example_factors (X : list image) (T : list nat)
  : list FactorNode :=
  [ mkFac "FT" (log1 (PT T)) [ex_VT];
    mkFac "FXT" (log2 (PXT1 X T)) [ex_VT; ex_VX1];
    mkFac "FXT" (log2 (PXT2 X T)) [ex_VT; ex_VX2] ].

Definition example_model (X : list image) (T : list nat) : model :=
  mkModel example_variables (example_factors X T).

(** *** Shallow model: [VT], [VX[0..399]] *)

Definition sh_VT : nat := 0.
Definition sh_VX (nbf : nat) : nat := 1 + nbf.

Definition shallow_variables : list VariableNode :=
  mkVar "VT" nbclasses ::
  map (fun nname => mkVar ("VX[" ++ dec nname ++ "]") nblevels)
      (seq 0 nbfeats).

Definition shallow_factors (X : list image) (T : list nat)
  : list FactorNode :=
  mkFac "FT" (log1 (PT T)) [sh_VT] ::
  map (fun nbf =>
         mkFac ("FXT[" ++ dec nbf ++ "]")
               (log2 (smoothed (nth nbf (shallow_PXT X T) [])))
               [sh_VT; sh_VX nbf])
      (seq 0 nbfeats).

Definition shallow_model (X : list image) (T : list nat) : model :=
  mkModel shallow_variables (shallow_factors X T).

(** *** Hierarchical model: [VT], [VZ[0..15]], [VX[0..15][0..24]] *)

Definition h_VT : nat := 0.
Definition h_VZ (grp : nat) : nat := 1 + grp.
Definition h_VX (grp nbf : nat) : nat := 1 + nbgroups + nbgfeats * grp + nbf.

Definition hier_variables : list VariableNode :=
  mkVar "VT" nbclasses ::
  map (fun nname => mkVar ("VZ[" ++ dec nname ++ "]") nbsubclss)
      (seq 0 nbgroups) ++
  concat (map (fun gname =>
                 map (fun nname =>
                        mkVar ("VX[" ++ dec gname ++ "][" ++ dec nname ++ "]")
                              nblevels)
                     (seq 0 nbgfeats))
              (seq 0 nbgroups)).

Definition hier_factors (X : list image) (T : list nat) (Z : list (list nat))
  : list FactorNode :=
  mkFac "FT" (log1 (PT T)) [h_VT] ::
  map (fun grp =>
         mkFac ("FXT[" ++ dec grp ++ "]")
               (log2 (smoothed (nth grp (PZT T Z) [])))
               [h_VT; h_VZ grp])
      (seq 0 nbgroups) ++
  concat (map (fun grp =>
                 map (fun nbf =>
                        mkFac ("FXT[" ++ dec grp ++ "][" ++ dec nbf ++ "]")
                              (log2 (smoothed
                                       (nth nbf (nth grp (hier_PXT X Z) []) [])))
                              [h_VZ grp; h_VX grp nbf])
                     (seq 0 nbgfeats))
              (seq 0 nbgroups)).

Definition hier_model (X : list image) (T : list nat) (Z : list (list nat))
  : model :=
  mkModel hier_variables (hier_factors X T Z).

(** The variable lists of the factors, in the order of creation. *)
Definition example_scopes : list (list nat) :=
  [[ex_VT]; [ex_VT; ex_VX1]; [ex_VT; ex_VX2]].

Definition shallow_scopes : list (list nat) :=
  [sh_VT] :: map (fun nbf => [sh_VT; sh_VX nbf]) (seq 0 nbfeats).

Definition hier_scopes : list (list nat) :=
  [h_VT] ::
  map (fun grp => [h_VT; h_VZ grp]) (seq 0 nbgroups) ++
  concat (map (fun grp => map (fun nbf => [h_VZ grp; h_VX grp nbf])
                              (seq 0 nbgfeats))
              (seq 0 nbgroups)).

(** ** Shapes *)

(** [a.shape == shape] for the arrays the factors hold. *)
Definition has_shape (a : ndarray) (shape : list nat) : Prop :=
  match a, shape with
  | Arr1 v, [n] => List.length v = n
  | Arr2 rows, [n; k] =>
      List.length rows = n /\ Forall (fun r => List.length r = k) rows
  | _, _ => False
  end.

(** The state counts of the variable nodes a factor joins. *)
Definition state_counts (m : model) (f : FactorNode) : list nat :=
  map (fun v => nbstates (var_at m v)) (fvars f).

(** A factor's table has the shape given by the state counts of the
    variable nodes it joins, and that shape is one of [allowed]. *)
Definition shaped (m : model) (allowed : list (list nat)) (f : FactorNode)
  : Prop :=
  has_shape (ftable f) (state_counts m f) /\ In (state_counts m f) allowed.

(** ** The bipartite graph of a model *)

Inductive node : Type :=
| VarN (v : nat)
| FacN (i : nat).

Definition node_eqb (a b : node) : bool :=
  match a, b with
  | VarN v, VarN w => v =? w
  | FacN i, FacN j => i =? j
  | _, _ => false
  end.

Definition graph_nodes (m : model) : list node :=
  map VarN (seq 0 (List.length (variables m))) ++
  map FacN (seq 0 (List.length (factors m))).

(** One edge between a factor and each variable in its variable list. *)
Definition scope_edges (scopes : list (list nat)) : list (node * node) :=
  flat_map (fun js : nat * list nat =>
              map (fun v => (FacN (fst js), VarN v)) (snd js))
           (combine (seq 0 (List.length scopes)) scopes).

(** The variable lists of the factors of a model. *)
Definition scopes (m : model) : list (list nat) := map fvars (factors m).

Definition graph_edges (m : model) : list (node * node) :=
  scope_edges (scopes m).

Section Graph.

Variable nodes : list node.
Variable edges : list (node * node).

Definition adjacent (u v : node) : Prop :=
  In (u, v) edges \/ In (v, u) edges.

Inductive walk : node -> node -> Prop :=
| walk_here u : In u nodes -> walk u u
| walk_step u v w : adjacent u v -> walk v w -> walk u w.

Definition connected : Prop :=
  forall u v, In u nodes -> In v nodes -> walk u v.

Fixpoint chain (l : list node) : Prop :=
  match l with
  | u :: r => match r with
              | v :: _ => adjacent u v /\ chain r
              | [] => True
              end
  | [] => True
  end.

(** A cycle: at least three distinct nodes, each adjacent to the next
    and the last one to the first. *)
Definition cycle (c : list node) : Prop :=
  3 <= List.length c /\ NoDup c /\ chain (c ++ firstn 1 c).

Definition acyclic : Prop := forall c, ~ cycle c.

(** A tree containing [root]: a simple graph on [nodes] that is
    connected and has no cycle. *)
Definition is_tree (root : node) : Prop :=
  In root nodes /\ NoDup nodes /\ NoDup edges /\
  (forall e, In e edges -> In (fst e) nodes /\ In (snd e) nodes) /\
  connected /\ acyclic.

End Graph.

Fixpoint nodupb {A} (eqb : A -> A -> bool) (l : list A) : bool :=
  match l with
  | [] => true
  | a :: r => negb (existsb (eqb a) r) && nodupb eqb r
  end.

(** Duplicate-freeness of a list of indices, compared in binary. *)
Definition distinct (l : list nat) : bool := nodupb N.eqb (map N.of_nat l).

(** Executable certificate that the graph of [nv] variables and the
    factors with variable lists [sc] is a tree: [rank] is the distance to
    [top] and [parent] the neighbour one step nearer to it.  Every edge
    joins a node to its parent, and every node but [top] has its parent
    among its neighbours. *)
Section Certificate.

Variable nv : nat.
Variable sc : list (list nat).
Variable top : nat.
Variable rank : node -> nat.
Variable parent : node -> node.

Definition parent_of (child p : node) : bool :=
  node_eqb (parent child) p && (rank child =? S (rank p)).

Definition edge_ok (j v : nat) : bool :=
  parent_of (FacN j) (VarN v) || parent_of (VarN v) (FacN j).

Definition factor_ok (j : nat) : bool :=
  match parent (FacN j) with
  | VarN p => existsb (Nat.eqb p) (nth j sc []) &&
              (rank (FacN j) =? S (rank (VarN p)))
  | FacN _ => false
  end.

Definition variable_ok (v : nat) : bool :=
  (v =? top) ||
  match parent (VarN v) with
  | FacN j => (j <? List.length sc) && existsb (Nat.eqb v) (nth j sc []) &&
              (rank (VarN v) =? S (rank (FacN j)))
  | VarN _ => false
  end.

Definition tree_cert : bool :=
  (top <? nv) && (rank (VarN top) =? 0) &&
  forallb (fun js : nat * list nat =>
             nodupb Nat.eqb (snd js) &&
             forallb (fun v => (v <? nv) && edge_ok (fst js) v) (snd js))
          (combine (seq 0 (List.length sc)) sc) &&
  forallb factor_ok (seq 0 (List.length sc)) &&
  forallb variable_ok (seq 0 nv).

End Certificate.

Definition example_rank (n : node) : nat :=
  match n with
  | VarN v => if v =? 0 then 0 else 2
  | FacN _ => 1
  end.

(** [VX1], [VX2] hang on [FXT1], [FXT2], every factor on [VT]. *)
Definition example_parent (n : node) : node :=
  match n with
  | VarN v => FacN v
  | FacN _ => VarN 0
  end.

Definition shallow_rank : node -> nat := example_rank.

(** [VX[i]] hangs on [FXT[i]], every factor on [VT]. *)
Definition shallow_parent : node -> node := example_parent.

Definition hier_rank (n : node) : nat :=
  match n with
  | VarN v => if v =? 0 then 0 else if v <=? nbgroups then 2 else 4
  | FacN i => if i <=? nbgroups then 1 else 3
  end.

(** [VZ[g]] hangs on [FZT[g]], [VX[g][f]] on [FXT[g][f]]; [FT] and the
    [FZT[g]] hang on [VT], [FXT[g][f]] on [VZ[g]]. *)
Definition hier_parent (n : node) : node :=
  match n with
  | VarN v => FacN v
  | FacN i =>
      if i <=? nbgroups then VarN 0
      else VarN (1 + (i - (1 + nbgroups)) / nbgfeats)
  end.

(** ** Inference

    [graphical.py] ([VariableNode], [FactorNode], [initiateMessagePassing],
    [computeMarginal]) is not among the sources.  The model is textbook
    sum-product belief propagation on a directed tree, as the
    specification describes it: a variable node created without evidence
    is unobserved, an observed variable is clamped to its evidence,
    [v.initiateMessagePassing(None)] makes every factor around [v]
    collect, recursively and away from the caller, the messages of its
    subtree and send [v] its message, and [v.computeMarginal()] multiplies
    the messages [v] has received and normalises.  Factor potentials are
    the exponentials of the stored log-tables. *)

(** The [evidence] field of every variable node, by index of creation. *)
Definition store : Type := nat -> option nat.

(** Modelled from the spec: the constructor of [VariableNode] in the absent
    [graphical.py]; a node is created without evidence. *)
Definition no_evidence : store := fun _ => None.

(** [v.evidence = e] *)
Definition set_evidence (st : store) (v e : nat) : store :=
  fun u => if u =? v then Some e else st u.

(** The order in which messages are collected towards a variable: the
    factors around it, each with the subtree behind it (none behind a
    factor of one variable). *)
#[local] Unset Elimination Schemes.
Inductive Tree : Type :=
| Node (v : nat) (facs : list (nat * option Tree)).
#[local] Set Elimination Schemes.

Definition root (t : Tree) : nat := match t with Node v _ => v end.
Definition branches (t : Tree) : list (nat * option Tree) :=
  match t with Node _ fs => fs end.

Fixpoint sequence {A} (l : list (option A)) : option (list A) :=
  match l with
  | [] => Some []
  | None :: _ => None
  | Some a :: r => option_map (cons a) (sequence r)
  end.

Definition is_caller (caller : option nat) (i : nat) : bool :=
  match caller with Some j => i =? j | None => false end.

(** Modelled from the spec: the constructor of [FactorNode] in the absent
    [graphical.py]; a factor, when created, registers itself with each of
    its variables, so that [around[v]] lists the factors around variable
    [v] in the order of their creation. *)
Fixpoint register (around : list (list nat)) (v i : nat) : list (list nat) :=
  match around, v with
  | fs :: r, 0 => (fs ++ [i]) :: r
  | fs :: r, S v' => fs :: register r v' i
  | [], _ => []
  end.

Definition neighbours (nv : nat) (sc : list (list nat)) : list (list nat) :=
  fold_left (fun around (js : nat * list nat) =>
               fold_left (fun a v => register a v (fst js)) (snd js) around)
            (combine (seq 0 (List.length sc)) sc)
            (repeat [] nv).

(** Modelled from the spec: the recursion of
    [initiateMessagePassing(caller)] in the absent [graphical.py], from
    variable [v]: every factor around [v] other than the caller, and behind
    a factor [P(child | v)] the child variable with the factors around it.
    A factor lists the variable nearer to the root first. *)
Fixpoint collect (fuel : nat) (around sc : list (list nat))
         (caller : option nat) (v : nat) : option Tree :=
  match fuel with
  | 0 => None
  | S k =>
      option_map (Node v)
        (sequence
           (map (fun i =>
                   match nth i sc [] with
                   | [p] => if p =? v then Some (i, None) else None
                   | [p; c] =>
                       if p =? v
                       then option_map (fun t => (i, Some t))
                                       (collect k around sc (Some i) c)
                       else None
                   | _ => None
                   end)
                (filter (fun i => negb (is_caller caller i))
                        (nth v around []))))
  end.

(** The collection order from variable [v] of a model. *)
Definition collection (m : model) (v : nat) : option Tree :=
  collect (S (List.length (variables m) + List.length (scopes m)))
          (neighbours (List.length (variables m)) (scopes m))
          (scopes m) None v.

(** The variables and the factors of a collection order, root first. *)
Fixpoint tree_vars (t : Tree) : list nat :=
  match t with
  | Node v fs =>
      v :: flat_map (fun ic : nat * option Tree =>
                       match snd ic with
                       | None => []
                       | Some c => tree_vars c
                       end) fs
  end.

Fixpoint tree_facs (t : Tree) : list nat :=
  match t with
  | Node v fs =>
      flat_map (fun ic : nat * option Tree =>
                  fst ic :: match snd ic with
                            | None => []
                            | Some c => tree_facs c
                            end) fs
  end.

Fixpoint list_eqb (a b : list nat) : bool :=
  match a, b with
  | [], [] => true
  | x :: a', y :: b' => (x =? y) && list_eqb a' b'
  | _, _ => false
  end.

(** Every factor of the order joins exactly the variable it sends to and,
    behind it, the root of its subtree. *)
Fixpoint well_scoped (sc : list (list nat)) (t : Tree) : bool :=
  match t with
  | Node v fs =>
      forallb (fun ic : nat * option Tree =>
                 match snd ic with
                 | None => list_eqb (nth (fst ic) sc []) [v]
                 | Some c =>
                     list_eqb (nth (fst ic) sc []) [v; root c] &&
                     well_scoped sc c
                 end) fs
  end.

(** A duplicate-free list of exactly the indices below [n]. *)
Definition enumerates (l : list nat) (n : nat) : bool :=
  distinct l && (List.length l =? n) && forallb (fun a => a <? n) l.

(** The order [t], collected from variable [v], covers every variable and
    every factor of the model once, and every variable has a state. *)
Definition covers (m : model) (v : nat) (t : Tree) : bool :=
  (root t =? v) &&
  well_scoped (scopes m) t &&
  enumerates (tree_vars t) (List.length (variables m)) &&
  enumerates (tree_facs t) (List.length (scopes m)) &&
  forallb (fun x => 0 <? nbstates x) (variables m).

Fixpoint Rsum {A} (l : list A) (f : A -> R) : R :=
  match l with
  | [] => 0%R
  | a :: r => (f a + Rsum r f)%R
  end.

Fixpoint Rprod (l : list R) : R :=
  match l with
  | [] => 1%R
  | a :: r => (a * Rprod r)%R
  end.

(** [table[idx]] *)
Definition lookup (a : ndarray) (idx : list nat) : R :=
  match a, idx with
  | Arr1 v, [i] => nth i v 0%R
  | Arr2 rows, [i; j] => nth j (nth i rows []) 0%R
  | _, _ => 0%R
  end.

Section SumProduct.

Variable m : model.
Variable st : store.

(** Modelled from the spec: evidence in the absent [graphical.py] clamps a
    variable; the states a variable can be in are all its states, or its
    evidence when it has one. *)
Definition states (v : nat) : list nat :=
  match st v with
  | Some e => [e]
  | None => seq 0 (nbstates (var_at m v))
  end.

(** Modelled from the spec: a factor holds a log-table, its potential is
    the exponential. *)
Definition potential (f : FactorNode) (idx : list nat) : R :=
  exp (lookup (ftable f) idx).

(** Modelled from the spec: the sum-product messages of the absent
    [graphical.py].  A factor sends the variable above it the sum, over the
    states of the variable below, of its potential times what that
    variable has received; [message t s] is the product of the messages
    the root of [t] receives from the factors below it, at state [s]. *)
Fixpoint message (t : Tree) (s : nat) {struct t} : R :=
  match t with
  | Node v fs =>
      Rprod
        (map (fun ic : nat * option Tree =>
                match snd ic with
                | None => potential (fac_at m (fst ic)) [s]
                | Some c =>
                    Rsum (states (root c))
                         (fun s' => (potential (fac_at m (fst ic)) [s; s']
                                     * message c s')%R)
                end)
             fs)
  end.

Definition factor_message (ic : nat * option Tree) (s : nat) : R :=
  match snd ic with
  | None => potential (fac_at m (fst ic)) [s]
  | Some c =>
      Rsum (states (root c))
           (fun s' => (potential (fac_at m (fst ic)) [s; s'] * message c s')%R)
  end.

(** Modelled from the spec: [v.initiateMessagePassing(None)] of the absent
    [graphical.py]; the messages [v] receives, each a vector over the
    states of [v]. *)
Definition initiateMessagePassing (v : nat) : list (list R) :=
  match collection m v with
  | Some t =>
      map (fun ic => map (factor_message ic)
                         (seq 0 (nbstates (var_at m v))))
          (branches t)
  | None => []
  end.

(** Modelled from the spec: [v.computeMarginal()] of the absent
    [graphical.py]; the normalised product of the received messages. *)
Definition computeMarginal (v : nat) (received : list (list R)) : list R :=
  let belief :=
    map (fun s => Rprod (map (fun msg => nth s msg 0%R) received))
        (seq 0 (nbstates (var_at m v))) in
  map (fun b => (b / Rsum belief (fun x => x))%R) belief.

(** *** Brute force *)

Definition upd (cfg : nat -> nat) (v s : nat) : nat -> nat :=
  fun u => if u =? v then s else cfg u.

(** The sum of [k] over all configurations of the variables [vs], each
    ranging over its states. *)
Fixpoint sum_cfg (vs : list nat) (k : (nat -> nat) -> R)
         (cfg : nat -> nat) : R :=
  match vs with
  | [] => k cfg
  | v :: r => Rsum (states v) (fun s => sum_cfg r k (upd cfg v s))
  end.

(** The product of all factor tables at a configuration. *)
Definition joint (cfg : nat -> nat) : R :=
  Rprod (map (fun f => potential f (map cfg (fvars f))) (factors m)).

(** The unnormalised marginal of variable [v] at state [t]: the sum of
    the joint over all configurations of the other variables that agree
    with the evidence. *)
Definition brute_marginal (v t : nat) : R :=
  sum_cfg (filter (fun u => negb (u =? v)) (seq 0 (List.length (variables m))))
          joint (upd (fun _ => 0) v t).

End SumProduct.

(** The brute-force posterior of variable [v], unnormalised. *)
Definition exact_posterior (m : model) (st : store) (v : nat) : list R :=
  map (brute_marginal m st v) (seq 0 (nbstates (var_at m v))).

(** The collection orders of the three models from [VT]. *)
Definition example_order : Tree :=
  Node ex_VT [(0, None); (1, Some (Node ex_VX1 [])); (2, Some (Node ex_VX2 []))].

Definition shallow_order : Tree :=
  Node sh_VT
       ((0, None) ::
        map (fun nbf => (1 + nbf, Some (Node (sh_VX nbf) []))) (seq 0 nbfeats)).

Definition hier_order : Tree :=
  Node h_VT
       ((0, None) ::
        map (fun grp =>
               (1 + grp,
                Some (Node (h_VZ grp)
                           (map (fun nbf =>
                                   (1 + nbgroups + nbgfeats * grp + nbf,
                                    Some (Node (h_VX grp nbf) [])))
                                (seq 0 nbgfeats)))))
            (seq 0 nbgroups)).

(** [np.argmax]: the first index of the largest entry. *)
Fixpoint argmax_from (best_i : nat) (best : R) (i : nat) (l : list R) : nat :=
  match l with
  | [] => best_i
  | x :: r =>
      if Rlt_dec best x
      then argmax_from i x (S i) r
      else argmax_from best_i best (S i) r
  end.

Definition np_argmax (l : list R) : nat :=
  match l with
  | [] => 0
  | x :: r => argmax_from 0 x 1 r
  end.

(** ** The three [predict] functions

    Each assigns the evidence and runs inference from [VT]; the result is
    the class and the evidence fields left behind. *)

Definition classify (m : model) (st : store) (VT : nat) : nat :=
  np_argmax (computeMarginal m VT (initiateMessagePassing m st VT)).

Definition example_evidence (x : image) (st : store) : store :=
  let st1 := set_evidence st ex_VX1 (np_sum2 (firstn 10 x)) in
  set_evidence st1 ex_VX2 (np_sum2 (skipn 10 x)).

Definition example_predict (m : model) (x : image) (st : store)
  : nat * store :=
  let st' := example_evidence x st in
  (classify m st' ex_VT, st').

(** [for nbf in range(nbfeats): VX[nbf].evidence = x.ravel()[nbf]] *)
Definition shallow_evidence (x : image) (st : store) : store :=
  fold_left (fun s nbf => set_evidence s (sh_VX nbf) (nth nbf (ravel x) 0))
            (seq 0 nbfeats) st.

Definition shallow_predict (m : model) (x : image) (st : store)
  : nat * store :=
  let st' := shallow_evidence x st in
  (classify m st' sh_VT, st').

(** [for grp ...: for nbf ...: VX[grp][nbf].evidence = xsub[grp,nbf]] *)
Definition hier_evidence (x : image) (st : store) : store :=
  fold_left
    (fun s grp =>
       fold_left
         (fun s' nbf =>
            set_evidence s' (h_VX grp nbf) (nth nbf (nth grp (xsub x) []) 0))
         (seq 0 nbgfeats) s)
    (seq 0 nbgroups) st.

Definition hier_predict (m : model) (x : image) (st : store)
  : nat * store :=
  let st' := hier_evidence x st in
  (classify m st' h_VT, st').

(** A session: [predict] called on the images [xs], one after the other. *)
Definition session (predict : image -> store -> nat * store)
           (xs : list image) (st : store) : store :=
  fold_left (fun s x => snd (predict x s)) xs st.

End Graphical.

(* ================================================================= *)
(** * Facts about [train]                                             *)
(* ================================================================= *)

Module TrainFacts.
Import Sheet14.

Section Log.

Variables Data Lab Feat Grad Back Pred Obj LR : Type.
Variables NN SVC : Type.
Variable net : Network Data Feat Grad Back LR NN.
Variable clf : Classifier Lab Feat Grad Pred Obj SVC.
Variable data : Toy Data Lab.

Local Abbreviation world := (world Data Lab Feat Grad Back Pred Obj LR NN SVC).
Local Abbreviation event := (event Data Lab Feat Grad Back Pred Obj LR).

Lemma descent_step_log lr (w : world) :
  exists z j dz dx,
    w_log (snd (descent_step net clf data lr w))
    = w_log w ++ descent_calls Pred data lr z j dz dx.
Proof.
  unfold descent_step, bind, forward, optimize, gradient, backward, update.
  destruct (nn_forward net (w_nn w) (X data)) as [n1 z]; cbn.
  destruct (svc_optimize clf (w_svc w) z (Y data)) as [s1 j]; cbn.
  destruct (svc_gradient clf s1) as [s2 dz]; cbn.
  destruct (nn_backward net n1 dz) as [n2 dx]; cbn.
  exists z, j, dz, dx. unfold descent_calls.
  repeat rewrite <- app_assoc. reflexivity.
Qed.

Lemma print_error_log it (w : world) :
  exists rest,
    w_log (snd (print_error net clf data it w)) = w_log w ++ rest /\
    no_update rest.
Proof.
  unfold print_error, bind, forward, optimize, emit.
  destruct (nn_forward net (w_nn w) (X data)) as [n1 z]; cbn.
  destruct (svc_optimize clf (w_svc w) z (Y data)) as [s1 j]; cbn.
  destruct (nn_forward net n1 (Xtest data)) as [n2 zt]; cbn.
  destruct (svc_optimize clf s1 zt (Ytest data)) as [s2 jt]; cbn.
  eexists. repeat rewrite <- app_assoc. split; reflexivity.
Qed.

Lemma visualize_step_log (w : world) :
  exists rest,
    w_log (snd (visualize_step net clf data w)) = w_log w ++ rest /\
    no_update rest.
Proof.
  unfold visualize_step, bind, forward, optimize, gradient, predictions,
    backward, emit.
  destruct (nn_forward net (w_nn w) (Xtest data)) as [n1 z]; cbn.
  destruct (svc_optimize clf (w_svc w) z (Ytest data)) as [s1 j]; cbn.
  destruct (svc_gradient clf s1) as [s2 dz]; cbn.
  destruct (svc_predictions clf s2) as [s3 f]; cbn.
  destruct (nn_backward net n1 dz) as [n2 dx]; cbn.
  eexists. repeat rewrite <- app_assoc. split; reflexivity.
Qed.

Lemma no_update_app (l1 l2 : list event) :
  no_update l1 -> no_update l2 -> no_update (l1 ++ l2).
Proof.
  unfold no_update. intros H1 H2. rewrite forallb_app, H1, H2. reflexivity.
Qed.

Lemma report_log msteps vsteps it (w : world) :
  exists rest,
    w_log (snd (report net clf data msteps vsteps it w)) = w_log w ++ rest /\
    no_update rest.
Proof.
  unfold report, bind.
  assert (H1 : exists r1,
             w_log (snd ((if py_in it msteps
                          then print_error net clf data it
                          else ret tt) w)) = w_log w ++ r1 /\
             no_update r1).
  { destruct (py_in it msteps).
    - apply print_error_log.
    - exists []. cbn. rewrite app_nil_r. split; reflexivity. }
  destruct ((if py_in it msteps then print_error net clf data it
             else ret tt) w) as [[] w1].
  cbn in H1. destruct H1 as (r1 & L1 & U1).
  assert (H2 : exists r2,
             w_log (snd ((if py_in it vsteps
                          then visualize_step net clf data
                          else ret tt) w1)) = w_log w1 ++ r2 /\
             no_update r2).
  { destruct (py_in it vsteps).
    - apply visualize_step_log.
    - exists []. cbn. rewrite app_nil_r. split; reflexivity. }
  destruct H2 as (r2 & L2 & U2).
  exists (r1 ++ r2). rewrite L2, L1, app_assoc. split; [reflexivity|].
  apply no_update_app; assumption.
Qed.

Lemma iteration_log_spec msteps vsteps lr it (w : world) :
  exists l,
    w_log (snd (iteration net clf data msteps vsteps lr it w))
    = w_log w ++ l /\
    iteration_log data lr l.
Proof.
  unfold iteration, bind.
  destruct (descent_step_log lr w) as (z & j & dz & dx & L1).
  destruct (descent_step net clf data lr w) as [[] w1]. cbn in L1.
  destruct (report_log msteps vsteps it w1) as (rest & L2 & U).
  exists (descent_calls Pred data lr z j dz dx ++ rest). split.
  - rewrite L2, L1, app_assoc. reflexivity.
  - exists z, j, dz, dx, rest. auto.
Qed.

Lemma for_each_log msteps vsteps lr its : forall w : world,
  exists ls,
    List.length ls = List.length its /\
    w_log (snd (for_each its (iteration net clf data msteps vsteps lr) w))
    = w_log w ++ concat ls /\
    Forall (iteration_log data lr) ls.
Proof.
  induction its as [|it its IH]; intros w.
  - exists []. cbn. rewrite app_nil_r. auto.
  - cbn [for_each]. unfold bind.
    destruct (iteration_log_spec msteps vsteps lr it w) as (l & L1 & I1).
    destruct (iteration net clf data msteps vsteps lr it w) as [[] w1].
    cbn in L1.
    destruct (IH w1) as (ls & Len & L2 & F).
    exists (l :: ls). cbn. split; [lia|]. split.
    + rewrite L2, L1, app_assoc. reflexivity.
    + constructor; assumption.
Qed.

Lemma train_log nn svc msteps vsteps lr :
  exists ls,
    List.length ls = 100 /\
    w_log (train net clf data nn svc msteps vsteps lr) = concat ls /\
    Forall (iteration_log data lr) ls.
Proof.
  unfold train, train_loop.
  destruct (for_each_log msteps vsteps lr (seq 1 100) (World nn svc []))
    as (ls & Len & L & F).
  exists ls. rewrite length_seq in Len. auto.
Qed.

(** *** Counting the updates *)

Lemma updates_app (l1 l2 : list event) :
  updates (l1 ++ l2) = updates l1 + updates l2.
Proof. unfold updates. rewrite filter_app, length_app. reflexivity. Qed.

Lemma no_update_updates (l : list event) : no_update l -> updates l = 0.
Proof.
  unfold no_update, updates. induction l as [|e l IH]; cbn; intros H.
  - reflexivity.
  - apply andb_prop in H. destruct H as [He Hl].
    destruct (is_update e); [discriminate|]. auto.
Qed.

Lemma iteration_log_updates (lr : LR) (l : list event) :
  iteration_log data lr l -> updates l = 1.
Proof.
  intros (z & j & dz & dx & rest & -> & U).
  rewrite updates_app, (no_update_updates U). reflexivity.
Qed.

Lemma concat_updates (lr : LR) (ls : list (list event)) :
  Forall (iteration_log data lr) ls -> updates (concat ls) = List.length ls.
Proof.
  induction 1 as [|l ls Hl _ IH]; cbn [concat List.length].
  - reflexivity.
  - rewrite updates_app, (iteration_log_updates Hl), IH. reflexivity.
Qed.

(** *** What precedes an update *)







(** *** The run on the objects *)

Lemma descent_step_effect (lr : LR) (w : world) :
  descent_effect net clf data lr w (snd (descent_step net clf data lr w)).
Proof.
  unfold descent_effect, descent_step, bind, forward, optimize, gradient,
    backward, update.
  destruct (nn_forward net (w_nn w) (X data)) as [n1 z]; cbn.
  destruct (svc_optimize clf (w_svc w) z (Y data)) as [s1 j] eqn:E1; cbn.
  destruct (svc_gradient clf s1) as [s2 dz] eqn:E2; cbn.
  destruct (nn_backward net n1 dz) as [n2 dx] eqn:E3; cbn.
  exists n1, z, s1, j, s2, dz, n2, dx.
  repeat split; try assumption.
  unfold descent_calls. repeat rewrite <- app_assoc. reflexivity.
Qed.

Lemma print_error_effect (it : nat) (w : world) :
  print_effect net clf data it w (snd (print_error net clf data it w)).
Proof.
  unfold print_effect, print_error, bind, forward, optimize, emit.
  destruct (nn_forward net (w_nn w) (X data)) as [n1 z]; cbn.
  destruct (svc_optimize clf (w_svc w) z (Y data)) as [s1 j] eqn:E1; cbn.
  destruct (nn_forward net n1 (Xtest data)) as [n2 zt] eqn:E2; cbn.
  destruct (svc_optimize clf s1 zt (Ytest data)) as [s2 jt] eqn:E3; cbn.
  exists n1, z, s1, j, n2, zt, s2, jt.
  repeat split; try assumption.
  unfold print_calls. repeat rewrite <- app_assoc. reflexivity.
Qed.

Lemma visualize_step_effect (w : world) :
  visualize_effect net clf data w (snd (visualize_step net clf data w)).
Proof.
  unfold visualize_effect, visualize_step, bind, forward, optimize,
    gradient, predictions, backward, emit.
  destruct (nn_forward net (w_nn w) (Xtest data)) as [n1 z]; cbn.
  destruct (svc_optimize clf (w_svc w) z (Ytest data)) as [s1 j] eqn:E1;
    cbn.
  destruct (svc_gradient clf s1) as [s2 dz] eqn:E2; cbn.
  destruct (svc_predictions clf s2) as [s3 f] eqn:E3; cbn.
  destruct (nn_backward net n1 dz) as [n2 dx] eqn:E4; cbn.
  exists n1, z, s1, j, s2, dz, s3, f, n2, dx.
  repeat split; try assumption.
  unfold visualize_calls. repeat rewrite <- app_assoc. reflexivity.
Qed.

Lemma report_effect_spec msteps vsteps it (w : world) :
  report_effect net clf data msteps vsteps it w
    (snd (report net clf data msteps vsteps it w)).
Proof.
  unfold report_effect, report, bind.
  exists (snd ((if py_in it msteps then print_error net clf data it
                else ret tt) w)).
  split.
  - destruct (py_in it msteps); [apply print_error_effect|reflexivity].
  - destruct ((if py_in it msteps then print_error net clf data it
               else ret tt) w) as [[] m]. cbn [snd].
    destruct (py_in it vsteps); [apply visualize_step_effect|reflexivity].
Qed.

Lemma for_each_iterations msteps vsteps lr its : forall w : world,
  iterations net clf data msteps vsteps lr its w
    (snd (for_each its (iteration net clf data msteps vsteps lr) w)).
Proof.
  induction its as [|it its IH]; intros w.
  - apply iterations_done.
  - cbn [for_each]. unfold bind.
    destruct (iteration net clf data msteps vsteps lr it w) as [[] w1] eqn:E.
    unfold iteration, bind in E.
    pose proof (descent_step_effect lr w) as Hd.
    destruct (descent_step net clf data lr w) as [[] m]. cbn [snd] in Hd.
    pose proof (report_effect_spec msteps vsteps it m) as Hr.
    rewrite E in Hr. cbn [snd] in Hr.
    exact (iterations_step Hd Hr (IH w1)).
Qed.

End Log.

(** C2: whatever the network, the classifier, [msteps], [vsteps] and the
    learning rate, [train] runs the iterations of [range(1,101)], exactly
    100.  Each iteration starts with a descent step run on the two objects:
    [nn.forward(X)] on the network as the iteration finds it,
    [svc.optimize(Z,Y)] on the features just returned, [svc.gradient()],
    [nn.backward(DZ)] on the gradient just returned and [nn.update(lr)]
    applied to the network [backward] has left, in this order; the
    reporting of the iteration goes on from there and applies no update,
    and the next iteration from where the reporting ends.  Accordingly the
    call log is the concatenation of 100 iteration logs, each starting
    with these five calls and holding no other update, so [train] makes
    exactly 100 updates. *)
Theorem train_hundred_descent_steps :
  forall (Data Lab Feat Grad Back Pred Obj LR NN SVC : Type)
         (net : Network Data Feat Grad Back LR NN)
         (clf : Classifier Lab Feat Grad Pred Obj SVC)
         (data : Toy Data Lab)
         (nn : NN) (svc : SVC) (msteps vsteps : list nat) (lr : LR),
    List.length (seq 1 100) = 100 /\
    iterations net clf data msteps vsteps lr (seq 1 100) (World nn svc [])
               (train net clf data nn svc msteps vsteps lr) /\
    exists ls,
      List.length ls = 100 /\
      w_log (train net clf data nn svc msteps vsteps lr) = concat ls /\
      Forall (iteration_log data lr) ls /\
      updates (w_log (train net clf data nn svc msteps vsteps lr)) = 100.
Proof.
  intros. split; [apply length_seq|]. split.
  - unfold train, train_loop. apply for_each_iterations.
  - destruct (train_log net clf data nn svc msteps vsteps lr)
      as (ls & Len & L & F).
    exists ls. repeat split; try assumption.
    rewrite L, (concat_updates F). exact Len.
Qed.

Section Parameters.

Variables Data Lab Feat Grad Back Pred Obj LR : Type.
Variables Params Acts Grads SVC : Type.
Variable L : Layers Data Feat Grad Back LR Params Acts Grads.
Variable clf : Classifier Lab Feat Grad Pred Obj SVC.

Local Abbreviation net := (module_network L).
Local Abbreviation world :=
  (world Data Lab Feat Grad Back Pred Obj LR
         (net_state Params Acts Grads) SVC).

(** The parameters after one descent step, from those before it. *)
Definition descent_params (x : Data) (y : Lab) (s0 : SVC) (lr : LR)
           (p : Params) : Params :=
  let dz := snd (svc_gradient clf
                   (fst (svc_optimize clf s0 (fwd_out L p x) y))) in
  step L p (bwd_grads L p (fwd_acts L p x) dz) lr.







End Parameters.


Lemma descent_params_linear
      (Data Lab Feat Grad Back Pred Obj LR Params Acts Grads Fit : Type)
      (L : Layers Data Feat Grad Back LR Params Acts Grads)
      (S : SVM Lab Feat Grad Pred Obj Fit) x y s0 lr p :
  descent_params L (linear_svc S) x y s0 lr p = descent_update L S x y lr p.
Proof. reflexivity. Qed.



(** [train] fits the one [svc] object on the test set too, whenever a
    report is due.  The result above rests on [optimize] training the
    classifier on its arguments alone: with a classifier that keeps its
    earlier fit, the parameters of the toy network after [train] differ
    between the test sets [false] and [true], although its [backward]
    replaces the stored gradient. *)
Remark warm_start_leaks_test_set :
  backward_replaces Toy.toy_layers /\
  params (w_nn (Toy.toy_train false [1] []))
  <> params (w_nn (Toy.toy_train true [1] [])).
Proof.
  split.
  - intros old fresh. reflexivity.
  - vm_compute. discriminate.
Qed.

End TrainFacts.

(* ================================================================= *)
(** * Facts about the graphical models                                *)
(* ================================================================= *)

Module GraphicalFacts.
Import Graphical.

(** ** Lists *)

Lemma nth_map_seq (A : Type) (f : nat -> A) (d : A) (a n i : nat) :
  i < n -> nth i (map f (seq a n)) d = f (a + i).
Proof.
  intros H. rewrite (nth_indep _ d (f 0)) by (rewrite length_map, length_seq; lia).
  rewrite map_nth, seq_nth by lia. reflexivity.
Qed.

(** ** Small checks of the array operations *)

(** Group [g] of [xsub] is the 5x5 block in block row [g/4] and block
    column [g mod 4], read row by row: checked on the image whose pixel
    at row [r], column [c] is [20*r + c]. *)
Example xsub_layout :
  let x := map (fun r => map (fun c => 20 * r + c) (seq 0 20)) (seq 0 20) in
  forallb (fun g =>
             forallb (fun f =>
                        nth f (nth g (xsub x) []) 0
                        =? 20 * (5 * (g / 4) + f / 5) + (5 * (g mod 4) + f mod 5))
                     (seq 0 25))
          (seq 0 16) = true.
Proof. vm_compute. reflexivity. Qed.

Example argwhere_rows :
  argwhere [[0; 1]; [1; 1]] 1 = [(0, 1); (1, 0); (1, 1)].
Proof. reflexivity. Qed.

Example group_examples_rows :
  group_examples (argwhere [[0; 1]; [1; 1]; [1; 0]] 1) 0 = [1; 2].
Proof. reflexivity. Qed.

Example mask_select_rows :
  mask_select (eq_mask 1 [0; 1; 1; 3]) [10; 11; 12; 13] = [11; 12].
Proof. reflexivity. Qed.

Example sum_axis0_rows : sum_axis0 3 [[1; 0; 1]; [1; 1; 0]] = [2; 1; 1].
Proof. reflexivity. Qed.

(** Four labels 0, 1, 1, 3: the smoothed class frequencies are
    [(count + 1) / 14]. *)
Example PT_small :
  map Qred (PT [0; 1; 1; 3])
  = [1 # 7; 3 # 14; 1 # 14; 1 # 7; 1 # 14; 1 # 14; 1 # 14; 1 # 14; 1 # 14;
     1 # 14]%Q.
Proof. vm_compute. reflexivity. Qed.

(** ** The tables of the hierarchical model *)

(** C3: on the training set of two all-white images whose groups all have
    subclass 0, the table entry [PXT[0,0,0,1]] is 2, while the fraction of
    the training patches of group 0 with subclass 0 in which pixel 0 is
    white is 1: the loop divides the count of white pixels by the sum of
    the example indices (here 0 + 1), not by the number of patches. *)
Theorem hier_PXT_divides_by_index_sum :
  (nth 1 (nth 0 (nth 0 (nth 0 (hier_PXT two_white two_white_labels) []) [])
            []) 0 == 2)%Q /\
  (patch_white_fraction two_white two_white_labels 0 0 0 == 1)%Q.
Proof. split; vm_compute; reflexivity. Qed.

(** C4: on the same training set the entry [PXT[0,0,0,0] + 1e-20] handed to
    [np.log] is negative. *)
Theorem hier_log_argument_negative :
  (nth 0 (nth 0 (smoothed
                   (nth 0 (nth 0 (hier_PXT two_white two_white_labels) []) []))
            []) 0 < 0)%Q.
Proof. vm_compute. reflexivity. Qed.

(** ** Add-one smoothing *)

Lemma Qn_pos n : 0 < n -> (0 < Qn n)%Q.
Proof.
  intros H. unfold Qn, Qlt. cbn. lia.
Qed.

(** "adding 1 avoids log(0)": every entry of
    [(nbexamples+1) / (nbexamples+1).sum()] is positive. *)
Lemma add_one_normalize_pos counts :
  Forall (fun q => (0 < q)%Q) (add_one_normalize counts).
Proof.
  unfold add_one_normalize. apply Forall_map, Forall_forall. intros n Hn.
  assert (Htot : 0 < list_sum (map (fun k => k + 1) counts)).
  { clear -Hn. induction counts as [|k counts IH]; [destruct Hn|].
    cbn [map]. change (list_sum ((k + 1) :: map (fun k => k + 1) counts))
      with ((k + 1) + list_sum (map (fun k => k + 1) counts)). lia. }
  apply Qlt_shift_div_l; [now apply Qn_pos|].
  rewrite Qmult_0_l. apply Qn_pos. lia.
Qed.

Lemma PT_pos T : Forall (fun q => (0 < q)%Q) (PT T).
Proof. apply add_one_normalize_pos. Qed.

Lemma PXT_levels_pos Xhalf T :
  Forall (Forall (fun q => (0 < q)%Q)) (PXT_levels Xhalf T).
Proof.
  unfold PXT_levels. apply Forall_map, Forall_forall. intros counts _.
  apply add_one_normalize_pos.
Qed.

(** ** Structure of the three models *)

Lemma example_scopes_eq X T : scopes (example_model X T) = example_scopes.
Proof. reflexivity. Qed.

Lemma shallow_scopes_eq X T : scopes (shallow_model X T) = shallow_scopes.
Proof.
  unfold scopes, shallow_model, shallow_factors, shallow_scopes.
  cbn [factors map fvars]. rewrite map_map. reflexivity.
Qed.

Lemma hier_scopes_eq X T Z : scopes (hier_model X T Z) = hier_scopes.
Proof.
  unfold scopes, hier_model, hier_factors, hier_scopes.
  cbn [factors map fvars]. rewrite map_app, map_map, concat_map, map_map.
  reflexivity.
Qed.

Lemma factors_length m : List.length (factors m) = List.length (scopes m).
Proof. unfold scopes. rewrite length_map. reflexivity. Qed.

Lemma graph_nodes_length m :
  List.length (graph_nodes m)
  = List.length (variables m) + List.length (scopes m).
Proof.
  unfold graph_nodes, scopes.
  rewrite length_app, !length_map, !length_seq. reflexivity.
Qed.

(** C8: the example model has 3 variable and 3 factor nodes, the shallow
    model 401 and 401, the hierarchical model 417 and 417: 6, 802 and 834
    nodes in all, whatever the training set. *)
Theorem model_node_counts :
  forall (X : list image) (T : list nat) (Z : list (list nat)),
    (List.length (variables (example_model X T)) = 3 /\
     List.length (graph_nodes (example_model X T)) = 6) /\
    (List.length (variables (shallow_model X T)) = 401 /\
     List.length (graph_nodes (shallow_model X T)) = 802) /\
    (List.length (variables (hier_model X T Z)) = 417 /\
     List.length (graph_nodes (hier_model X T Z)) = 834).
Proof.
  intros X T Z.
  rewrite !graph_nodes_length,
    example_scopes_eq, shallow_scopes_eq, hier_scopes_eq.
  cbn [variables example_model shallow_model hier_model].
  vm_compute. repeat split; reflexivity.
Qed.

(** ** Shapes of the factor tables *)

Lemma log1_shape p n : List.length p = n -> has_shape (log1 p) [n].
Proof. intros H. cbn. rewrite length_map. exact H. Qed.

Lemma log2_shape p n k :
  List.length p = n -> Forall (fun r => List.length r = k) p ->
  has_shape (log2 p) [n; k].
Proof.
  intros Hn Hk. cbn. rewrite length_map. split; [exact Hn|].
  apply Forall_map. eapply Forall_impl; [|exact Hk].
  intros r Hr. rewrite length_map. exact Hr.
Qed.

Lemma smoothed_shape p n k :
  List.length p = n -> Forall (fun r => List.length r = k) p ->
  has_shape (log2 (smoothed p)) [n; k].
Proof.
  intros Hn Hk. apply log2_shape.
  - unfold smoothed. rewrite length_map. exact Hn.
  - unfold smoothed. apply Forall_map. eapply Forall_impl; [|exact Hk].
    intros r Hr. rewrite length_map. exact Hr.
Qed.

Lemma add_one_normalize_length counts :
  List.length (add_one_normalize counts) = List.length counts.
Proof. unfold add_one_normalize. apply length_map. Qed.

Lemma PT_length T : List.length (PT T) = 10.
Proof.
  unfold PT, class_counts. rewrite add_one_normalize_length, length_map.
  apply length_seq.
Qed.

Lemma PXT_levels_shape Xhalf T :
  List.length (PXT_levels Xhalf T) = 10 /\
  Forall (fun r => List.length r = 201) (PXT_levels Xhalf T).
Proof.
  unfold PXT_levels, level_counts. split.
  - rewrite !length_map. apply length_seq.
  - rewrite map_map. apply Forall_map, Forall_forall. intros cl _.
    rewrite add_one_normalize_length, length_map. apply length_seq.
Qed.

Lemma shallow_PXT_shape X T nbf :
  nbf < nbfeats ->
  List.length (nth nbf (shallow_PXT X T) []) = 10 /\
  Forall (fun r => List.length r = 2) (nth nbf (shallow_PXT X T) []).
Proof.
  intros H. unfold shallow_PXT. rewrite nth_map_seq by exact H. split.
  - rewrite length_map. apply length_seq.
  - apply Forall_map, Forall_forall. intros cl _. reflexivity.
Qed.

Lemma PZT_shape T Z grp :
  grp < nbgroups ->
  List.length (nth grp (PZT T Z) []) = 10 /\
  Forall (fun r => List.length r = 12) (nth grp (PZT T Z) []).
Proof.
  intros H. unfold PZT. rewrite nth_map_seq by exact H. split.
  - rewrite length_map. apply length_seq.
  - apply Forall_map, Forall_forall. intros cl _.
    unfold PZT_class. rewrite nth_map_seq by exact H.
    rewrite !length_map. apply length_seq.
Qed.

Lemma hier_PXT_shape X Z grp nbf :
  grp < nbgroups -> nbf < nbgfeats ->
  List.length (nth nbf (nth grp (hier_PXT X Z) []) []) = 12 /\
  Forall (fun r => List.length r = 2) (nth nbf (nth grp (hier_PXT X Z) []) []).
Proof.
  intros Hg Hf. unfold hier_PXT.
  rewrite nth_map_seq by exact Hg. rewrite nth_map_seq by exact Hf. split.
  - rewrite length_map. apply length_seq.
  - apply Forall_map, Forall_forall. intros sc _. reflexivity.
Qed.

(** The state counts of the nodes, looked up in the variable lists. *)
Lemma shallow_VX_states nbf :
  nbf < nbfeats -> nbstates (nth (sh_VX nbf) shallow_variables no_var) = 2.
Proof.
  intros H.
  assert (C : forallb (fun nbf =>
                nbstates (nth (sh_VX nbf) shallow_variables no_var) =? 2)
                (seq 0 nbfeats) = true) by (vm_compute; reflexivity).
  rewrite forallb_forall in C. apply Nat.eqb_eq, C, in_seq.
  unfold nbfeats in *. lia.
Qed.

Lemma hier_VZ_states grp :
  grp < nbgroups -> nbstates (nth (h_VZ grp) hier_variables no_var) = 12.
Proof.
  intros H.
  assert (C : forallb (fun grp =>
                nbstates (nth (h_VZ grp) hier_variables no_var) =? 12)
                (seq 0 nbgroups) = true) by (vm_compute; reflexivity).
  rewrite forallb_forall in C. apply Nat.eqb_eq, C, in_seq.
  unfold nbgroups in *. lia.
Qed.

Lemma hier_VX_states grp nbf :
  grp < nbgroups -> nbf < nbgfeats ->
  nbstates (nth (h_VX grp nbf) hier_variables no_var) = 2.
Proof.
  intros Hg Hf.
  assert (C : forallb (fun grp => forallb (fun nbf =>
                nbstates (nth (h_VX grp nbf) hier_variables no_var) =? 2)
                (seq 0 nbgfeats)) (seq 0 nbgroups) = true)
    by (vm_compute; reflexivity).
  rewrite forallb_forall in C.
  assert (Cg := C grp). rewrite forallb_forall in Cg.
  apply Nat.eqb_eq, Cg; apply in_seq; unfold nbgroups, nbgfeats in *; lia.
Qed.

(** C7: in each of the three models every factor's log-table has the shape
    given by the state counts of its variable nodes: (10,) for [FT],
    (10,201) for [FXT1] and [FXT2], (10,2) for the shallow [FXT[i]],
    (10,12) for [FZT[g]] and (12,2) for the hierarchical [FXT[g][f]]. *)
Theorem factor_tables_match_variables :
  forall (X : list image) (T : list nat) (Z : list (list nat)),
    Forall (shaped (example_model X T) [[10]; [10; 201]])
           (factors (example_model X T)) /\
    Forall (shaped (shallow_model X T) [[10]; [10; 2]])
           (factors (shallow_model X T)) /\
    Forall (shaped (hier_model X T Z) [[10]; [10; 12]; [12; 2]])
           (factors (hier_model X T Z)).
Proof.
  intros X T Z. split; [|split].
  - cbn [factors example_model example_factors].
    repeat apply Forall_cons; try apply Forall_nil; unfold shaped;
      cbn [state_counts fvars ftable map].
    + split; [apply log1_shape, PT_length|cbn; auto].
    + split; [apply log2_shape; apply PXT_levels_shape|cbn; auto].
    + split; [apply log2_shape; apply PXT_levels_shape|cbn; auto].
  - cbn [factors shallow_model shallow_factors]. apply Forall_cons.
    + unfold shaped. cbn [state_counts fvars ftable map].
      split; [apply log1_shape, PT_length|cbn; auto].
    + apply Forall_map, Forall_forall. intros nbf Hin.
      apply in_seq in Hin. cbn in Hin.
      unfold shaped, state_counts, var_at.
      cbn [fvars ftable map variables shallow_model].
      rewrite shallow_VX_states by lia.
      change (nbstates (nth sh_VT shallow_variables no_var)) with 10.
      split; [apply smoothed_shape; apply shallow_PXT_shape; lia|cbn; auto].
  - cbn [factors hier_model hier_factors]. apply Forall_cons.
    + unfold shaped. cbn [state_counts fvars ftable map].
      split; [apply log1_shape, PT_length|cbn; auto].
    + apply Forall_app. split.
      * apply Forall_map, Forall_forall. intros grp Hin.
        apply in_seq in Hin. cbn in Hin.
        unfold shaped, state_counts, var_at.
        cbn [fvars ftable map variables hier_model].
        rewrite hier_VZ_states by lia.
        change (nbstates (nth h_VT hier_variables no_var)) with 10.
        split; [apply smoothed_shape; apply PZT_shape; lia|cbn; auto].
      * apply Forall_concat, Forall_map, Forall_forall. intros grp Hg.
        apply in_seq in Hg. cbn in Hg.
        apply Forall_map, Forall_forall. intros nbf Hf.
        apply in_seq in Hf. cbn in Hf.
        unfold shaped, state_counts, var_at.
        cbn [fvars ftable map variables hier_model].
        rewrite hier_VZ_states, hier_VX_states by lia.
        split; [apply smoothed_shape; apply hier_PXT_shape; lia|cbn; auto].
Qed.

(** ** Evidence assigned by [predict] *)

Section Assign.

Variable A : Type.
Variable key : A -> nat.
Variable val : A -> nat.

Definition assign_all (l : list A) (st : store) : store :=
  fold_left (fun s a => set_evidence s (key a) (val a)) l st.

Lemma assign_other l : forall st v,
  (forall a, In a l -> key a <> v) -> assign_all l st v = st v.
Proof.
  induction l as [|b l IH]; intros st v H; cbn.
  - reflexivity.
  - unfold assign_all in IH. rewrite IH by (intros a Ha; apply H; now right).
    unfold set_evidence.
    destruct (Nat.eqb_spec v (key b)) as [E|E]; [|reflexivity].
    exfalso. apply (H b); [now left|auto].
Qed.

Lemma assign_key l : forall st a,
  NoDup (map key l) -> In a l -> assign_all l st (key a) = Some (val a).
Proof.
  induction l as [|b l IH]; intros st a ND Hin; cbn.
  - destruct Hin.
  - cbn in ND. inversion ND as [|k ks Hk ND']; subst.
    destruct (in_dec Nat.eq_dec (key a) (map key l)) as [I|I].
    + destruct Hin as [->|Hin]; [contradiction|].
      apply (IH _ _ ND' Hin).
    + destruct Hin as [->|Hin].
      * fold (assign_all l (set_evidence st (key a) (val a)) (key a)).
        rewrite assign_other.
        -- unfold set_evidence. rewrite Nat.eqb_refl. reflexivity.
        -- intros c Hc E. apply I. rewrite <- E. now apply in_map.
      * exfalso. apply I. now apply in_map.
Qed.

End Assign.

Lemma fold_left_map (A B C : Type) (f : A -> C -> A) (g : B -> C) l :
  forall a, fold_left f (map g l) a = fold_left (fun x b => f x (g b)) l a.
Proof. induction l as [|b l IH]; intros a; cbn; [reflexivity|apply IH]. Qed.

Lemma fold_left_nested (S : Type) (F : S -> nat -> nat -> S) ns gs :
  forall st,
    fold_left (fun s g => fold_left (fun s' n => F s' g n) ns s) gs st
    = fold_left (fun s gn => F s (fst gn) (snd gn))
                (flat_map (fun g => map (pair g) ns) gs) st.
Proof.
  induction gs as [|g gs IH]; intros st; cbn; [reflexivity|].
  rewrite fold_left_app, fold_left_map. cbn. apply IH.
Qed.

Lemma nodupb_sound (A : Type) (eqb : A -> A -> bool) :
  (forall a b, eqb a b = true <-> a = b) ->
  forall l, nodupb eqb l = true -> NoDup l.
Proof.
  intros Heq. induction l as [|a l IH]; cbn; intros H; constructor.
  - apply andb_prop in H. destruct H as [H _]. intros Hin.
    assert (E : existsb (eqb a) l = true).
    { apply existsb_exists. exists a. split; [exact Hin|now apply Heq]. }
    rewrite E in H. discriminate.
  - apply andb_prop in H. apply IH, H.
Qed.

Lemma distinct_NoDup (l : list nat) : distinct l = true -> NoDup l.
Proof.
  unfold distinct. intros H.
  apply (nodupb_sound N.eqb N.eqb_eq) in H.
  exact (NoDup_map_inv _ _ H).
Qed.

(** The pixel nodes of the hierarchical model, as (group, pixel) pairs. *)
Definition hier_pixels : list (nat * nat) :=
  flat_map (fun grp => map (pair grp) (seq 0 nbgfeats)) (seq 0 nbgroups).

Lemma shallow_evidence_assign x st :
  shallow_evidence x st
  = assign_all sh_VX (fun nbf => nth nbf (ravel x) 0) (seq 0 nbfeats) st.
Proof. reflexivity. Qed.

Lemma hier_evidence_assign x st :
  hier_evidence x st
  = assign_all (fun gn => h_VX (fst gn) (snd gn))
               (fun gn => nth (snd gn) (nth (fst gn) (xsub x) []) 0)
               hier_pixels st.
Proof.
  unfold hier_evidence, assign_all, hier_pixels.
  apply (fold_left_nested
           (fun s g n => set_evidence s (h_VX g n)
                                      (nth n (nth g (xsub x) []) 0))).
Qed.

Lemma shallow_keys_NoDup : NoDup (map sh_VX (seq 0 nbfeats)).
Proof. apply distinct_NoDup. vm_compute. reflexivity. Qed.

Lemma hier_keys_NoDup :
  NoDup (map (fun gn => h_VX (fst gn) (snd gn)) hier_pixels).
Proof. apply distinct_NoDup. vm_compute. reflexivity. Qed.

Lemma hier_pixels_In grp nbf :
  grp < nbgroups -> nbf < nbgfeats -> In (grp, nbf) hier_pixels.
Proof.
  intros Hg Hf. unfold hier_pixels. apply in_flat_map. exists grp. split.
  - apply in_seq. lia.
  - apply in_map, in_seq. lia.
Qed.

(** *** Pixels of a well-formed image *)

Lemma Forall_take (A : Type) (P : A -> Prop) n : forall l,
  Forall P l -> Forall P (firstn n l).
Proof.
  induction n as [|n IH]; intros l H; cbn; [constructor|].
  destruct H; constructor; auto.
Qed.

Lemma Forall_drop (A : Type) (P : A -> Prop) n : forall l,
  Forall P l -> Forall P (skipn n l).
Proof.
  induction n as [|n IH]; intros l H; cbn; [exact H|].
  destruct H; [constructor|auto].
Qed.

Lemma Forall_nth_default (A : Type) (P : A -> Prop) l d i :
  Forall P l -> P d -> P (nth i l d).
Proof.
  intros H Hd. revert i. induction H as [|a l Ha _ IH]; intros [|i]; cbn; auto.
Qed.

Definition bit (p : nat) : Prop := p <= 1.

Lemma image_check_rows x :
  image_check x = true ->
  List.length x = 20 /\
  Forall (fun r => List.length r = 20 /\ Forall bit r) x.
Proof.
  unfold image_check. intros H. apply andb_prop in H. destruct H as [Hl Hr].
  split; [now apply Nat.eqb_eq|].
  apply Forall_forall. intros r Hin.
  rewrite forallb_forall in Hr. specialize (Hr r Hin).
  apply andb_prop in Hr. destruct Hr as [H1 H2].
  split; [now apply Nat.eqb_eq|].
  apply Forall_forall. intros q Hq. rewrite forallb_forall in H2.
  apply Nat.leb_le, H2, Hq.
Qed.

Lemma image_check_bits x : image_check x = true -> Forall (Forall bit) x.
Proof.
  intros H. apply image_check_rows in H. destruct H as [_ H].
  eapply Forall_impl; [|exact H]. intros r [_ Hr]. exact Hr.
Qed.

Lemma list_sum_bits r : Forall bit r -> list_sum r <= List.length r.
Proof.
  induction 1 as [|q r Hq _ IH]; [cbn; lia|].
  change (list_sum (q :: r)) with (q + list_sum r).
  cbn [List.length]. unfold bit in Hq. lia.
Qed.

Lemma np_sum2_rows rows :
  Forall (fun r => List.length r = 20 /\ Forall bit r) rows ->
  np_sum2 rows <= 20 * List.length rows.
Proof.
  unfold np_sum2. induction 1 as [|r rows [Hl Hb] _ IH]; [cbn; lia|].
  cbn [map List.length].
  change (list_sum (list_sum r :: map list_sum rows))
    with (list_sum r + list_sum (map list_sum rows)).
  pose proof (list_sum_bits Hb). lia.
Qed.

Lemma np_split_bits (A : Type) (P : A -> Prop) (l : list A) k :
  Forall P l -> Forall P (nth k (np_split l) []).
Proof.
  intros H. apply Forall_nth_default; [|constructor].
  unfold np_split.
  repeat (apply Forall_cons; [try apply Forall_take; try apply Forall_drop;
                              try apply Forall_take; try apply Forall_drop;
                              exact H|]).
  constructor.
Qed.

Lemma xsub_bits x : Forall (Forall bit) x -> Forall (Forall bit) (xsub x).
Proof.
  intros H. unfold xsub, patches, blocks, split_stack.
  apply Forall_map, Forall_concat, Forall_map, Forall_forall. intros rb _.
  apply Forall_map, Forall_map, Forall_forall. intros cb _.
  apply Forall_concat.
  apply np_split_bits.
  apply Forall_map. eapply Forall_impl; [|exact H].
  intros r Hr. apply np_split_bits, Hr.
Qed.

(** C9: for a 20x20 image of 0/1 pixels, [predict] assigns to [VX1] and
    [VX2] the sums of the top and bottom half, at most 200 and below the
    201 states of these nodes; to each [VX[nbf]] of the shallow model and
    each [VX[grp][nbf]] of the hierarchical model a pixel value, at most
    1 and below the 2 states of the node. *)
Theorem evidence_within_states :
  forall (X : list image) (T : list nat) (Z : list (list nat))
         (x : image) (st : store),
    image_check x = true ->
    (exists e1 e2,
        example_evidence x st ex_VX1 = Some e1 /\
        example_evidence x st ex_VX2 = Some e2 /\
        e1 <= 200 /\ e2 <= 200 /\
        e1 < nbstates (var_at (example_model X T) ex_VX1) /\
        e2 < nbstates (var_at (example_model X T) ex_VX2)) /\
    (forall nbf, nbf < nbfeats ->
       exists e,
         shallow_evidence x st (sh_VX nbf) = Some e /\ e <= 1 /\
         e < nbstates (var_at (shallow_model X T) (sh_VX nbf))) /\
    (forall grp nbf, grp < nbgroups -> nbf < nbgfeats ->
       exists e,
         hier_evidence x st (h_VX grp nbf) = Some e /\ e <= 1 /\
         e < nbstates (var_at (hier_model X T Z) (h_VX grp nbf))).
Proof.
  intros X T Z x st Hx.
  pose proof (image_check_rows x Hx) as [Hlen Hrows].
  pose proof (image_check_bits x Hx) as Hbits.
  split; [|split].
  - exists (np_sum2 (firstn 10 x)), (np_sum2 (skipn 10 x)).
    assert (H1 : np_sum2 (firstn 10 x) <= 200).
    { pose proof (np_sum2_rows (Forall_take 10 Hrows)) as B.
      rewrite length_firstn in B. lia. }
    assert (H2 : np_sum2 (skipn 10 x) <= 200).
    { pose proof (np_sum2_rows (Forall_drop 10 Hrows)) as B.
      rewrite length_skipn in B. lia. }
    cbn [var_at example_model variables example_variables nth ex_VX1 ex_VX2
         nbstates ex_nblevels].
    unfold ex_nblevels. repeat split; try assumption; lia.
  - intros nbf Hn. exists (nth nbf (ravel x) 0).
    assert (B : nth nbf (ravel x) 0 <= 1).
    { apply (Forall_nth_default (P := bit)); [|unfold bit; lia].
      unfold ravel. apply Forall_concat, Hbits. }
    split; [|split; [exact B|]].
    + rewrite shallow_evidence_assign.
      apply (assign_key sh_VX (fun nbf => nth nbf (ravel x) 0)).
      * apply shallow_keys_NoDup.
      * apply in_seq. lia.
    + unfold var_at. cbn [variables shallow_model].
      rewrite shallow_VX_states by exact Hn. lia.
  - intros grp nbf Hg Hn. exists (nth nbf (nth grp (xsub x) []) 0).
    assert (B : nth nbf (nth grp (xsub x) []) 0 <= 1).
    { apply (Forall_nth_default (P := bit)); [|unfold bit; lia].
      apply (Forall_nth_default (P := Forall bit)); [|constructor].
      apply xsub_bits, Hbits. }
    split; [|split; [exact B|]].
    + rewrite hier_evidence_assign.
      apply (assign_key (fun gn => h_VX (fst gn) (snd gn))
                        (fun gn => nth (snd gn) (nth (fst gn) (xsub x) []) 0)
                        hier_pixels st (grp, nbf)).
      * apply hier_keys_NoDup.
      * apply hier_pixels_In; assumption.
    + unfold var_at. cbn [variables hier_model].
      rewrite hier_VX_states by assumption. lia.
Qed.

(** C9 at the all-white image, from a store without evidence. *)
Lemma evidence_within_states_witness :
  image_check white_image = true /\
  exists e1 e2,
    example_evidence white_image no_evidence ex_VX1 = Some e1 /\
    example_evidence white_image no_evidence ex_VX2 = Some e2 /\
    e1 <= 200 /\ e2 <= 200 /\
    e1 < nbstates (var_at (example_model [] []) ex_VX1) /\
    e2 < nbstates (var_at (example_model [] []) ex_VX2).
Proof.
  split; [vm_compute; reflexivity|].
  exact (proj1 (evidence_within_states [] [] [] white_image no_evidence
                  eq_refl)).
Defined.

(** ** Trees *)

Lemma node_eqb_eq a b : node_eqb a b = true <-> a = b.
Proof.
  destruct a as [v|i], b as [w|j]; cbn; split; intros H;
    try discriminate; try (apply Nat.eqb_eq in H; now subst);
    injection H as ->; apply Nat.eqb_refl.
Qed.

(** A graph with ranks in which every edge joins consecutive ranks and
    every node but [top] has exactly one neighbour of the rank below. *)
Section Ranked.

Variable nodes : list node.
Variable edges : list (node * node).
Variable top : node.
Variable rank : node -> nat.

Local Abbreviation adj := (adjacent edges).

Hypothesis adj_nodes : forall u v,
  adj u v ->
  In u nodes /\ In v nodes /\ (rank u = S (rank v) \/ rank v = S (rank u)).
Hypothesis parent_unique : forall n p q,
  adj n p -> adj n q -> rank n = S (rank p) -> rank n = S (rank q) -> p = q.
Hypothesis parent_exists : forall n,
  In n nodes -> n <> top -> exists p, adj n p /\ rank n = S (rank p).

Lemma adj_sym u v : adj u v -> adj v u.
Proof. unfold adjacent. tauto. Qed.

(** *** Connected *)

Lemma walk_trans u v w :
  walk nodes edges u v -> walk nodes edges v w -> walk nodes edges u w.
Proof.
  induction 1 as [u Hu|u x v Hux _ IH]; intros H; [exact H|].
  eapply walk_step; [exact Hux|exact (IH H)].
Qed.

Lemma walk_sym u v : walk nodes edges u v -> walk nodes edges v u.
Proof.
  induction 1 as [u Hu|u x v Hux _ IH]; [now constructor|].
  eapply walk_trans; [exact IH|].
  eapply walk_step; [exact (adj_sym Hux)|].
  constructor. exact (proj1 (adj_nodes Hux)).
Qed.

Lemma walk_to_top : forall k n,
  rank n <= k -> In n nodes -> walk nodes edges n top.
Proof.
  induction k as [|k IH]; intros n Hk Hn.
  - destruct (node_eqb n top) eqn:E.
    + apply node_eqb_eq in E. subst. now constructor.
    + assert (Hne : n <> top)
        by (intros ->; rewrite (proj2 (node_eqb_eq top top) eq_refl) in E;
            discriminate).
      destruct (parent_exists Hn Hne) as (p & _ & R). lia.
  - destruct (node_eqb n top) eqn:E.
    + apply node_eqb_eq in E. subst. now constructor.
    + assert (Hne : n <> top)
        by (intros ->; rewrite (proj2 (node_eqb_eq top top) eq_refl) in E;
            discriminate).
      destruct (parent_exists Hn Hne) as (p & A & R).
      eapply walk_step; [exact A|].
      apply IH; [lia|]. exact (proj1 (proj2 (adj_nodes A))).
Qed.

Lemma cert_connected : connected nodes edges.
Proof.
  intros u v Hu Hv.
  eapply walk_trans; [exact (walk_to_top (Nat.le_refl _) Hu)|].
  apply walk_sym. exact (walk_to_top (Nat.le_refl _) Hv).
Qed.

(** *** Acyclic *)

Lemma chain_tail a l : chain edges (a :: l) -> chain edges l.
Proof. destruct l as [|b l]; cbn; tauto. Qed.

Lemma chain_snoc l : forall a b,
  chain edges (l ++ [a]) -> adj a b -> chain edges (l ++ [a; b]).
Proof.
  induction l as [|x l IH]; intros a b H A.
  - cbn. auto.
  - destruct l as [|y l].
    + cbn in *. tauto.
    + cbn [app] in *. cbn [chain] in *. destruct H as [Hxy H].
      split; [exact Hxy|]. exact (IH a b H A).
Qed.

Lemma chain_last l : forall a b,
  chain edges (l ++ [a; b]) -> adj a b.
Proof.
  induction l as [|x l IH]; intros a b H.
  - cbn in H. tauto.
  - apply (IH a b). exact (chain_tail _ _ H).
Qed.

(** The cycle read from its second node on. *)
Lemma cycle_rotate a l : cycle edges (a :: l) -> cycle edges (l ++ [a]).
Proof.
  intros (Hlen & Hnd & Hch). split; [|split].
  - rewrite length_app. cbn in *. lia.
  - eapply Permutation_NoDup; [apply Permutation_cons_append|exact Hnd].
  - destruct l as [|b l]; [cbn in Hlen; lia|].
    cbn [app firstn] in *.
    change ((b :: l ++ [a]) ++ [b]) with (b :: (l ++ [a]) ++ [b]).
    rewrite <- app_assoc. cbn [app].
    change (b :: l ++ [a; b]) with ((b :: l) ++ [a; b]).
    apply chain_snoc.
    + exact (chain_tail _ _ Hch).
    + cbn in Hch. tauto.
Qed.

Lemma cycle_bring_front c : forall l1 x l2,
  c = l1 ++ x :: l2 -> cycle edges c -> cycle edges (x :: l2 ++ l1).
Proof.
  intros l1. revert c. induction l1 as [|a l1 IH]; intros c x l2 -> H.
  - rewrite app_nil_r. exact H.
  - cbn in H. apply cycle_rotate in H. rewrite <- app_assoc in H. cbn in H.
    specialize (IH _ x (l2 ++ [a]) eq_refl H).
    rewrite <- app_assoc in IH. exact IH.
Qed.

(** In a cycle every node has two distinct neighbours on the cycle. *)
Lemma cycle_two_neighbours c x :
  cycle edges c -> In x c ->
  exists u w, In u c /\ In w c /\ u <> w /\ adj x u /\ adj x w.
Proof.
  intros H Hx. apply in_split in Hx. destruct Hx as (l1 & l2 & E).
  pose proof (cycle_bring_front l1 x l2 E H) as (Hlen & Hnd & Hch).
  assert (Sub : forall y, In y (l2 ++ l1) -> In y c).
  { intros y Hy. subst c. apply in_app_or in Hy. apply in_or_app.
    destruct Hy; [right; now right|now left]. }
  destruct (l2 ++ l1) as [|u r]; [cbn in Hlen; lia|].
  destruct (@exists_last _ (u :: r)) as (r' & w & Er); [discriminate|].
  destruct r' as [|u' r'].
  - cbn in Er. destruct r; [cbn in Hlen; lia|discriminate].
  - cbn in Er. injection Er as <- Er.
    exists u, w. split; [apply Sub; now left|].
    split; [apply Sub; right; rewrite Er; apply in_or_app; right; now left|].
    split.
    + intros <-. inversion Hnd as [|? ? _ Hnd']; subst.
      inversion Hnd' as [|? ? Hu _]; subst.
      apply Hu. apply in_or_app. right. now left.
    + split.
      * cbn in Hch. tauto.
      * apply adj_sym. cbn [app firstn] in Hch.
        rewrite Er in Hch. rewrite <- app_assoc in Hch.
        change (chain edges ((x :: u :: r') ++ [w; x])) in Hch.
        exact (chain_last _ _ _ Hch).
Qed.

Lemma max_rank c :
  c <> [] -> exists x, In x c /\ forall y, In y c -> rank y <= rank x.
Proof.
  induction c as [|a c IH]; intros H; [contradiction|].
  destruct c as [|b c].
  - exists a. split; [now left|]. intros y [<-|[]]. lia.
  - destruct IH as (x & Hx & Hmax); [discriminate|].
    destruct (le_lt_dec (rank x) (rank a)) as [L|L].
    + exists a. split; [now left|]. intros y [<-|Hy]; [lia|].
      specialize (Hmax y Hy). lia.
    + exists x. split; [now right|]. intros y [<-|Hy]; [lia|].
      exact (Hmax y Hy).
Qed.

Lemma cert_acyclic : acyclic edges.
Proof.
  intros c H.
  destruct (max_rank (c := c)) as (x & Hx & Hmax).
  { intros ->. destruct H as (Hlen & _). cbn in Hlen. lia. }
  destruct (@cycle_two_neighbours c x H Hx)
    as (u & w & Hu & Hw & Huw & Au & Aw).
  apply Huw.
  destruct (adj_nodes Au) as (_ & _ & [Ru|Ru]);
    [|specialize (Hmax u Hu); lia].
  destruct (adj_nodes Aw) as (_ & _ & [Rw|Rw]);
    [|specialize (Hmax w Hw); lia].
  exact (parent_unique Au Aw Ru Rw).
Qed.

End Ranked.

(** *** Soundness of the certificate *)

Lemma in_combine_seq (A : Type) (d : A) (l : list A) : forall a j s,
  In (j, s) (combine (seq a (List.length l)) l) <->
  (a <= j < a + List.length l /\ s = nth (j - a) l d).
Proof.
  induction l as [|x l IH]; intros a j s; cbn [List.length seq combine].
  - cbn. split; [tauto|lia].
  - cbn [In]. rewrite IH. split.
    + intros [E|[Hj ->]].
      * injection E as <- <-. rewrite Nat.sub_diag. cbn. split; [lia|auto].
      * split; [lia|]. replace (j - a) with (S (j - S a)) by lia. reflexivity.
    + intros [Hj ->]. destruct (Nat.eq_dec j a) as [->|Hne].
      * left. rewrite Nat.sub_diag. reflexivity.
      * right. split; [lia|].
        replace (j - a) with (S (j - S a)) by lia. reflexivity.
Qed.

Lemma NoDup_map_inj (A B : Type) (f : A -> B) (l : list A) :
  (forall x y, f x = f y -> x = y) -> NoDup l -> NoDup (map f l).
Proof.
  intros Hf. induction 1 as [|a l Ha _ IH]; cbn; constructor; [|exact IH].
  intros Hin. apply in_map_iff in Hin. destruct Hin as (x & E & Hx).
  apply Hf in E. subst. contradiction.
Qed.

Definition edges_from (a : nat) (sc : list (list nat)) : list (node * node) :=
  flat_map (fun js : nat * list nat =>
              map (fun v => (FacN (fst js), VarN v)) (snd js))
           (combine (seq a (List.length sc)) sc).

Lemma in_edges_from sc a e :
  In e (edges_from a sc) <->
  exists j v, e = (FacN j, VarN v) /\ a <= j < a + List.length sc /\
              In v (nth (j - a) sc []).
Proof.
  unfold edges_from. rewrite in_flat_map. split.
  - intros ([j s] & Hjs & He). cbn in He.
    apply (in_combine_seq []) in Hjs. destruct Hjs as [Hj ->].
    apply in_map_iff in He. destruct He as (v & <- & Hv).
    exists j, v. auto.
  - intros (j & v & -> & Hj & Hv).
    exists (j, nth (j - a) sc []). split.
    + apply (in_combine_seq []). auto.
    + cbn. apply in_map_iff. exists v. auto.
Qed.

Lemma in_scope_edges sc e :
  In e (scope_edges sc) <->
  exists j v, e = (FacN j, VarN v) /\ j < List.length sc /\
              In v (nth j sc []).
Proof.
  change (scope_edges sc) with (edges_from 0 sc). rewrite in_edges_from.
  split; intros (j & v & E & Hj & Hv); exists j, v;
    rewrite Nat.sub_0_r in *; repeat split; try assumption; lia.
Qed.

Lemma edges_from_NoDup sc : forall a,
  Forall (@NoDup nat) sc -> NoDup (edges_from a sc).
Proof.
  induction sc as [|s sc IH]; intros a H; [constructor|].
  inversion H as [|? ? Hs Hsc]; subst.
  change (edges_from a (s :: sc))
    with (map (fun v => (FacN a, VarN v)) s ++ edges_from (S a) sc).
  apply NoDup_app.
  - apply NoDup_map_inj; [|exact Hs].
    intros x y E. now injection E.
  - apply IH, Hsc.
  - intros e He Hin. apply in_map_iff in He. destruct He as (v & <- & _).
    apply in_edges_from in Hin. destruct Hin as (j & w & E & Hj & _).
    injection E as -> _. lia.
Qed.

Section CertificateFacts.

Variable nv : nat.
Variable sc : list (list nat).
Variable top : nat.
Variable rank : node -> nat.
Variable parent : node -> node.
Hypothesis certified : tree_cert nv sc top rank parent = true.

Local Abbreviation nodes :=
  (map VarN (seq 0 nv) ++ map FacN (seq 0 (List.length sc))).
Local Abbreviation edges := (scope_edges sc).
Local Abbreviation adj := (adjacent edges).

Lemma var_node v : In (VarN v) nodes <-> v < nv.
Proof.
  rewrite in_app_iff, !in_map_iff. split.
  - intros [(x & E & Hx)|(x & E & _)]; [|discriminate].
    injection E as ->. apply in_seq in Hx. lia.
  - intros H. left. exists v. split; [reflexivity|apply in_seq; lia].
Qed.

Lemma fac_node j : In (FacN j) nodes <-> j < List.length sc.
Proof.
  rewrite in_app_iff, !in_map_iff. split.
  - intros [(x & E & _)|(x & E & Hx)]; [discriminate|].
    injection E as ->. apply in_seq in Hx. lia.
  - intros H. right. exists j. split; [reflexivity|apply in_seq; lia].
Qed.

Lemma cert_top : top < nv /\ rank (VarN top) = 0.
Proof.
  unfold tree_cert in certified.
  repeat (apply andb_prop in certified; destruct certified as [certified ?]).
  split; [now apply Nat.ltb_lt|now apply Nat.eqb_eq].
Qed.

Lemma cert_scope j :
  j < List.length sc ->
  NoDup (nth j sc []) /\
  forall v, In v (nth j sc []) -> v < nv /\ edge_ok rank parent j v = true.
Proof.
  intros Hj. unfold tree_cert in certified.
  apply andb_prop in certified. destruct certified as [C _].
  apply andb_prop in C. destruct C as [C _].
  apply andb_prop in C. destruct C as [_ C].
  rewrite forallb_forall in C.
  specialize (C (j, nth j sc [])). cbn [fst snd] in C.
  assert (I : In (j, nth j sc []) (combine (seq 0 (List.length sc)) sc)).
  { apply (in_combine_seq []). rewrite Nat.sub_0_r. split; [lia|reflexivity]. }
  specialize (C I). apply andb_prop in C. destruct C as [C1 C2]. split.
  - exact (nodupb_sound Nat.eqb Nat.eqb_eq _ C1).
  - intros v Hv. rewrite forallb_forall in C2. specialize (C2 v Hv).
    apply andb_prop in C2. destruct C2 as [C2 C3].
    split; [now apply Nat.ltb_lt|exact C3].
Qed.

Lemma cert_factor j : j < List.length sc -> factor_ok sc rank parent j = true.
Proof.
  intros Hj. unfold tree_cert in certified.
  apply andb_prop in certified. destruct certified as [C _].
  apply andb_prop in C. destruct C as [_ C].
  rewrite forallb_forall in C. apply C, in_seq. lia.
Qed.

Lemma cert_variable v : v < nv -> variable_ok sc top rank parent v = true.
Proof.
  intros Hv. unfold tree_cert in certified.
  apply andb_prop in certified. destruct certified as [_ C].
  rewrite forallb_forall in C. apply C, in_seq. lia.
Qed.

Lemma parent_of_spec child p :
  parent_of rank parent child p = true ->
  parent child = p /\ rank child = S (rank p).
Proof.
  unfold parent_of. intros H. apply andb_prop in H. destruct H as [H1 H2].
  split; [now apply node_eqb_eq|now apply Nat.eqb_eq].
Qed.

Lemma cert_edge j v :
  In (FacN j, VarN v) edges ->
  j < List.length sc /\ v < nv /\
  ((parent (FacN j) = VarN v /\ rank (FacN j) = S (rank (VarN v))) \/
   (parent (VarN v) = FacN j /\ rank (VarN v) = S (rank (FacN j)))).
Proof.
  intros H. apply in_scope_edges in H.
  destruct H as (j' & v' & E & Hj & Hv). injection E as <- <-.
  destruct (cert_scope Hj) as [_ C]. destruct (C v Hv) as [Hlt Hok].
  split; [exact Hj|]. split; [exact Hlt|].
  unfold edge_ok in Hok. apply orb_prop in Hok.
  destruct Hok as [H|H]; apply parent_of_spec in H; auto.
Qed.

Lemma edge_shape e :
  In e edges -> exists j v, e = (FacN j, VarN v).
Proof.
  intros H. apply in_scope_edges in H.
  destruct H as (j & v & E & _). eauto.
Qed.

Lemma cert_adj_nodes u v :
  adj u v ->
  In u nodes /\ In v nodes /\ (rank u = S (rank v) \/ rank v = S (rank u)).
Proof.
  intros [H|H]; destruct (edge_shape _ H) as (j & w & E); injection E as -> ->;
    destruct (cert_edge _ _ H) as (Hj & Hw & [[_ R]|[_ R]]);
    rewrite fac_node, var_node; auto.
Qed.

(** The neighbour of the rank below is the parent. *)
Lemma adj_parent n p : adj n p -> rank n = S (rank p) -> parent n = p.
Proof.
  intros [H|H] R; destruct (edge_shape _ H) as (j & w & E);
    injection E as -> ->;
    destruct (cert_edge _ _ H) as (_ & _ & [[P R']|[P R']]);
    try exact P; lia.
Qed.

Lemma cert_parent_unique n p q :
  adj n p -> adj n q -> rank n = S (rank p) -> rank n = S (rank q) -> p = q.
Proof.
  intros Hp Hq Rp Rq.
  rewrite <- (adj_parent Hp Rp). exact (adj_parent Hq Rq).
Qed.

Lemma cert_parent_exists n :
  In n nodes -> n <> VarN top ->
  exists p, adj n p /\ rank n = S (rank p).
Proof.
  intros Hn Hne. destruct n as [v|j].
  - apply var_node in Hn. pose proof (cert_variable Hn) as C.
    unfold variable_ok in C. apply orb_prop in C. destruct C as [C|C].
    + apply Nat.eqb_eq in C. subst. contradiction.
    + destruct (parent (VarN v)) as [|j]; [discriminate|].
      apply andb_prop in C. destruct C as [C R].
      apply andb_prop in C. destruct C as [Hj Hv].
      apply Nat.ltb_lt in Hj. apply Nat.eqb_eq in R.
      apply existsb_exists in Hv. destruct Hv as (w & Hw & E).
      apply Nat.eqb_eq in E. subst w.
      exists (FacN j). split; [|exact R].
      right. apply in_scope_edges. exists j, v. auto.
  - apply fac_node in Hn. pose proof (cert_factor Hn) as C.
    unfold factor_ok in C.
    destruct (parent (FacN j)) as [p|]; [|discriminate].
    apply andb_prop in C. destruct C as [Hp R].
    apply Nat.eqb_eq in R.
    apply existsb_exists in Hp. destruct Hp as (w & Hw & E).
    apply Nat.eqb_eq in E. subst w.
    exists (VarN p). split; [|exact R].
    left. apply in_scope_edges. exists j, p. auto.
Qed.

Lemma cert_is_tree : is_tree nodes edges (VarN top).
Proof.
  assert (Htop : In (VarN top) nodes) by (apply var_node, cert_top).
  split; [exact Htop|]. split; [|split; [|split; [|split]]].
  - apply NoDup_app.
    + apply NoDup_map_inj; [|apply seq_NoDup].
      intros x y E. now injection E.
    + apply NoDup_map_inj; [|apply seq_NoDup].
      intros x y E. now injection E.
    + intros n Hn Hf. apply in_map_iff in Hn, Hf.
      destruct Hn as (x & <- & _). destruct Hf as (y & E & _). discriminate.
  - change (scope_edges sc) with (edges_from 0 sc). apply edges_from_NoDup.
    apply Forall_forall. intros s Hs.
    destruct (In_nth _ _ [] Hs) as (j & Hj & <-).
    exact (proj1 (cert_scope Hj)).
  - intros e He. destruct (edge_shape _ He) as (j & v & ->).
    destruct (cert_edge _ _ He) as (Hj & Hv & _). cbn [fst snd].
    rewrite fac_node, var_node. auto.
  - exact (@cert_connected nodes edges (VarN top) rank
             cert_adj_nodes cert_parent_exists).
  - exact (@cert_acyclic nodes edges rank
             cert_adj_nodes cert_parent_unique).
Qed.

End CertificateFacts.

Lemma example_graph_tree X T :
  is_tree (graph_nodes (example_model X T)) (graph_edges (example_model X T))
          (VarN ex_VT).
Proof.
  unfold graph_nodes, graph_edges.
  rewrite factors_length, !example_scopes_eq.
  cbn [variables example_model].
  apply cert_is_tree with (rank := example_rank) (parent := example_parent).
  vm_compute. reflexivity.
Qed.

Lemma shallow_graph_tree X T :
  is_tree (graph_nodes (shallow_model X T)) (graph_edges (shallow_model X T))
          (VarN sh_VT).
Proof.
  unfold graph_nodes, graph_edges.
  rewrite factors_length, !shallow_scopes_eq.
  cbn [variables shallow_model].
  apply cert_is_tree with (rank := shallow_rank) (parent := shallow_parent).
  vm_compute. reflexivity.
Qed.

Lemma hier_graph_tree X T Z :
  is_tree (graph_nodes (hier_model X T Z)) (graph_edges (hier_model X T Z))
          (VarN h_VT).
Proof.
  unfold graph_nodes, graph_edges.
  rewrite factors_length, !hier_scopes_eq.
  cbn [variables hier_model].
  apply cert_is_tree with (rank := hier_rank) (parent := hier_parent).
  vm_compute. reflexivity.
Qed.

(** C5: for each of the three models the bipartite graph of its variable
    and factor nodes, with an edge between a factor and each variable in
    its variable list, is a simple graph that is connected and has no
    cycle, and [VT] is one of its nodes. *)
Theorem model_graphs_are_trees :
  forall (X : list image) (T : list nat) (Z : list (list nat)),
    is_tree (graph_nodes (example_model X T))
            (graph_edges (example_model X T)) (VarN ex_VT) /\
    is_tree (graph_nodes (shallow_model X T))
            (graph_edges (shallow_model X T)) (VarN sh_VT) /\
    is_tree (graph_nodes (hier_model X T Z))
            (graph_edges (hier_model X T Z)) (VarN h_VT).
Proof.
  intros X T Z. split; [|split].
  - apply example_graph_tree.
  - apply shallow_graph_tree.
  - apply hier_graph_tree.
Qed.

(** ** Sums and products of reals *)

Lemma Rsum_ext (A : Type) (l : list A) (f g : A -> R) :
  (forall a, In a l -> f a = g a) -> Rsum l f = Rsum l g.
Proof.
  induction l as [|a l IH]; intros H; cbn; [reflexivity|].
  rewrite (H a) by now left. rewrite IH; [reflexivity|].
  intros b Hb. apply H. now right.
Qed.

Lemma Rsum_scale (A : Type) (l : list A) (f : A -> R) (c : R) :
  Rsum l (fun a => (c * f a)%R) = (c * Rsum l f)%R.
Proof. induction l as [|a l IH]; cbn; [ring|rewrite IH; ring]. Qed.

Lemma Rsum_swap (A B : Type) (l1 : list A) (l2 : list B) (f : A -> B -> R) :
  Rsum l1 (fun a => Rsum l2 (fun b => f a b))
  = Rsum l2 (fun b => Rsum l1 (fun a => f a b)).
Proof.
  induction l1 as [|a l1 IH]; cbn.
  - induction l2 as [|b l2 IH2]; cbn; [reflexivity|rewrite <- IH2; ring].
  - rewrite IH. clear IH.
    induction l2 as [|b l2 IH2]; cbn; [ring|]. rewrite <- IH2. ring.
Qed.

Lemma Rsum_pos (A : Type) (l : list A) (f : A -> R) :
  l <> [] -> (forall a, In a l -> (0 < f a)%R) -> (0 < Rsum l f)%R.
Proof.
  induction l as [|a l IH]; intros Hne H; [contradiction|].
  cbn. destruct l as [|b l].
  - cbn. specialize (H a (or_introl eq_refl)). lra.
  - assert (0 < Rsum (b :: l) f)%R.
    { apply IH; [discriminate|]. intros x Hx. apply H. now right. }
    specialize (H a (or_introl eq_refl)). lra.
Qed.

Lemma Rprod_app l1 l2 : Rprod (l1 ++ l2) = (Rprod l1 * Rprod l2)%R.
Proof. induction l1 as [|a l1 IH]; cbn; [ring|rewrite IH; ring]. Qed.

Lemma Rprod_perm l1 l2 : Permutation l1 l2 -> Rprod l1 = Rprod l2.
Proof.
  induction 1; cbn; try ring.
  - rewrite IHPermutation. reflexivity.
  - congruence.
Qed.

Lemma Rprod_pos l : Forall (fun x => (0 < x)%R) l -> (0 < Rprod l)%R.
Proof.
  induction 1 as [|x l Hx _ IH]; cbn; [lra|].
  now apply Rmult_lt_0_compat.
Qed.

(** ** Sums over configurations *)

Section Configurations.

Variable m : model.
Variable st : store.

Local Abbreviation sum_cfg := (sum_cfg m st).

(** [c] is [c0] except on the variables [vs]. *)
Definition outside (vs : list nat) (c c0 : nat -> nat) : Prop :=
  forall u, ~ In u vs -> c u = c0 u.

Lemma outside_refl vs c : outside vs c c.
Proof. intros u _. reflexivity. Qed.

Lemma outside_upd vs c c0 v s :
  outside vs c (upd c0 v s) -> outside (v :: vs) c c0.
Proof.
  intros H u Hu. rewrite H by (intros I; apply Hu; now right).
  unfold upd. destruct (Nat.eqb_spec u v) as [->|_]; [|reflexivity].
  exfalso. apply Hu. now left.
Qed.

Lemma sum_cfg_ext vs : forall k k' c0,
  (forall c, outside vs c c0 -> k c = k' c) ->
  sum_cfg vs k c0 = sum_cfg vs k' c0.
Proof.
  induction vs as [|v vs IH]; intros k k' c0 H; cbn.
  - apply H, outside_refl.
  - apply Rsum_ext. intros s _. apply IH.
    intros c Hc. apply H. exact (outside_upd Hc).
Qed.

Lemma sum_cfg_scale vs : forall k a c0,
  sum_cfg vs (fun c => (a * k c)%R) c0 = (a * sum_cfg vs k c0)%R.
Proof.
  induction vs as [|v vs IH]; intros k a c0; cbn; [reflexivity|].
  rewrite <- Rsum_scale. apply Rsum_ext. intros s _. apply IH.
Qed.

Lemma sum_cfg_app vs1 : forall vs2 k c0,
  sum_cfg (vs1 ++ vs2) k c0 = sum_cfg vs1 (fun c => sum_cfg vs2 k c) c0.
Proof.
  induction vs1 as [|v vs1 IH]; intros vs2 k c0; cbn; [reflexivity|].
  apply Rsum_ext. intros s _. apply IH.
Qed.

Lemma upd_swap c u v s t :
  u <> v -> upd (upd c u s) v t = upd (upd c v t) u s.
Proof.
  intros H. apply functional_extensionality. intros x. unfold upd.
  destruct (Nat.eqb_spec x v), (Nat.eqb_spec x u); congruence.
Qed.

Lemma sum_cfg_perm vs vs' :
  Permutation vs vs' -> NoDup vs ->
  forall k c0, sum_cfg vs k c0 = sum_cfg vs' k c0.
Proof.
  induction 1 as [|v vs vs' _ IH|u v vs|vs1 vs2 vs3 P1 IH1 P2 IH2];
    intros ND k c0.
  - reflexivity.
  - cbn. apply Rsum_ext. intros s _. apply IH. now inversion ND.
  - cbn. rewrite Rsum_swap. apply Rsum_ext. intros s _.
    apply Rsum_ext. intros t _. rewrite upd_swap; [reflexivity|].
    inversion ND as [|? ? Hn _]; subst. intros ->. apply Hn. now left.
  - rewrite IH1 by exact ND. apply IH2.
    exact (Permutation_NoDup P1 ND).
Qed.

End Configurations.

(** ** Induction on collection orders *)

Definition below (P : Tree -> Prop) (ic : nat * option Tree) : Prop :=
  match snd ic with
  | None => True
  | Some c => P c
  end.

Fixpoint Tree_induct (P : Tree -> Prop)
         (step : forall v fs, Forall (below P) fs -> P (Node v fs))
         (t : Tree) {struct t} : P t :=
  match t with
  | Node v fs =>
      step v fs
        ((fix go (l : list (nat * option Tree)) : Forall (below P) l :=
            match l with
            | [] => Forall_nil _
            | ic :: r =>
                Forall_cons ic
                  (match ic as p return below P p with
                   | (i, None) => I
                   | (i, Some c) => Tree_induct step c
                   end)
                  (go r)
            end) fs)
  end.

Definition forest_vars (fs : list (nat * option Tree)) : list nat :=
  flat_map (fun ic : nat * option Tree =>
              match snd ic with
              | None => []
              | Some c => tree_vars c
              end) fs.

Definition forest_facs (fs : list (nat * option Tree)) : list nat :=
  flat_map (fun ic : nat * option Tree =>
              fst ic :: match snd ic with
                        | None => []
                        | Some c => tree_facs c
                        end) fs.

Definition forest_scoped (sc : list (list nat)) (v : nat)
           (fs : list (nat * option Tree)) : bool :=
  forallb (fun ic : nat * option Tree =>
             match snd ic with
             | None => list_eqb (nth (fst ic) sc []) [v]
             | Some c =>
                 list_eqb (nth (fst ic) sc []) [v; root c] &&
                 well_scoped sc c
             end) fs.

Lemma tree_vars_node v fs : tree_vars (Node v fs) = v :: forest_vars fs.
Proof. reflexivity. Qed.

Lemma tree_facs_node v fs : tree_facs (Node v fs) = forest_facs fs.
Proof. reflexivity. Qed.

Lemma well_scoped_node sc v fs :
  well_scoped sc (Node v fs) = forest_scoped sc v fs.
Proof. reflexivity. Qed.

Lemma root_in_vars t : In (root t) (tree_vars t).
Proof. destruct t as [v fs]. now left. Qed.

Lemma list_eqb_eq a : forall b, list_eqb a b = true -> a = b.
Proof.
  induction a as [|x a IH]; intros [|y b] H; cbn in H;
    try discriminate; [reflexivity|].
  apply andb_prop in H. destruct H as [H1 H2].
  apply Nat.eqb_eq in H1. subst. f_equal. now apply IH.
Qed.

Lemma NoDup_app_inv (A : Type) (l1 l2 : list A) :
  NoDup (l1 ++ l2) ->
  NoDup l1 /\ NoDup l2 /\ (forall a, In a l1 -> ~ In a l2).
Proof.
  intros H. split; [exact (NoDup_app_remove_r _ _ H)|].
  split; [exact (NoDup_app_remove_l _ _ H)|].
  induction l1 as [|b l1 IH]; intros a Ha; [destruct Ha|].
  cbn in H. inversion H as [|? ? Hb H']; subst.
  destruct Ha as [->|Ha].
  - intros I. apply Hb, in_or_app. now right.
  - now apply IH.
Qed.

(** ** Sum-product on a collection order *)

Section SumProductFacts.

Variable m : model.
Variable st : store.

Local Abbreviation sum_cfg := (sum_cfg m st).
Local Abbreviation message := (message m st).
Local Abbreviation factor_message := (factor_message m st).

(** The potential of factor [i] at a configuration, and the product over
    a list of factors. *)
Definition weight (c : nat -> nat) (i : nat) : R :=
  potential (fac_at m i) (map c (fvars (fac_at m i))).

Definition weights (facs : list nat) (c : nat -> nat) : R :=
  Rprod (map (weight c) facs).

Lemma scope_at i : nth i (scopes m) [] = fvars (fac_at m i).
Proof.
  unfold scopes, fac_at. change (@nil nat) with (fvars no_fac).
  apply map_nth.
Qed.

Lemma weights_cons i facs c :
  weights (i :: facs) c = (weight c i * weights facs c)%R.
Proof. reflexivity. Qed.

Lemma weights_app f1 f2 c :
  weights (f1 ++ f2) c = (weights f1 c * weights f2 c)%R.
Proof. unfold weights. rewrite map_app. apply Rprod_app. Qed.

Lemma message_node v fs s :
  message (Node v fs) s = Rprod (map (fun ic => factor_message ic s) fs).
Proof. reflexivity. Qed.

Lemma weight_unary i v c :
  nth i (scopes m) [] = [v] -> weight c i = potential (fac_at m i) [c v].
Proof. intros H. unfold weight. rewrite <- scope_at, H. reflexivity. Qed.

Lemma weight_pair i v u c :
  nth i (scopes m) [] = [v; u] ->
  weight c i = potential (fac_at m i) [c v; c u].
Proof. intros H. unfold weight. rewrite <- scope_at, H. reflexivity. Qed.

(** The factors of a subtree read the configuration on its variables
    only. *)
Lemma weights_agree_forest fs : forall v c c',
  Forall (below (fun t =>
            well_scoped (scopes m) t = true ->
            forall c c', (forall x, In x (tree_vars t) -> c x = c' x) ->
                         weights (tree_facs t) c = weights (tree_facs t) c'))
         fs ->
  forest_scoped (scopes m) v fs = true ->
  c v = c' v -> (forall x, In x (forest_vars fs) -> c x = c' x) ->
  weights (forest_facs fs) c = weights (forest_facs fs) c'.
Proof.
  induction fs as [|[i [t|]] r IH]; intros v c c' HF Hsc Hv Hx.
  - reflexivity.
  - inversion HF as [|? ? Ht Hr]; subst. cbn in Ht.
    cbn in Hsc. apply andb_prop in Hsc. destruct Hsc as [Hi Hsc].
    apply andb_prop in Hi. destruct Hi as [Hi Ht'].
    apply list_eqb_eq in Hi.
    cbn [forest_facs flat_map fst snd].
    change (weights (i :: tree_facs t ++ forest_facs r) c
            = weights (i :: tree_facs t ++ forest_facs r) c').
    rewrite !weights_cons, !weights_app.
    rewrite (@weight_pair i v (root t) c Hi), (@weight_pair i v (root t) c' Hi), Hv.
    rewrite (Hx (root t))
      by (cbn; apply in_or_app; left; apply root_in_vars).
    rewrite (Ht Ht' c c')
      by (intros x Hin; apply Hx; cbn; apply in_or_app; now left).
    rewrite (IH v c c' Hr Hsc Hv)
      by (intros x Hin; apply Hx; cbn; apply in_or_app; now right).
    reflexivity.
  - inversion HF as [|? ? _ Hr]; subst.
    cbn in Hsc. apply andb_prop in Hsc. destruct Hsc as [Hi Hsc].
    apply list_eqb_eq in Hi.
    cbn [forest_facs flat_map fst snd app].
    change (weights (i :: forest_facs r) c = weights (i :: forest_facs r) c').
    rewrite !weights_cons.
    rewrite (@weight_unary i v c Hi), (@weight_unary i v c' Hi), Hv.
    rewrite (IH v c c' Hr Hsc Hv) by (intros x Hin; apply Hx; exact Hin).
    reflexivity.
Qed.

Lemma weights_agree t :
  well_scoped (scopes m) t = true ->
  forall c c', (forall x, In x (tree_vars t) -> c x = c' x) ->
               weights (tree_facs t) c = weights (tree_facs t) c'.
Proof.
  induction t as [v fs IH] using Tree_induct. intros Hsc c c' H.
  rewrite tree_facs_node. rewrite well_scoped_node in Hsc.
  apply (@weights_agree_forest fs v c c' IH Hsc).
  - apply H. now left.
  - intros x Hx. apply H. rewrite tree_vars_node. now right.
Qed.

Lemma tree_vars_split t : tree_vars t = root t :: tl (tree_vars t).
Proof. destruct t. reflexivity. Qed.

Lemma factor_message_unary i s :
  factor_message (i, None) s = potential (fac_at m i) [s].
Proof. reflexivity. Qed.

Lemma factor_message_pair i t s :
  factor_message (i, Some t) s
  = Rsum (states m st (root t))
         (fun s' => (potential (fac_at m i) [s; s'] * message t s')%R).
Proof. reflexivity. Qed.

(** Summing the factors of a subtree over all configurations of its
    variables gives the message the subtree sends. *)
Definition exact_below (t : Tree) : Prop :=
  well_scoped (scopes m) t = true -> NoDup (tree_vars t) ->
  forall c, sum_cfg (tl (tree_vars t)) (weights (tree_facs t)) c
            = message t (c (root t)).

Lemma sum_product_forest fs : forall v c0,
  Forall (below exact_below) fs ->
  forest_scoped (scopes m) v fs = true ->
  NoDup (v :: forest_vars fs) ->
  sum_cfg (forest_vars fs) (weights (forest_facs fs)) c0
  = Rprod (map (fun ic => factor_message ic (c0 v)) fs).
Proof.
  induction fs as [|[i [t|]] r IH]; intros v c0 HF Hsc ND.
  - reflexivity.
  - (* a factor with a subtree behind it *)
    inversion HF as [|? ? Ht Hr]; subst. cbn in Ht.
    cbn in Hsc. apply andb_prop in Hsc. destruct Hsc as [Hi Hsc].
    apply andb_prop in Hi. destruct Hi as [Hi Ht'].
    apply list_eqb_eq in Hi.
    change (forest_vars ((i, Some t) :: r))
      with (tree_vars t ++ forest_vars r) in *.
    change (forest_facs ((i, Some t) :: r))
      with (i :: tree_facs t ++ forest_facs r).
    inversion ND as [|? ? Hv ND']; subst.
    apply NoDup_app_inv in ND'. destruct ND' as (NDt & NDr & Hdisj).
    assert (Hvt : ~ In v (tree_vars t))
      by (intros I; apply Hv, in_or_app; now left).
    assert (Hvr : ~ In v (forest_vars r))
      by (intros I; apply Hv, in_or_app; now right).
    assert (NDr' : NoDup (v :: forest_vars r)) by (constructor; assumption).
    set (u := root t) in *.
    assert (Hut : ~ In u (tl (tree_vars t))).
    { rewrite (tree_vars_split t) in NDt. now inversion NDt. }
    assert (Hur : ~ In u (forest_vars r)).
    { apply Hdisj. apply root_in_vars. }
    assert (Hvu : v <> u).
    { intros ->. apply Hvt, root_in_vars. }
    set (Pr := Rprod (map (fun ic => factor_message ic (c0 v)) r)).
    cbn [map Rprod]. rewrite factor_message_pair. fold u. fold Pr.
    rewrite (tree_vars_split t). fold u. cbn [app].
    cbn [Graphical.sum_cfg].
    transitivity
      (Rsum (states m st u)
            (fun s => (Pr * (potential (fac_at m i) [c0 v; s]
                             * message t s))%R)).
    2:{ rewrite Rsum_scale. ring. }
    apply Rsum_ext. intros s _.
    rewrite sum_cfg_app.
    transitivity
      (sum_cfg (tl (tree_vars t))
               (fun c1 => ((Pr * potential (fac_at m i) [c0 v; s])
                           * weights (tree_facs t) c1)%R)
               (upd c0 u s)).
    + apply sum_cfg_ext. intros c1 Hc1.
      assert (E1v : c1 v = c0 v).
      { rewrite Hc1.
        - unfold upd. destruct (Nat.eqb_spec v u); [contradiction|reflexivity].
        - intros I. apply Hvt. rewrite (tree_vars_split t). now right. }
      assert (E1u : c1 u = s).
      { rewrite Hc1 by exact Hut. unfold upd. now rewrite Nat.eqb_refl. }
      transitivity
        (sum_cfg (forest_vars r)
                 (fun c => ((weight c1 i * weights (tree_facs t) c1)
                            * weights (forest_facs r) c)%R)
                 c1).
      * apply sum_cfg_ext. intros c Hc.
        rewrite weights_cons, weights_app.
        rewrite (@weight_pair i v u c Hi), (@weight_pair i v u c1 Hi).
        rewrite (Hc v Hvr), (Hc u Hur).
        rewrite (@weights_agree t Ht' c c1)
          by (intros x Hx; apply Hc; intros I; exact (Hdisj x Hx I)).
        ring.
      * rewrite sum_cfg_scale.
        rewrite (IH v c1 Hr Hsc NDr').
        rewrite (@weight_pair i v u c1 Hi), E1v, E1u. fold Pr. ring.
    + rewrite sum_cfg_scale.
      rewrite (Ht Ht' NDt (upd c0 u s)). fold u.
      unfold upd at 1. rewrite Nat.eqb_refl. ring.
  - (* a factor of one variable *)
    inversion HF as [|? ? _ Hr]; subst.
    cbn in Hsc. apply andb_prop in Hsc. destruct Hsc as [Hi Hsc].
    apply list_eqb_eq in Hi.
    change (forest_vars ((i, None) :: r)) with (forest_vars r) in *.
    change (forest_facs ((i, None) :: r)) with (i :: forest_facs r).
    inversion ND as [|? ? Hv _]; subst.
    cbn [map]. rewrite factor_message_unary. cbn [Rprod].
    rewrite <- (IH v c0 Hr Hsc ND).
    rewrite <- sum_cfg_scale.
    apply sum_cfg_ext. intros c Hc.
    rewrite weights_cons, (@weight_unary i v c Hi), (Hc v Hv). reflexivity.
Qed.

Lemma sum_product_tree t : exact_below t.
Proof.
  induction t as [v fs IH] using Tree_induct. intros Hsc ND c.
  rewrite message_node. cbn [root].
  rewrite tree_vars_node in *. rewrite tree_facs_node.
  rewrite well_scoped_node in Hsc. cbn [tl].
  exact (@sum_product_forest fs v c IH Hsc ND).
Qed.

End SumProductFacts.

(** ** From the collection order to the model *)

Lemma map_nth_seq (A B : Type) (g : A -> B) (d : A) (l : list A) :
  map (fun i => g (nth i l d)) (seq 0 (List.length l)) = map g l.
Proof.
  induction l as [|a l IH]; [reflexivity|].
  cbn [List.length seq map nth]. f_equal.
  rewrite <- seq_shift, map_map. exact IH.
Qed.

Lemma enumerates_sound l n :
  enumerates l n = true ->
  NoDup l /\ NoDup (seq 0 n) /\ Permutation l (seq 0 n).
Proof.
  unfold enumerates. intros H.
  apply andb_prop in H. destruct H as [H H3].
  apply andb_prop in H. destruct H as [H1 H2].
  apply distinct_NoDup in H1. apply Nat.eqb_eq in H2.
  split; [exact H1|]. split; [apply seq_NoDup|].
  apply NoDup_Permutation_bis; [exact H1|rewrite length_seq; lia|].
  intros a Ha. rewrite forallb_forall in H3.
  apply in_seq. specialize (H3 a Ha). apply Nat.ltb_lt in H3. lia.
Qed.

Lemma filter_keep (A : Type) (p : A -> bool) (l : list A) :
  (forall a, In a l -> p a = true) -> filter p l = l.
Proof.
  induction l as [|a l IH]; intros H; cbn; [reflexivity|].
  rewrite (H a) by now left. f_equal. apply IH. intros b Hb. apply H.
  now right.
Qed.

Lemma filter_perm (A : Type) (p : A -> bool) (l1 l2 : list A) :
  Permutation l1 l2 -> Permutation (filter p l1) (filter p l2).
Proof.
  induction 1 as [|a l1 l2 _ IH|a b l|l1 l2 l3 _ IH1 _ IH2]; cbn.
  - constructor.
  - destruct (p a); [now constructor|exact IH].
  - destruct (p a), (p b); try reflexivity. apply perm_swap.
  - exact (Permutation_trans IH1 IH2).
Qed.

Section Exactness.

Variable m : model.
Variable st : store.

Lemma joint_weights c :
  joint m c = weights m (seq 0 (List.length (scopes m))) c.
Proof.
  unfold joint, weights, weight, fac_at, scopes. rewrite length_map.
  symmetry. f_equal.
  exact (map_nth_seq (fun f => potential f (map c (fvars f))) no_fac
                     (factors m)).
Qed.

Lemma covers_root v t : covers m v t = true -> root t = v.
Proof.
  unfold covers. intros H.
  repeat (apply andb_prop in H; destruct H as [H ?]).
  now apply Nat.eqb_eq.
Qed.

(** The brute-force marginal is what the collection order computes. *)
Lemma brute_is_message v t :
  covers m v t = true ->
  forall s, brute_marginal m st v s = message m st t s.
Proof.
  intros H s. pose proof (covers_root _ _ H) as Hroot.
  unfold covers in H.
  apply andb_prop in H. destruct H as [H _].
  apply andb_prop in H. destruct H as [H Hf].
  apply andb_prop in H. destruct H as [H Hv].
  apply andb_prop in H. destruct H as [_ Hsc].
  apply enumerates_sound in Hv, Hf.
  destruct Hv as (NDv & NDs & Pv). destruct Hf as (_ & _ & Pf).
  unfold brute_marginal.
  set (others := filter (fun u => negb (u =? v))
                        (seq 0 (List.length (variables m)))).
  assert (Pt : Permutation others (tl (tree_vars t))).
  { unfold others. symmetry.
    rewrite <- (filter_keep (fun u => negb (u =? v)) (tl (tree_vars t))).
    - replace (filter (fun u => negb (u =? v)) (tl (tree_vars t)))
        with (filter (fun u => negb (u =? v)) (tree_vars t)).
      + apply filter_perm, Pv.
      + rewrite (tree_vars_split t) at 1. cbn [filter].
        rewrite Hroot, Nat.eqb_refl. reflexivity.
    - intros a Ha. pose proof NDv as NDv'.
      rewrite (tree_vars_split t) in NDv'.
      apply NoDup_cons_iff in NDv'. destruct NDv' as [Hn _].
      destruct (Nat.eqb_spec a v) as [E|]; [|reflexivity].
      rewrite E, <- Hroot in Ha. contradiction. }
  assert (NDo : NoDup others) by (apply NoDup_filter, seq_NoDup).
  rewrite (sum_cfg_perm m st Pt NDo).
  rewrite (@sum_cfg_ext m st (tl (tree_vars t)) (joint m)
                        (weights m (tree_facs t)) (upd (fun _ => 0) v s)).
  - rewrite (@sum_product_tree m st t Hsc NDv).
    rewrite Hroot. unfold upd. rewrite Nat.eqb_refl. reflexivity.
  - intros c _. rewrite joint_weights. unfold weights.
    apply Rprod_perm, Permutation_map. symmetry. exact Pf.
Qed.

(** *** Messages are positive *)

Lemma potential_pos f idx : (0 < potential f idx)%R.
Proof. unfold potential. apply exp_pos. Qed.

Lemma message_pos t :
  (forall x, In x (tree_vars t) -> states m st x <> []) ->
  forall s, (0 < message m st t s)%R.
Proof.
  induction t as [v fs IH] using Tree_induct. intros Hst s.
  rewrite message_node. apply Rprod_pos, Forall_map.
  rewrite tree_vars_node in Hst.
  assert (Hfs : forall x, In x (forest_vars fs) -> states m st x <> [])
    by (intros x Hx; apply Hst; now right).
  clear Hst. induction fs as [|[i [t|]] r IHr]; constructor.
  - inversion IH as [|? ? Ht _]; subst. cbn in Ht.
    rewrite factor_message_pair. apply Rsum_pos.
    + apply Hfs. cbn. apply in_or_app. left. apply root_in_vars.
    + intros s' _. apply Rmult_lt_0_compat; [apply potential_pos|].
      apply Ht. intros x Hx. apply Hfs. cbn. apply in_or_app. now left.
  - inversion IH; subst. apply IHr; [assumption|].
    intros x Hx. apply Hfs. cbn. apply in_or_app. now right.
  - rewrite factor_message_unary. apply potential_pos.
  - inversion IH; subst. apply IHr; [assumption|].
    intros x Hx. apply Hfs. exact Hx.
Qed.

Lemma covers_states v t :
  covers m v t = true ->
  forall x, In x (tree_vars t) -> states m st x <> [].
Proof.
  intros H x Hx. unfold covers in H.
  apply andb_prop in H. destruct H as [H Hpos].
  apply andb_prop in H. destruct H as [H _].
  apply andb_prop in H. destruct H as [_ Hv].
  apply enumerates_sound in Hv. destruct Hv as (_ & _ & Pv).
  assert (Hlt : x < List.length (variables m)).
  { apply (Permutation_in _ Pv) in Hx. apply in_seq in Hx. lia. }
  unfold states. destruct (st x); [discriminate|].
  rewrite forallb_forall in Hpos.
  assert (Hn : 0 < nbstates (var_at m x)).
  { apply Nat.ltb_lt, Hpos. unfold var_at. now apply nth_In. }
  destruct (nbstates (var_at m x)); [lia|discriminate].
Qed.

End Exactness.

(** ** [np.argmax] and rescaling *)

Lemma argmax_from_scale c l : forall bi b i,
  (0 < c)%R ->
  argmax_from bi (c * b) i (map (fun x => (c * x)%R) l)
  = argmax_from bi b i l.
Proof.
  induction l as [|x l IH]; intros bi b i Hc; cbn; [reflexivity|].
  destruct (Rlt_dec (c * b) (c * x)) as [H|H], (Rlt_dec b x) as [H'|H'].
  - now apply IH.
  - exfalso. apply H'. now apply Rmult_lt_reg_l in H.
  - exfalso. apply H. now apply Rmult_lt_compat_l.
  - now apply IH.
Qed.

Lemma np_argmax_scale c l :
  (0 < c)%R -> np_argmax (map (fun x => (c * x)%R) l) = np_argmax l.
Proof.
  intros Hc. destruct l as [|x l]; [reflexivity|].
  cbn. now apply argmax_from_scale.
Qed.

(** ** Exact inference from a covering collection order *)

Section Inference.

Variable m : model.
Variable st : store.
Variable v : nat.
Variable t : Tree.

Hypothesis collected : collection m v = Some t.
Hypothesis covering : covers m v t = true.

Local Abbreviation nb := (nbstates (var_at m v)).

(** The product of the messages received at state [s]. *)
Lemma received_product s :
  s < nb ->
  Rprod (map (fun msg => nth s msg 0%R) (initiateMessagePassing m st v))
  = brute_marginal m st v s.
Proof.
  intros Hs. unfold initiateMessagePassing. rewrite collected.
  rewrite map_map. rewrite (brute_is_message m st v t covering).
  destruct t as [r fs]. rewrite message_node. cbn [branches].
  f_equal. apply map_ext. intros ic.
  rewrite (nth_map_seq (factor_message m st ic) 0%R 0 Hs). reflexivity.
Qed.

Lemma beliefs_exact :
  map (fun s => Rprod (map (fun msg => nth s msg 0%R)
                           (initiateMessagePassing m st v)))
      (seq 0 nb)
  = map (brute_marginal m st v) (seq 0 nb).
Proof.
  apply map_ext_in. intros s Hs. apply received_product.
  apply in_seq in Hs. lia.
Qed.

Lemma nb_pos : 0 < nb.
Proof.
  pose proof covering as H. unfold covers in H.
  apply andb_prop in H. destruct H as [H Hpos].
  apply andb_prop in H. destruct H as [H _].
  apply andb_prop in H. destruct H as [_ Hv].
  apply enumerates_sound in Hv. destruct Hv as (_ & _ & Pv).
  assert (Hlt : v < List.length (variables m)).
  { assert (I : In v (tree_vars t))
      by (rewrite <- (covers_root m v t covering); apply root_in_vars).
    apply (Permutation_in _ Pv) in I. apply in_seq in I. lia. }
  rewrite forallb_forall in Hpos.
  apply Nat.ltb_lt, Hpos. unfold var_at. now apply nth_In.
Qed.

Lemma brute_pos s : (0 < brute_marginal m st v s)%R.
Proof.
  rewrite (brute_is_message m st v t covering).
  apply message_pos. apply (covers_states m st v t covering).
Qed.

Lemma total_pos :
  (0 < Rsum (map (brute_marginal m st v) (seq 0 nb)) (fun x => x))%R.
Proof.
  apply Rsum_pos.
  - pose proof nb_pos. destruct nb; [lia|discriminate].
  - intros a Ha. apply in_map_iff in Ha. destruct Ha as (s & <- & _).
    apply brute_pos.
Qed.

(** [computeMarginal] returns the brute-force marginal up to the positive
    factor [1 / total], and its [argmax] is that of the brute-force
    marginal. *)
Lemma marginal_exact :
  (exists c, (0 < c)%R /\
             computeMarginal m v (initiateMessagePassing m st v)
             = map (fun b => (c * b)%R)
                   (map (brute_marginal m st v) (seq 0 nb))) /\
  classify m st v = np_argmax (map (brute_marginal m st v) (seq 0 nb)).
Proof.
  set (total := Rsum (map (brute_marginal m st v) (seq 0 nb)) (fun x => x)).
  assert (E : computeMarginal m v (initiateMessagePassing m st v)
              = map (fun b => (/ total * b)%R)
                    (map (brute_marginal m st v) (seq 0 nb))).
  { unfold computeMarginal. rewrite beliefs_exact. fold total.
    apply map_ext. intros b. unfold Rdiv. ring. }
  assert (P : (0 < / total)%R) by (apply Rinv_0_lt_compat, total_pos).
  split.
  - exists (/ total)%R. split; [exact P|exact E].
  - unfold classify. rewrite E. now apply np_argmax_scale.
Qed.

End Inference.

Lemma example_collected X T :
  let m := example_model X T in
  collection m ex_VT = Some example_order /\
  covers m ex_VT example_order = true.
Proof.
  intros m. unfold covers, collection. subst m.
  rewrite example_scopes_eq.
  cbn [variables example_model].
  split; vm_compute; reflexivity.
Qed.

Lemma shallow_collected X T :
  let m := shallow_model X T in
  collection m sh_VT = Some shallow_order /\
  covers m sh_VT shallow_order = true.
Proof.
  intros m. unfold covers, collection. subst m.
  rewrite shallow_scopes_eq.
  cbn [variables shallow_model].
  split; vm_compute; reflexivity.
Qed.

Lemma hier_collected X T Z :
  let m := hier_model X T Z in
  collection m h_VT = Some hier_order /\
  covers m h_VT hier_order = true.
Proof.
  intros m. unfold covers, collection. subst m.
  rewrite hier_scopes_eq.
  cbn [variables hier_model].
  split; vm_compute; reflexivity.
Qed.

(** C1: in each of the three models, for every training set, test image
    and earlier evidence, the marginal of [VT] computed by
    [VT.initiateMessagePassing(None)] and [VT.computeMarginal()] is a
    positive multiple of the brute-force sum, over all configurations of
    the other variables that agree with the evidence, of the product of
    the exponentials of all log-tables; [predict] returns the [argmax] of
    that sum over the 10 classes. *)
Theorem predict_is_exact_argmax :
  forall (X : list image) (T : list nat) (Z : list (list nat))
         (x : image) (st : store),
    (let m := example_model X T in
     let st' := example_evidence x st in
     List.length (exact_posterior m st' ex_VT) = 10 /\
     (exists c, (0 < c)%R /\
                computeMarginal m ex_VT (initiateMessagePassing m st' ex_VT)
                = map (fun b => (c * b)%R) (exact_posterior m st' ex_VT)) /\
     fst (example_predict m x st) = np_argmax (exact_posterior m st' ex_VT)) /\
    (let m := shallow_model X T in
     let st' := shallow_evidence x st in
     List.length (exact_posterior m st' sh_VT) = 10 /\
     (exists c, (0 < c)%R /\
                computeMarginal m sh_VT (initiateMessagePassing m st' sh_VT)
                = map (fun b => (c * b)%R) (exact_posterior m st' sh_VT)) /\
     fst (shallow_predict m x st) = np_argmax (exact_posterior m st' sh_VT)) /\
    (let m := hier_model X T Z in
     let st' := hier_evidence x st in
     List.length (exact_posterior m st' h_VT) = 10 /\
     (exists c, (0 < c)%R /\
                computeMarginal m h_VT (initiateMessagePassing m st' h_VT)
                = map (fun b => (c * b)%R) (exact_posterior m st' h_VT)) /\
     fst (hier_predict m x st) = np_argmax (exact_posterior m st' h_VT)).
Proof.
  intros X T Z x st. split; [|split]; intros m st'.
  - destruct (example_collected X T) as [Hc Hv].
    destruct (@marginal_exact m st' ex_VT example_order Hc Hv) as [He Ha].
    split; [|split; [exact He|exact Ha]].
    unfold exact_posterior. rewrite length_map, length_seq. reflexivity.
  - destruct (shallow_collected X T) as [Hc Hv].
    destruct (@marginal_exact m st' sh_VT shallow_order Hc Hv) as [He Ha].
    split; [|split; [exact He|exact Ha]].
    unfold exact_posterior. rewrite length_map, length_seq. reflexivity.
  - destruct (hier_collected X T Z) as [Hc Hv].
    destruct (@marginal_exact m st' h_VT hier_order Hc Hv) as [He Ha].
    split; [|split; [exact He|exact Ha]].
    unfold exact_posterior. rewrite length_map, length_seq. reflexivity.
Qed.

(** ** Earlier calls do not matter *)

Section Sessions.

Variable m : model.
Variable VT : nat.
Variable evidence : image -> store -> store.
Variable keys : list nat.

Hypothesis keeps : forall x st u, ~ In u keys -> evidence x st u = st u.
Hypothesis overwrites :
  forall x st st' u, In u keys -> evidence x st u = evidence x st' u.

Definition predict_with (x : image) (st : store) : nat * store :=
  (classify m (evidence x st) VT, evidence x st).

Lemma session_keeps xs : forall st u,
  ~ In u keys -> session predict_with xs st u = st u.
Proof.
  induction xs as [|y xs IH]; intros st u Hu; cbn; [reflexivity|].
  unfold session in IH. rewrite IH by exact Hu. now apply keeps.
Qed.

Lemma evidence_after_sessions x xs ys st :
  evidence x (session predict_with xs st)
  = evidence x (session predict_with ys st).
Proof.
  apply functional_extensionality. intros u.
  destruct (in_dec Nat.eq_dec u keys) as [I|I].
  - now apply overwrites.
  - rewrite !keeps by exact I. rewrite !session_keeps by exact I.
    reflexivity.
Qed.

Lemma predict_after_sessions x xs ys st :
  fst (predict_with x (session predict_with xs st))
  = fst (predict_with x (session predict_with ys st)).
Proof.
  unfold predict_with at 1 3. cbn [fst].
  rewrite (evidence_after_sessions x xs ys st). reflexivity.
Qed.

End Sessions.

Lemma example_keeps x st u :
  ~ In u [ex_VX1; ex_VX2] -> example_evidence x st u = st u.
Proof.
  intros H. unfold example_evidence, set_evidence.
  destruct (Nat.eqb_spec u ex_VX2) as [->|_]; [exfalso; apply H; cbn; auto|].
  destruct (Nat.eqb_spec u ex_VX1) as [->|_]; [exfalso; apply H; cbn; auto|].
  reflexivity.
Qed.

Lemma example_overwrites x st st' u :
  In u [ex_VX1; ex_VX2] -> example_evidence x st u = example_evidence x st' u.
Proof.
  intros [<-|[<-|[]]]; reflexivity.
Qed.

Lemma shallow_keeps x st u :
  ~ In u (map sh_VX (seq 0 nbfeats)) -> shallow_evidence x st u = st u.
Proof.
  intros H. rewrite shallow_evidence_assign. apply assign_other.
  intros a Ha E. apply H. rewrite <- E. now apply in_map.
Qed.

Lemma shallow_overwrites x st st' u :
  In u (map sh_VX (seq 0 nbfeats)) ->
  shallow_evidence x st u = shallow_evidence x st' u.
Proof.
  intros H. apply in_map_iff in H. destruct H as (a & <- & Ha).
  rewrite !shallow_evidence_assign.
  rewrite !(assign_key sh_VX (fun nbf => nth nbf (ravel x) 0) _ _ a
                       shallow_keys_NoDup Ha).
  reflexivity.
Qed.

Lemma hier_keeps x st u :
  ~ In u (map (fun gn => h_VX (fst gn) (snd gn)) hier_pixels) ->
  hier_evidence x st u = st u.
Proof.
  intros H. rewrite hier_evidence_assign. apply assign_other.
  intros a Ha E. apply H. rewrite <- E.
  now apply (in_map (fun gn => h_VX (fst gn) (snd gn))).
Qed.

Lemma hier_overwrites x st st' u :
  In u (map (fun gn => h_VX (fst gn) (snd gn)) hier_pixels) ->
  hier_evidence x st u = hier_evidence x st' u.
Proof.
  intros H. apply in_map_iff in H. destruct H as (a & <- & Ha).
  rewrite !hier_evidence_assign.
  rewrite !(assign_key (fun gn => h_VX (fst gn) (snd gn))
                       (fun gn => nth (snd gn) (nth (fst gn) (xsub x) []) 0)
                       _ _ a hier_keys_NoDup Ha).
  reflexivity.
Qed.

(** C6: on a built model, the class [predict] returns for an image does
    not depend on the calls made before: after any two sessions of earlier
    [predict] calls, starting from the nodes as constructed, [predict(x)]
    returns the same class. *)
Theorem predict_ignores_earlier_calls :
  forall (X : list image) (T : list nat) (Z : list (list nat))
         (x : image) (xs ys : list image),
    (let predict := example_predict (example_model X T) in
     fst (predict x (session predict xs no_evidence))
     = fst (predict x (session predict ys no_evidence))) /\
    (let predict := shallow_predict (shallow_model X T) in
     fst (predict x (session predict xs no_evidence))
     = fst (predict x (session predict ys no_evidence))) /\
    (let predict := hier_predict (hier_model X T Z) in
     fst (predict x (session predict xs no_evidence))
     = fst (predict x (session predict ys no_evidence))).
Proof.
  intros X T Z x xs ys. split; [|split]; intros predict.
  - exact (@predict_after_sessions (example_model X T) ex_VT
             example_evidence [ex_VX1; ex_VX2]
             example_keeps example_overwrites x xs ys no_evidence).
  - exact (@predict_after_sessions (shallow_model X T) sh_VT
             shallow_evidence (map sh_VX (seq 0 nbfeats))
             shallow_keeps shallow_overwrites x xs ys no_evidence).
  - exact (@predict_after_sessions (hier_model X T Z) h_VT
             hier_evidence
             (map (fun gn => h_VX (fst gn) (snd gn)) hier_pixels)
             hier_keeps hier_overwrites x xs ys no_evidence).
Qed.

End GraphicalFacts.

(* ================================================================= *)
(** * The reports of [train]                                          *)
(* ================================================================= *)

Module TrainReportFacts.
Import Sheet14.

Section Shape.

Variables Data Lab Feat Grad Back Pred Obj LR : Type.
Variables NN SVC : Type.
Variable net : Network Data Feat Grad Back LR NN.
Variable clf : Classifier Lab Feat Grad Pred Obj SVC.
Variable data : Toy Data Lab.

Local Abbreviation world := (world Data Lab Feat Grad Back Pred Obj LR NN SVC).
Local Abbreviation event := (event Data Lab Feat Grad Back Pred Obj LR).

Lemma descent_step_calls (lr : LR) (w : world) :
  exists z j dz dx,
    w_log (snd (descent_step net clf data lr w))
    = w_log w ++ descent_calls Pred data lr z j dz dx.
Proof.
  unfold descent_step, bind, forward, optimize, gradient, backward, update.
  destruct (nn_forward net (w_nn w) (X data)) as [n1 z]; cbn.
  destruct (svc_optimize clf (w_svc w) z (Y data)) as [s1 j]; cbn.
  destruct (svc_gradient clf s1) as [s2 dz]; cbn.
  destruct (nn_backward net n1 dz) as [n2 dx]; cbn.
  exists z, j, dz, dx. unfold descent_calls.
  repeat rewrite <- app_assoc. reflexivity.
Qed.

Lemma print_error_calls (it : nat) (w : world) :
  exists z j zt jt,
    w_log (snd (print_error net clf data it w))
    = w_log w ++ print_calls Grad Back Pred LR data it z j zt jt.
Proof.
  unfold print_error, bind, forward, optimize, emit.
  destruct (nn_forward net (w_nn w) (X data)) as [n1 z]; cbn.
  destruct (svc_optimize clf (w_svc w) z (Y data)) as [s1 j]; cbn.
  destruct (nn_forward net n1 (Xtest data)) as [n2 zt]; cbn.
  destruct (svc_optimize clf s1 zt (Ytest data)) as [s2 jt]; cbn.
  exists z, j, zt, jt. unfold print_calls.
  repeat rewrite <- app_assoc. reflexivity.
Qed.

Lemma visualize_step_calls (w : world) :
  exists z j dz f dx,
    w_log (snd (visualize_step net clf data w))
    = w_log w ++ visualize_calls LR data z j dz f dx.
Proof.
  unfold visualize_step, bind, forward, optimize, gradient, predictions,
    backward, emit.
  destruct (nn_forward net (w_nn w) (Xtest data)) as [n1 z]; cbn.
  destruct (svc_optimize clf (w_svc w) z (Ytest data)) as [s1 j]; cbn.
  destruct (svc_gradient clf s1) as [s2 dz]; cbn.
  destruct (svc_predictions clf s2) as [s3 f]; cbn.
  destruct (nn_backward net n1 dz) as [n2 dx]; cbn.
  exists z, j, dz, f, dx. unfold visualize_calls.
  repeat rewrite <- app_assoc. reflexivity.
Qed.

Lemma report_calls msteps vsteps it (w : world) :
  exists l1 l2,
    w_log (snd (report net clf data msteps vsteps it w))
    = w_log w ++ l1 ++ l2 /\
    print_part data msteps it l1 /\ visualize_part data vsteps it l2.
Proof.
  unfold report, bind, print_part, visualize_part.
  assert (H1 : exists l1,
             w_log (snd ((if py_in it msteps
                          then print_error net clf data it
                          else ret tt) w)) = w_log w ++ l1 /\
             print_part data msteps it l1).
  { unfold print_part. destruct (py_in it msteps).
    - destruct (print_error_calls it w) as (z & j & zt & jt & E).
      eexists. split; [exact E|]. exists z, j, zt, jt. reflexivity.
    - exists []. cbn. rewrite app_nil_r. split; reflexivity. }
  destruct ((if py_in it msteps then print_error net clf data it
             else ret tt) w) as [[] w1].
  cbn in H1. destruct H1 as (l1 & E1 & P1).
  assert (H2 : exists l2,
             w_log (snd ((if py_in it vsteps
                          then visualize_step net clf data
                          else ret tt) w1)) = w_log w1 ++ l2 /\
             visualize_part data vsteps it l2).
  { unfold visualize_part. destruct (py_in it vsteps).
    - destruct (visualize_step_calls w1) as (z & j & dz & f & dx & E).
      eexists. split; [exact E|]. exists z, j, dz, f, dx. reflexivity.
    - exists []. cbn. rewrite app_nil_r. split; reflexivity. }
  destruct H2 as (l2 & E2 & P2).
  exists l1, l2. rewrite E2, E1, app_assoc. auto.
Qed.

Lemma iteration_calls_spec msteps vsteps lr it (w : world) :
  exists l,
    w_log (snd (iteration net clf data msteps vsteps lr it w))
    = w_log w ++ l /\
    iteration_calls data msteps vsteps lr it l.
Proof.
  unfold iteration, bind.
  destruct (descent_step_calls lr w) as (z & j & dz & dx & E1).
  destruct (descent_step net clf data lr w) as [[] w1]. cbn in E1.
  destruct (report_calls msteps vsteps it w1) as (l1 & l2 & E2 & P1 & P2).
  exists (descent_calls Pred data lr z j dz dx ++ l1 ++ l2). split.
  - rewrite E2, E1, <- app_assoc. reflexivity.
  - exists z, j, dz, dx, l1, l2. auto.
Qed.

Lemma for_each_calls msteps vsteps lr its : forall w : world,
  exists ls,
    w_log (snd (for_each its (iteration net clf data msteps vsteps lr) w))
    = w_log w ++ concat ls /\
    Forall2 (iteration_calls data msteps vsteps lr) its ls.
Proof.
  induction its as [|it its IH]; intros w.
  - exists []. cbn. rewrite app_nil_r. auto.
  - cbn [for_each]. unfold bind.
    destruct (iteration_calls_spec msteps vsteps lr it w) as (l & E1 & I1).
    destruct (iteration net clf data msteps vsteps lr it w) as [[] w1].
    cbn in E1.
    destruct (IH w1) as (ls & E2 & F).
    exists (l :: ls). cbn. split.
    + rewrite E2, E1, app_assoc. reflexivity.
    + constructor; assumption.
Qed.

Lemma train_calls nn svc msteps vsteps lr :
  exists ls,
    w_log (train net clf data nn svc msteps vsteps lr) = concat ls /\
    Forall2 (iteration_calls data msteps vsteps lr) (seq 1 100) ls.
Proof.
  unfold train, train_loop.
  destruct (for_each_calls msteps vsteps lr (seq 1 100) (World nn svc []))
    as (ls & E & F).
  exists ls. auto.
Qed.

(** *** What a log of that shape prints and calls *)

Lemma printed_app (l1 l2 : list event) :
  printed (l1 ++ l2) = printed l1 ++ printed l2.
Proof. unfold printed. apply flat_map_app. Qed.

Lemma calls_app (p : event -> bool) (l1 l2 : list event) :
  calls p (l1 ++ l2) = calls p l1 + calls p l2.
Proof. unfold calls. rewrite filter_app, length_app. reflexivity. Qed.

Lemma printed_iteration msteps vsteps lr it (l : list event) :
  iteration_calls data msteps vsteps lr it l ->
  printed l = if py_in it msteps then [it] else [].
Proof.
  intros (z & j & dz & dx & l1 & l2 & -> & P1 & P2).
  unfold print_part, visualize_part in *.
  rewrite !printed_app.
  destruct (py_in it msteps), (py_in it vsteps);
    repeat match goal with
           | H : exists _, _ |- _ => destruct H
           end; subst; reflexivity.
Qed.

Lemma printed_concat msteps vsteps lr its : forall ls : list (list event),
  Forall2 (iteration_calls data msteps vsteps lr) its ls ->
  printed (concat ls) = filter (fun it => py_in it msteps) its.
Proof.
  induction 1 as [|it l its ls H _ IH]; cbn [concat filter].
  - reflexivity.
  - rewrite printed_app, (printed_iteration H), IH.
    destruct (py_in it msteps); reflexivity.
Qed.

(** The number of calls of one kind in an iteration: [d] in the descent
    step, [m] in the [print] statement, [v] in the visualisation. *)
Definition tally (msteps vsteps : list nat) (d m v : nat) (it : nat) : nat :=
  d + (if py_in it msteps then m else 0) + (if py_in it vsteps then v else 0).

Lemma calls_iteration (p : event -> bool) (d m v : nat) msteps vsteps lr it
      (l : list event) :
  (forall z j dz dx, calls p (descent_calls Pred data lr z j dz dx) = d) ->
  (forall z j zt jt, calls p (print_calls Grad Back Pred LR data it z j zt jt) = m) ->
  (forall z j dz f dx, calls p (visualize_calls LR data z j dz f dx) = v) ->
  iteration_calls data msteps vsteps lr it l ->
  calls p l = tally msteps vsteps d m v it.
Proof.
  intros Hd Hm Hv (z & j & dz & dx & l1 & l2 & -> & P1 & P2).
  unfold print_part, visualize_part, tally in *.
  rewrite !calls_app, Hd.
  destruct (py_in it msteps), (py_in it vsteps);
    repeat match goal with
           | H : exists _, _ |- _ => destruct H
           end; subst; rewrite ?Hm, ?Hv; cbn [app]; unfold calls; cbn; lia.
Qed.

Lemma tally_sum msteps vsteps d m v its :
  list_sum (map (tally msteps vsteps d m v) its)
  = d * List.length its
    + m * List.length (filter (fun it => py_in it msteps) its)
    + v * List.length (filter (fun it => py_in it vsteps) its).
Proof.
  induction its as [|it its IH].
  - cbn. lia.
  - cbn [map filter].
    change (list_sum (?a :: ?l)) with (a + list_sum l).
    rewrite IH. unfold tally.
    destruct (py_in it msteps), (py_in it vsteps); cbn [List.length]; lia.
Qed.

Lemma calls_concat (p : event -> bool) (d m v : nat) msteps vsteps lr its :
  (forall z j dz dx, calls p (descent_calls Pred data lr z j dz dx) = d) ->
  (forall it z j zt jt, calls p (print_calls Grad Back Pred LR data it z j zt jt) = m) ->
  (forall z j dz f dx, calls p (visualize_calls LR data z j dz f dx) = v) ->
  forall ls : list (list event),
    Forall2 (iteration_calls data msteps vsteps lr) its ls ->
    calls p (concat ls) = list_sum (map (tally msteps vsteps d m v) its).
Proof.
  intros Hd Hm Hv ls F.
  induction F as [|it l its ls H _ IH]; cbn [concat map].
  - reflexivity.
  - change (list_sum (?a :: ?l)) with (a + list_sum l).
    rewrite calls_app, IH.
    rewrite (calls_iteration p Hd (Hm it) Hv H). reflexivity.
Qed.

Lemma train_call_count (p : event -> bool) (d m v : nat) nn svc msteps
      vsteps lr :
  (forall z j dz dx, calls p (descent_calls Pred data lr z j dz dx) = d) ->
  (forall it z j zt jt, calls p (print_calls Grad Back Pred LR data it z j zt jt) = m) ->
  (forall z j dz f dx, calls p (visualize_calls LR data z j dz f dx) = v) ->
  calls p (w_log (train net clf data nn svc msteps vsteps lr))
  = d * 100 + m * List.length (due msteps) + v * List.length (due vsteps).
Proof.
  intros Hd Hm Hv.
  destruct (train_calls nn svc msteps vsteps lr) as (ls & -> & F).
  rewrite (calls_concat p Hd Hm Hv F), tally_sum, length_seq.
  unfold due. lia.
Qed.

(** *** The loop under other step lists and other test data *)

Lemma for_each_ext (its : list nat) 
      (body body' : nat -> M Data Lab Feat Grad Back Pred Obj LR NN SVC unit) :
  (forall it w, In it its -> body it w = body' it w) ->
  forall w, for_each its body w = for_each its body' w.
Proof.
  induction its as [|it its IH]; intros H w.
  - reflexivity.
  - cbn [for_each]. unfold bind. rewrite (H it w (or_introl eq_refl)).
    destruct (body' it w) as [[] w1].
    apply IH. intros it' w' Hin. apply H. right. exact Hin.
Qed.

Lemma iteration_ext msteps vsteps msteps' vsteps' lr it (w : world) :
  py_in it msteps = py_in it msteps' ->
  py_in it vsteps = py_in it vsteps' ->
  iteration net clf data msteps vsteps lr it w
  = iteration net clf data msteps' vsteps' lr it w.
Proof.
  intros Hm Hv. unfold iteration, report. rewrite Hm, Hv. reflexivity.
Qed.

End Shape.

Lemma filter_agree (A : Type) (p q : A -> bool) (l : list A) :
  NoDup l -> filter p l = filter q l -> forall a, In a l -> p a = q a.
Proof.
  induction 1 as [|x l Hx _ IH]; intros E a Ha; [destruct Ha|].
  cbn [filter] in E.
  assert (Hp : ~ In x (filter p l)) by (rewrite filter_In; tauto).
  assert (Hq : ~ In x (filter q l)) by (rewrite filter_In; tauto).
  destruct (p x) eqn:Px, (q x) eqn:Qx.
  - injection E as E. destruct Ha as [<-|Ha]; [congruence|auto].
  - exfalso. apply Hq. rewrite <- E. left. reflexivity.
  - exfalso. apply Hp. rewrite E. left. reflexivity.
  - destruct Ha as [<-|Ha]; [congruence|auto].
Qed.

Lemma due_agree (steps steps' : list nat) (it : nat) :
  due steps = due steps' -> In it (seq 1 100) ->
  py_in it steps = py_in it steps'.
Proof.
  unfold due. generalize (seq_NoDup 100 1). generalize (seq 1 100).
  intros l Hl E Hin.
  exact (filter_agree (fun it => py_in it steps) (fun it => py_in it steps')
                      Hl E it Hin).
Qed.

Lemma due_none (steps : list nat) (it : nat) :
  due steps = [] -> In it (seq 1 100) -> py_in it steps = false.
Proof.
  unfold due. generalize (seq 1 100). intros l E Hin.
  destruct (py_in it steps) eqn:P; [|reflexivity].
  assert (H : In it (filter (fun it => py_in it steps) l))
    by (apply filter_In; auto).
  rewrite E in H. destruct H.
Qed.

(** X1: [train] prints one line per iteration of [range(1,101)] that is in
    [msteps], in increasing order of the iteration, whatever the order and
    the repetitions in [msteps]; and it calls [utils.visualize] once per
    iteration that is in [vsteps]. *)
Theorem train_reports_due_steps :
  forall (Data Lab Feat Grad Back Pred Obj LR NN SVC : Type)
         (net : Network Data Feat Grad Back LR NN)
         (clf : Classifier Lab Feat Grad Pred Obj SVC)
         (data : Toy Data Lab)
         (nn : NN) (svc : SVC) (msteps vsteps : list nat) (lr : LR),
    printed (w_log (train net clf data nn svc msteps vsteps lr))
    = due msteps /\
    calls (@is_visualize _ _ _ _ _ _ _ _)
          (w_log (train net clf data nn svc msteps vsteps lr))
    = List.length (due vsteps).
Proof.
  intros. split.
  - destruct (train_calls net clf data nn svc msteps vsteps lr)
      as (ls & -> & F).
    unfold due. exact (printed_concat F).
  - rewrite (@train_call_count _ _ _ _ _ _ _ _ _ _ net clf data
               (@is_visualize _ _ _ _ _ _ _ _) 0 0 1); try reflexivity.
    lia.
Qed.

(** X2: the number of calls [train] makes of each method: the network is
    run forward, and the classifier trained, 100 times plus twice per
    printed line plus once per visualisation; [svc.gradient] and
    [nn.backward] are called 100 times plus once per visualisation;
    [svc.predictions] once per visualisation. *)
Theorem train_call_counts :
  forall (Data Lab Feat Grad Back Pred Obj LR NN SVC : Type)
         (net : Network Data Feat Grad Back LR NN)
         (clf : Classifier Lab Feat Grad Pred Obj SVC)
         (data : Toy Data Lab)
         (nn : NN) (svc : SVC) (msteps vsteps : list nat) (lr : LR),
    let l := w_log (train net clf data nn svc msteps vsteps lr) in
    let m := List.length (due msteps) in
    let v := List.length (due vsteps) in
    calls (@is_forward _ _ _ _ _ _ _ _) l = 100 + 2 * m + v /\
    calls (@is_optimize _ _ _ _ _ _ _ _) l = 100 + 2 * m + v /\
    calls (@is_gradient _ _ _ _ _ _ _ _) l = 100 + v /\
    calls (@is_backward _ _ _ _ _ _ _ _) l = 100 + v /\
    calls (@is_predictions _ _ _ _ _ _ _ _) l = v.
Proof.
  intros. subst l m v.
  rewrite (@train_call_count _ _ _ _ _ _ _ _ _ _ net clf data
             (@is_forward _ _ _ _ _ _ _ _) 1 2 1); try reflexivity.
  rewrite (@train_call_count _ _ _ _ _ _ _ _ _ _ net clf data
             (@is_optimize _ _ _ _ _ _ _ _) 1 2 1); try reflexivity.
  rewrite (@train_call_count _ _ _ _ _ _ _ _ _ _ net clf data
             (@is_gradient _ _ _ _ _ _ _ _) 1 0 1); try reflexivity.
  rewrite (@train_call_count _ _ _ _ _ _ _ _ _ _ net clf data
             (@is_backward _ _ _ _ _ _ _ _) 1 0 1); try reflexivity.
  rewrite (@train_call_count _ _ _ _ _ _ _ _ _ _ net clf data
             (@is_predictions _ _ _ _ _ _ _ _) 0 0 1); try reflexivity.
  lia.
Qed.

(** X3: [train] reads [msteps] and [vsteps] through [it in msteps] and
    [it in vsteps] for [it] in [range(1,101)] only: two pairs of step
    lists with the same members among 1..100 give the same run, whatever
    their order, their repetitions and their entries outside 1..100. *)
Theorem train_reads_steps_by_membership :
  forall (Data Lab Feat Grad Back Pred Obj LR NN SVC : Type)
         (net : Network Data Feat Grad Back LR NN)
         (clf : Classifier Lab Feat Grad Pred Obj SVC)
         (data : Toy Data Lab)
         (nn : NN) (svc : SVC) (msteps vsteps msteps' vsteps' : list nat)
         (lr : LR),
    due msteps = due msteps' -> due vsteps = due vsteps' ->
    train net clf data nn svc msteps vsteps lr
    = train net clf data nn svc msteps' vsteps' lr.
Proof.
  intros until lr. intros Hm Hv. unfold train, train_loop.
  rewrite (for_each_ext (seq 1 100)
             (iteration net clf data msteps vsteps lr)
             (iteration net clf data msteps' vsteps' lr)).
  - reflexivity.
  - intros it w Hin. apply iteration_ext; apply due_agree; assumption.
Qed.

(** X3 at the toy network: entries 0, 101 and 200 and the repetitions
    change nothing. *)
Lemma train_reads_steps_by_membership_witness :
  due [0; 1; 1; 101] = due [1] /\ due [100; 200; 100] = due [100] /\
  Toy.toy_train true [0; 1; 1; 101] [100; 200; 100]
  = Toy.toy_train true [1] [100].
Proof.
  assert (Hm : due [0; 1; 1; 101] = due [1]) by (vm_compute; reflexivity).
  assert (Hv : due [100; 200; 100] = due [100]) by (vm_compute; reflexivity).
  split; [exact Hm|]. split; [exact Hv|].
  unfold Toy.toy_train.
  apply train_reads_steps_by_membership; assumption.
Defined.

(** X4: when no iteration of [range(1,101)] is in [msteps] or in [vsteps]
    (the default [msteps=[]], [vsteps=[]] for one), [train] never touches
    the test set: whatever the network and the classifier are, the run,
    its log and the two objects it leaves are the same for any two test
    sets. *)
Theorem train_without_reports_ignores_test_set :
  forall (Data Lab Feat Grad Back Pred Obj LR NN SVC : Type)
         (net : Network Data Feat Grad Back LR NN)
         (clf : Classifier Lab Feat Grad Pred Obj SVC)
         (x : Data) (y : Lab) (xtest xtest' : Data) (ytest ytest' : Lab)
         (nn : NN) (svc : SVC) (msteps vsteps : list nat) (lr : LR),
    due msteps = [] -> due vsteps = [] ->
    train net clf (Build_Toy x y xtest ytest) nn svc msteps vsteps lr
    = train net clf (Build_Toy x y xtest' ytest') nn svc msteps vsteps lr.
Proof.
  intros until lr. intros Hm Hv. unfold train, train_loop.
  rewrite (for_each_ext (seq 1 100)
             (iteration net clf (Build_Toy x y xtest ytest) msteps vsteps lr)
             (iteration net clf (Build_Toy x y xtest' ytest') msteps vsteps
                        lr)).
  - reflexivity.
  - intros it w Hin. unfold iteration, report.
    rewrite (due_none msteps Hm Hin), (due_none vsteps Hv Hin).
    reflexivity.
Qed.

(** X4 at the toy network with a classifier that keeps its earlier fit,
    for [msteps = [0, 101]] and the test sets [false] and [true]. *)
Lemma train_without_reports_ignores_test_set_witness :
  due [0; 101] = [] /\ due [] = [] /\
  Toy.toy_train false [0; 101] [] = Toy.toy_train true [0; 101] [].
Proof.
  assert (Hm : due [0; 101] = []) by (vm_compute; reflexivity).
  assert (Hv : due [] = []) by (vm_compute; reflexivity).
  split; [exact Hm|]. split; [exact Hv|].
  unfold Toy.toy_train, Toy.toy_data.
  apply train_without_reports_ignores_test_set; assumption.
Defined.

End TrainReportFacts.

(* ================================================================= *)
(** * Facts about the probability tables                              *)
(* ================================================================= *)

Module TableFacts.
Import Graphical GraphicalFacts.

(** [p.sum()] of a vector of rationals. *)
Definition Qsum (l : list Q) : Q := fold_right Qplus 0%Q l.

(** The number of training examples whose feature and label satisfy
    [p]. *)
Definition examples (A : Type) (p : A -> nat -> bool) (F : list A)
           (T : list nat) : nat :=
  List.length (filter (fun ft => p (fst ft) (snd ft)) (combine F T)).

Lemma Qn_add a b : (Qn (a + b) == Qn a + Qn b)%Q.
Proof.
  unfold Qn. rewrite Nat2Z.inj_add, inject_Z_plus. reflexivity.
Qed.

Lemma Qn_nonneg n : (0 <= Qn n)%Q.
Proof.
  unfold Qn. change 0%Q with (inject_Z 0). rewrite <- Zle_Qle. lia.
Qed.

Lemma Qn_le a b : a <= b -> (Qn a <= Qn b)%Q.
Proof. intros H. unfold Qn. rewrite <- Zle_Qle. lia. Qed.

Lemma Qsum_div (A : Type) (f : A -> Q) (d : Q) (l : list A) :
  (Qsum (map (fun a => f a / d) l) == Qsum (map f l) / d)%Q.
Proof.
  induction l as [|a l IH]; cbn [map Qsum fold_right].
  - unfold Qdiv. ring.
  - fold (Qsum (map (fun a => f a / d) l))%Q. fold (Qsum (map f l)).
    rewrite IH. unfold Qdiv. ring.
Qed.

Lemma Qsum_Qn (A : Type) (g : A -> nat) (l : list A) :
  (Qsum (map (fun a => Qn (g a)) l) == Qn (list_sum (map g l)))%Q.
Proof.
  induction l as [|a l IH]; cbn [map Qsum fold_right].
  - reflexivity.
  - fold (Qsum (map (fun a => Qn (g a)) l)).
    change (list_sum (g a :: map g l)) with (g a + list_sum (map g l)).
    rewrite IH, Qn_add. reflexivity.
Qed.

Lemma Qdiv_same (q : Q) : (0 < q)%Q -> (q / q == 1)%Q.
Proof.
  intros H. unfold Qdiv. apply Qmult_inv_r.
  intros E. rewrite E in H. exact (Qlt_irrefl _ H).
Qed.

(** *** Counting *)

Lemma count_true_cons (b : bool) (m : list bool) :
  count_true (b :: m) = (if b then 1 else 0) + count_true m.
Proof. unfold count_true. cbn [filter]. destruct b; reflexivity. Qed.

Lemma count_true_eq_mask v l :
  count_true (eq_mask v l) = count_occ Nat.eq_dec l v.
Proof.
  induction l as [|a l IH]; [reflexivity|].
  unfold eq_mask in *. cbn [map]. rewrite count_true_cons, IH.
  cbn [count_occ].
  destruct (Nat.eq_dec a v) as [E|E], (Nat.eqb_spec v a) as [E'|E'];
    try reflexivity; congruence.
Qed.

Lemma list_sum_add (A : Type) (f g : A -> nat) (l : list A) :
  list_sum (map (fun a => f a + g a) l)
  = list_sum (map f l) + list_sum (map g l).
Proof.
  induction l as [|a l IH]; [reflexivity|].
  cbn [map].
  change (list_sum (?x :: ?r)) with (x + list_sum r).
  rewrite IH. lia.
Qed.

Lemma list_sum_hit (a n : nat) : forall s,
  list_sum (map (fun v => if v =? a then 1 else 0) (seq s n))
  = if (s <=? a) && (a <? s + n) then 1 else 0.
Proof.
  induction n as [|n IH]; intros s.
  - cbn [seq map]. change (list_sum []) with 0.
    destruct (Nat.leb_spec s a), (Nat.ltb_spec a (s + 0));
      cbn [andb]; try reflexivity; lia.
  - cbn [seq map].
    change (list_sum (?x :: ?r)) with (x + list_sum r).
    rewrite IH.
    destruct (Nat.eqb_spec s a), (Nat.leb_spec (S s) a),
      (Nat.ltb_spec a (S s + n)), (Nat.leb_spec s a),
      (Nat.ltb_spec a (s + S n)); cbn [andb]; try reflexivity; lia.
Qed.

(** The counts of the values [0..n-1] in a list add up to the number of
    its entries below [n]. *)
Lemma counts_total (A : Type) (n : nat) (l : list A)
      (key : A -> nat) :
  list_sum (map (fun v => count_true (map (fun a => v =? key a) l)) (seq 0 n))
  = List.length (filter (fun a => key a <? n) l).
Proof.
  induction l as [|a l IH].
  - cbn [map filter List.length]. induction (seq 0 n); [reflexivity|].
    cbn [map]. change (list_sum (?x :: ?r)) with (x + list_sum r).
    rewrite IHl. reflexivity.
  - cbn [map filter].
    rewrite (map_ext _ (fun v => (if v =? key a then 1 else 0)
                                 + count_true (map (fun a => v =? key a) l)))
      by (intros v; apply count_true_cons).
    rewrite list_sum_add, IH, list_sum_hit. cbn [Nat.leb andb Nat.add].
    destruct (key a <? n); cbn [List.length]; lia.
Qed.

Lemma mask_select_combine (A : Type) (cl : nat) : forall (T : list nat)
      (F : list A),
  mask_select (eq_mask cl T) F
  = map fst (filter (fun ft => cl =? snd ft) (combine F T)).
Proof.
  unfold eq_mask.
  induction T as [|t T IH]; intros [|a F]; cbn [map mask_select combine filter];
    try reflexivity.
  cbn [snd]. destruct (cl =? t); cbn [map fst]; rewrite IH; reflexivity.
Qed.

(** *** Add-one estimates *)

Lemma add_one_total counts :
  list_sum (map (fun n => n + 1) counts) = list_sum counts + List.length counts.
Proof.
  induction counts as [|c counts IH]; [reflexivity|].
  cbn [map List.length].
  change (list_sum (?x :: ?r)) with (x + list_sum r).
  rewrite IH. lia.
Qed.

Lemma add_one_normalize_sum counts :
  counts <> [] -> (Qsum (add_one_normalize counts) == 1)%Q.
Proof.
  intros Hne. unfold add_one_normalize.
  rewrite (Qsum_div (fun n => Qn (n + 1))).
  rewrite (Qsum_Qn (fun n => n + 1)).
  apply Qdiv_same. apply Qn_pos.
  rewrite add_one_total. destruct counts; [congruence|cbn [List.length]; lia].
Qed.

Lemma nth_map_in (A B : Type) (f : A -> B) (d : B) (d' : A) (l : list A) :
  forall i, i < List.length l -> nth i (map f l) d = f (nth i l d').
Proof.
  induction l as [|a l IH]; intros [|i] H; cbn [List.length] in H;
    try lia; cbn [map nth]; [reflexivity|].
  apply IH. lia.
Qed.

Lemma add_one_normalize_nth counts i :
  i < List.length counts ->
  (nth i (add_one_normalize counts) 0
   == Qn (nth i counts 0%nat + 1)
      / Qn (list_sum counts + List.length counts))%Q.
Proof.
  intros Hi. unfold add_one_normalize. rewrite add_one_total.
  rewrite (nth_map_in _ 0%Q 0%nat _ Hi). reflexivity.
Qed.

Lemma class_counts_length T : List.length (class_counts T) = nbclasses.
Proof. unfold class_counts. rewrite length_map, length_seq. reflexivity. Qed.

Lemma class_counts_nth T cl :
  cl < nbclasses -> nth cl (class_counts T) 0 = count_occ Nat.eq_dec T cl.
Proof.
  intros H. unfold class_counts.
  rewrite (nth_map_seq (fun cl => count_true (eq_mask cl T)) 0 0 H).
  apply count_true_eq_mask.
Qed.

Lemma class_counts_total T :
  list_sum (class_counts T)
  = List.length (filter (fun t => t <? nbclasses) T).
Proof.
  unfold class_counts, eq_mask.
  rewrite <- (counts_total nbclasses T (fun t => t)).
  reflexivity.
Qed.

(** X5: for every list of training labels, [PT] is the add-one estimate of
    the class distribution: ten strictly positive entries that sum to one,
    entry [cl] being (the number of examples of class [cl], plus one) over
    (the number of examples with a label in 0..9, plus ten).  Labels
    outside 0..9 count for no class, and an empty training set gives the
    uniform distribution. *)
Theorem PT_is_add_one_estimate :
  forall T : list nat,
    List.length (PT T) = nbclasses /\
    Forall (fun q => (0 < q)%Q) (PT T) /\
    (Qsum (PT T) == 1)%Q /\
    Forall2 (fun cl q =>
               (q == Qn (count_occ Nat.eq_dec T cl + 1)
                     / Qn (List.length (filter (fun t => t <? nbclasses) T)
                           + nbclasses))%Q)
            (seq 0 nbclasses) (PT T).
Proof.
  intros T. split; [apply PT_length|]. split; [apply PT_pos|]. split.
  - apply add_one_normalize_sum. intros E.
    pose proof (class_counts_length T) as L. rewrite E in L. discriminate L.
  - assert (H : forall cl, cl < nbclasses ->
               (nth cl (PT T) 0
                == Qn (count_occ Nat.eq_dec T cl + 1)
                   / Qn (List.length (filter (fun t => t <? nbclasses) T)
                         + nbclasses))%Q).
    { intros cl Hcl. unfold PT.
      rewrite add_one_normalize_nth by (rewrite class_counts_length; exact Hcl).
      rewrite class_counts_nth, class_counts_total, class_counts_length
        by exact Hcl.
      reflexivity. }
    pose proof (PT_length T) as L. revert H L.
    generalize (PT T). unfold nbclasses. intros l H L.
    do 10 (destruct l as [|? l]; [discriminate L|]).
    destruct l; [|discriminate L].
    repeat constructor;
      match goal with
      | |- (_ == Qn (count_occ _ _ ?cl + 1) / _)%Q =>
          exact (H cl ltac:(lia))
      end.
Qed.

(** *** The level tables of the example model *)

Lemma count_true_filter (A : Type) (p : A -> bool) (g : A -> bool)
      (l : list A) :
  count_true (map g (filter p l))
  = List.length (filter (fun a => p a && g a) l).
Proof.
  induction l as [|a l IH]; [reflexivity|].
  cbn [filter]. destruct (p a); cbn [andb map].
  - rewrite count_true_cons, IH. destruct (g a); cbn [List.length]; lia.
  - exact IH.
Qed.

Lemma selected_count (cl lv : nat) (Xhalf T : list nat) :
  count_true (eq_mask lv (mask_select (eq_mask cl T) Xhalf))
  = examples (fun x t => (t =? cl) && (x =? lv)) Xhalf T.
Proof.
  rewrite mask_select_combine. unfold eq_mask, examples.
  rewrite map_map, count_true_filter.
  f_equal. apply filter_ext. intros [x t]. cbn [fst snd].
  rewrite (Nat.eqb_sym cl t), (Nat.eqb_sym lv x). reflexivity.
Qed.

Lemma selected_total (cl n : nat) (Xhalf T : list nat) :
  list_sum (map (fun lv =>
                   count_true (eq_mask lv (mask_select (eq_mask cl T) Xhalf)))
                (seq 0 n))
  = examples (fun x t => (t =? cl) && (x <? n)) Xhalf T.
Proof.
  etransitivity;
    [exact (counts_total n (mask_select (eq_mask cl T) Xhalf) (fun x => x))|].
  rewrite mask_select_combine. unfold examples.
  generalize (combine Xhalf T). intros l.
  induction l as [|[x t] l IH]; [reflexivity|].
  cbn [filter fst snd]. rewrite (Nat.eqb_sym cl t).
  destruct (t =? cl); cbn [andb map filter fst].
  - destruct (x <? n); cbn [List.length]; rewrite IH; reflexivity.
  - exact IH.
Qed.

Lemma PXT_levels_row (Xhalf T : list nat) (cl : nat) :
  cl < nbclasses ->
  nth cl (PXT_levels Xhalf T) []
  = add_one_normalize
      (map (fun lv =>
              count_true (eq_mask lv (mask_select (eq_mask cl T) Xhalf)))
           (seq 0 ex_nblevels)).
Proof.
  intros H. unfold PXT_levels, level_counts. rewrite map_map.
  rewrite (nth_map_seq _ [] 0 H). reflexivity.
Qed.

Lemma PXT_levels_estimate (Xhalf T : list nat) (cl lv : nat) :
  cl < nbclasses -> lv < ex_nblevels ->
  let row := nth cl (PXT_levels Xhalf T) [] in
  List.length row = ex_nblevels /\
  Forall (fun q => (0 < q)%Q) row /\
  (Qsum row == 1)%Q /\
  (nth lv row 0
   == Qn (examples (fun x t => (t =? cl) && (x =? lv)) Xhalf T + 1)
      / Qn (examples (fun x t => (t =? cl) && (x <? ex_nblevels)) Xhalf T
            + ex_nblevels))%Q.
Proof.
  intros Hcl Hlv row. subst row. rewrite (PXT_levels_row Xhalf T Hcl).
  set (counts := map _ (seq 0 ex_nblevels)).
  assert (L : List.length counts = ex_nblevels)
    by (unfold counts; rewrite length_map; apply length_seq).
  split; [rewrite add_one_normalize_length; exact L|].
  split; [apply add_one_normalize_pos|]. split.
  - apply add_one_normalize_sum. intros E. rewrite E in L. discriminate L.
  - rewrite add_one_normalize_nth by (rewrite L; exact Hlv).
    rewrite L. unfold counts at 1.
    rewrite (nth_map_seq _ 0 0 Hlv). cbn [Nat.add].
    rewrite selected_count. unfold counts. rewrite selected_total.
    reflexivity.
Qed.

(** X6: the two level tables of the example model are add-one estimates:
    for a class [cl] in 0..9, row [cl] of [PXT1] has 201 strictly positive
    entries that sum to one, and entry [lv] is (the number of training examples of class
    [cl] whose top half holds [lv] white pixels, plus one) over (the number
    of training examples of class [cl] with a level in 0..200, plus 201);
    the same holds of [PXT2] and the bottom half.  A class without
    examples gets the uniform row. *)
Theorem PXT_levels_are_add_one_estimates :
  forall (X : list image) (T : list nat) (cl lv : nat),
    cl < nbclasses -> lv < ex_nblevels ->
    (List.length (nth cl (PXT1 X T) []) = ex_nblevels /\
     Forall (fun q => (0 < q)%Q) (nth cl (PXT1 X T) []) /\
     (Qsum (nth cl (PXT1 X T) []) == 1)%Q /\
     (nth lv (nth cl (PXT1 X T) []) 0
      == Qn (examples (fun x t => (t =? cl) && (x =? lv)) (Xtop X) T + 1)
         / Qn (examples (fun x t => (t =? cl) && (x <? ex_nblevels))
                        (Xtop X) T + ex_nblevels))%Q) /\
    (List.length (nth cl (PXT2 X T) []) = ex_nblevels /\
     Forall (fun q => (0 < q)%Q) (nth cl (PXT2 X T) []) /\
     (Qsum (nth cl (PXT2 X T) []) == 1)%Q /\
     (nth lv (nth cl (PXT2 X T) []) 0
      == Qn (examples (fun x t => (t =? cl) && (x =? lv)) (Xbot X) T + 1)
         / Qn (examples (fun x t => (t =? cl) && (x <? ex_nblevels))
                        (Xbot X) T + ex_nblevels))%Q).
Proof.
  intros X T cl lv Hcl Hlv. unfold PXT1, PXT2. split.
  - exact (PXT_levels_estimate (Xtop X) T Hcl Hlv).
  - exact (PXT_levels_estimate (Xbot X) T Hcl Hlv).
Qed.

(** X6 at a training set of one all-white image of class 3: the top half
    holds 100 white pixels. *)
Lemma PXT_levels_are_add_one_estimates_witness :
  3 < nbclasses /\ 100 < ex_nblevels /\
  (nth 100 (nth 3 (PXT1 [white_image] [3%nat]) []) 0
   == Qn (examples (fun x t => (t =? 3)%nat && (x =? 100)%nat)
                   (Xtop [white_image]) [3%nat] + 1)
      / Qn (examples (fun x t => (t =? 3)%nat && (x <? ex_nblevels)%nat)
                     (Xtop [white_image]) [3%nat] + ex_nblevels))%Q.
Proof.
  assert (H1 : 3 < nbclasses) by (unfold nbclasses; lia).
  assert (H2 : 100 < ex_nblevels) by (unfold ex_nblevels; lia).
  split; [exact H1|]. split; [exact H2|].
  exact (proj2 (proj2 (proj2 (proj1 (PXT_levels_are_add_one_estimates
                                       [white_image] [3] H1 H2))))).
Defined.

(** *** Sums along axis 0 *)

Lemma zip_add_length a : forall b,
  List.length (zip_add a b) = Nat.min (List.length a) (List.length b).
Proof.
  induction a as [|x a IH]; intros [|y b]; cbn [zip_add List.length Nat.min];
    try reflexivity.
  rewrite IH. reflexivity.
Qed.

Lemma zip_add_nth a : forall b i,
  i < List.length a -> i < List.length b ->
  nth i (zip_add a b) 0 = nth i a 0 + nth i b 0.
Proof.
  induction a as [|x a IH]; intros [|y b] [|i] Ha Hb;
    cbn [List.length] in Ha, Hb; try lia; cbn [zip_add nth].
  - reflexivity.
  - apply IH; lia.
Qed.

Lemma sum_axis0_length n rows :
  Forall (fun r => List.length r = n) rows ->
  List.length (sum_axis0 n rows) = n.
Proof.
  unfold sum_axis0. induction 1 as [|r rows Hr _ IH]; cbn [fold_right].
  - apply repeat_length.
  - rewrite zip_add_length, IH, Hr. apply Nat.min_id.
Qed.

Lemma sum_axis0_nth n rows i :
  Forall (fun r => List.length r = n) rows -> i < n ->
  nth i (sum_axis0 n rows) 0 = list_sum (map (fun r => nth i r 0) rows).
Proof.
  intros H Hi. induction H as [|r rows Hr Hrows IH].
  - unfold sum_axis0. cbn [fold_right map].
    apply nth_repeat.
  - unfold sum_axis0 in *. cbn [fold_right map].
    change (list_sum (?x :: ?l)) with (x + list_sum l).
    rewrite zip_add_nth, IH.
    + reflexivity.
    + lia.
    + fold (sum_axis0 n rows). rewrite (sum_axis0_length Hrows). exact Hi.
Qed.

Lemma list_sum_bit_count (A : Type) (f : A -> nat) (l : list A) :
  Forall (fun a => f a <= 1) l ->
  list_sum (map f l) = List.length (filter (fun a => f a =? 1) l).
Proof.
  induction 1 as [|a l Ha _ IH]; [reflexivity|].
  cbn [map filter].
  change (list_sum (?x :: ?r)) with (x + list_sum r).
  rewrite IH. destruct (Nat.eqb_spec (f a) 1); cbn [List.length]; lia.
Qed.

Lemma filter_length_le (A : Type) (p q : A -> bool) (l : list A) :
  (forall a, p a = true -> q a = true) ->
  List.length (filter p l) <= List.length (filter q l).
Proof.
  intros H. induction l as [|a l IH]; [cbn; lia|].
  cbn [filter]. destruct (p a) eqn:P.
  - rewrite (H a P). cbn [List.length]. lia.
  - destruct (q a); cbn [List.length]; lia.
Qed.

(** *** The pixel tables of the shallow model *)

Lemma count_true_examples (A : Type) (cl : nat) : forall (T : list nat)
      (F : list A),
  List.length F = List.length T ->
  count_true (eq_mask cl T) = examples (fun _ t => t =? cl) F T.
Proof.
  unfold examples, eq_mask.
  induction T as [|t T IH]; intros [|a F] L; cbn [List.length] in L;
    try discriminate L; [reflexivity|].
  cbn [map combine filter fst snd].
  rewrite count_true_cons, (IH F) by lia.
  rewrite (Nat.eqb_sym cl t). destruct (t =? cl); cbn [List.length]; lia.
Qed.

Lemma ravel_length x :
  image_check x = true -> List.length (ravel x) = nbfeats.
Proof.
  intros H. apply image_check_rows in H. destruct H as [L R].
  unfold ravel.
  assert (E : forall rows : list (list nat),
             Forall (fun r => List.length r = 20 /\ Forall bit r) rows ->
             List.length (concat rows) = 20 * List.length rows).
  { induction 1 as [|r rows [Hr _] _ IH]; [reflexivity|].
    cbn [concat List.length]. rewrite length_app, IH, Hr. lia. }
  rewrite (E x R), L. reflexivity.
Qed.

Lemma ravel_bits x nbf :
  image_check x = true -> nth nbf (ravel x) 0 <= 1.
Proof.
  intros H. apply (Forall_nth_default (P := bit)); [|unfold bit; lia].
  unfold ravel. apply Forall_concat, image_check_bits, H.
Qed.

Lemma shallow_white_nth (X : list image) (T : list nat) (cl nbf : nat) :
  List.length X = List.length T ->
  Forall (fun x => image_check x = true) X ->
  nbf < nbfeats ->
  (nth nbf (shallow_white X T cl) 0
   == Qn (examples (fun x t => (t =? cl) && (nth nbf (ravel x) 0 =? 1)%nat) X T)
      / Qn (examples (fun _ t => t =? cl) X T))%Q.
Proof.
  intros L HX Hn. unfold shallow_white.
  set (sel := mask_select (eq_mask cl T) X).
  assert (Hsel : Forall (fun x => image_check x = true) sel).
  { unfold sel. rewrite mask_select_combine.
    apply Forall_forall. intros x Hx. apply in_map_iff in Hx.
    destruct Hx as ([x' t] & <- & Hin). apply filter_In in Hin.
    destruct Hin as [Hin _]. apply in_combine_l in Hin.
    rewrite Forall_forall in HX. exact (HX _ Hin). }
  assert (Hrows : Forall (fun r => List.length r = nbfeats) (map ravel sel)).
  { apply Forall_map. eapply Forall_impl; [|exact Hsel].
    intros x Hx. exact (@ravel_length x Hx). }
  rewrite (nth_map_in _ 0%Q 0%nat)
    by (rewrite (sum_axis0_length Hrows); exact Hn).
  rewrite (sum_axis0_nth Hrows Hn), map_map.
  rewrite (list_sum_bit_count (fun x => nth nbf (ravel x) 0))
    by (eapply Forall_impl; [|exact Hsel]; intros x Hx;
        exact (@ravel_bits x nbf Hx)).
  rewrite (@count_true_examples _ cl T X L).
  unfold sel. rewrite mask_select_combine.
  assert (E : List.length
                (filter (fun x => nth nbf (ravel x) 0 =? 1)
                        (map fst (filter (fun ft : image * nat => cl =? snd ft)
                                         (combine X T))))
              = examples (fun x t => (t =? cl) && (nth nbf (ravel x) 0 =? 1)%nat)
                         X T).
  { unfold examples. generalize (combine X T). intros l.
    induction l as [|[x t] l IH]; [reflexivity|].
    cbn [filter fst snd]. rewrite (Nat.eqb_sym cl t).
    destruct (t =? cl); cbn [andb map filter fst].
    - destruct (nth nbf (ravel x) 0 =? 1); cbn [List.length];
        rewrite IH; reflexivity.
    - exact IH. }
  rewrite E. reflexivity.
Qed.

Lemma eps_pos : (0 < eps)%Q.
Proof. reflexivity. Qed.

Lemma fraction_range (a b : nat) :
  0 < b -> a <= b -> (0 <= Qn a / Qn b <= 1)%Q.
Proof.
  intros Hb Hab. pose proof (Qn_pos Hb) as Pb. split.
  - apply Qle_shift_div_l; [exact Pb|]. rewrite Qmult_0_l. apply Qn_nonneg.
  - apply Qle_shift_div_r; [exact Pb|]. rewrite Qmult_1_l.
    apply Qn_le, Hab.
Qed.

(** X7: in the shallow model, for a training set of 20x20 0/1 images with
    one label each and a class [cl] that has at least one example, the
    table of pixel [nbf] at class [cl] is [[1 - p, p]], where [p] is the
    fraction of the training images of class [cl] in which pixel [nbf] is
    white; [p] lies between 0 and 1, so both entries are strictly positive
    once [1e-20] is added and their logarithm is defined. *)
Theorem shallow_PXT_is_class_frequency :
  forall (X : list image) (T : list nat) (cl nbf : nat),
    List.length X = List.length T ->
    Forall (fun x => image_check x = true) X ->
    cl < nbclasses -> nbf < nbfeats ->
    0 < examples (fun _ t => t =? cl) X T ->
    let p :=
      (Qn (examples (fun x t => (t =? cl) && (nth nbf (ravel x) 0 =? 1)%nat) X T)
       / Qn (examples (fun _ t => t =? cl) X T))%Q in
    Forall2 Qeq (nth cl (nth nbf (shallow_PXT X T) []) []) [1 - p; p]%Q /\
    (0 <= p <= 1)%Q /\
    Forall (fun q => (0 < q)%Q)
           (nth cl (smoothed (nth nbf (shallow_PXT X T) [])) []).
Proof.
  intros X T cl nbf L HX Hcl Hn Hpos p.
  pose proof (@shallow_white_nth X T cl nbf L HX Hn) as E. fold p in E.
  assert (R : (0 <= p <= 1)%Q).
  { apply fraction_range; [exact Hpos|].
    unfold examples. apply filter_length_le.
    intros [x t] H. apply andb_prop in H. exact (proj1 H). }
  assert (Row : nth cl (nth nbf (shallow_PXT X T) []) []
                = [1 - nth nbf (shallow_white X T cl) 0;
                   nth nbf (shallow_white X T cl) 0]%Q).
  { unfold shallow_PXT. rewrite (nth_map_seq _ [] 0 Hn).
    rewrite (nth_map_seq _ [] 0 Hcl). reflexivity. }
  split; [|split; [exact R|]].
  - rewrite Row. repeat constructor; rewrite E; reflexivity.
  - unfold smoothed.
    rewrite (nth_map_in _ [] []) by
      (rewrite (proj1 (@shallow_PXT_shape X T nbf Hn)); exact Hcl).
    rewrite Row. cbn [map]. pose proof eps_pos as Pe. destruct R as [R0 R1].
    repeat constructor; rewrite E.
    + apply Qlt_le_trans with (y := eps); [exact Pe|].
      setoid_replace eps with (0 + eps)%Q at 1 by ring.
      apply Qplus_le_l. apply -> Qle_minus_iff. exact R1.
    + apply Qlt_le_trans with (y := eps); [exact Pe|].
      setoid_replace eps with (0 + eps)%Q at 1 by ring.
      apply Qplus_le_l. exact R0.
Qed.

(** X7 at the training set of two all-white images of class 3. *)
Lemma shallow_PXT_is_class_frequency_witness :
  List.length two_white = List.length [3; 3] /\
  Forall (fun x => image_check x = true) two_white /\
  3 < nbclasses /\ 0 < nbfeats /\
  0 < examples (fun _ t => t =? 3) two_white [3; 3] /\
  Forall (fun q => (0 < q)%Q)
         (nth 3 (smoothed (nth 0 (shallow_PXT two_white [3; 3]) [])) []).
Proof.
  assert (H1 : List.length two_white = List.length [3; 3]) by reflexivity.
  assert (H2 : Forall (fun x => image_check x = true) two_white)
    by (repeat constructor).
  assert (H3 : 3 < nbclasses) by (unfold nbclasses; lia).
  assert (H4 : 0 < nbfeats) by (unfold nbfeats; lia).
  assert (H5 : 0 < examples (fun _ t => t =? 3) two_white [3; 3])
    by (vm_compute; lia).
  repeat (split; [assumption|]).
  exact (proj2 (proj2 (@shallow_PXT_is_class_frequency
                        two_white [3; 3] 3 0 H1 H2 H3 H4 H5))).
Defined.

(** *** The subclass tables of the hierarchical model *)

Lemma PZT_row (T : list nat) (Z : list (list nat)) (grp cl : nat) :
  grp < nbgroups -> cl < nbclasses ->
  nth cl (nth grp (PZT T Z) []) []
  = let Zc := mask_select (eq_mask cl T) Z in
    let counts :=
      map (fun sc => count_true (map (fun z => nth grp z 0 =? sc) Zc))
          (seq 0 nbsubclss) in
    map (fun c => Qn c / Qn (list_sum counts))%Q counts.
Proof.
  intros Hg Hc. unfold PZT.
  rewrite (nth_map_seq _ [] 0 Hg), (nth_map_seq _ [] 0 Hc).
  unfold PZT_class. rewrite (nth_map_seq _ [] 0 Hg). reflexivity.
Qed.

Lemma subclass_count (T : list nat) (Z : list (list nat)) (grp cl sc : nat) :
  count_true (map (fun z => nth grp z 0 =? sc)
                  (mask_select (eq_mask cl T) Z))
  = examples (fun z t => (t =? cl) && (nth grp z 0 =? sc)) Z T.
Proof.
  rewrite mask_select_combine, map_map, count_true_filter.
  unfold examples. f_equal. apply filter_ext. intros [z t]. cbn [fst snd].
  rewrite (Nat.eqb_sym cl t). reflexivity.
Qed.

Lemma subclass_total (T : list nat) (Z : list (list nat)) (grp cl : nat) :
  Forall (fun z => nth grp z 0 < nbsubclss) Z ->
  list_sum (map (fun sc =>
                   count_true (map (fun z => nth grp z 0 =? sc)
                                   (mask_select (eq_mask cl T) Z)))
                (seq 0 nbsubclss))
  = examples (fun _ t => t =? cl) Z T.
Proof.
  intros HZ.
  rewrite (map_ext _ (fun sc =>
                        count_true (map (fun z => sc =? nth grp z 0)
                                        (mask_select (eq_mask cl T) Z))))
    by (intros sc; f_equal; apply map_ext; intros z; apply Nat.eqb_sym).
  rewrite (counts_total nbsubclss (mask_select (eq_mask cl T) Z)
                        (fun z => nth grp z 0)).
  rewrite mask_select_combine. unfold examples.
  assert (HC : Forall (fun ft : list nat * nat =>
                         nth grp (fst ft) 0 < nbsubclss) (combine Z T)).
  { apply Forall_forall. intros [z t] Hin. apply in_combine_l in Hin.
    rewrite Forall_forall in HZ. exact (HZ z Hin). }
  revert HC. generalize (combine Z T). intros l HC.
  induction HC as [|[z t] l Hz _ IH]; [reflexivity|].
  cbn [filter fst snd] in *. rewrite (Nat.eqb_sym cl t).
  destruct (t =? cl); cbn [map filter fst].
  - apply Nat.ltb_lt in Hz. rewrite Hz. cbn [List.length].
    rewrite IH. reflexivity.
  - exact IH.
Qed.

(** X8: in the hierarchical model, for one row of subclass labels per
    training example, labels of group [grp] all in 0..11 and a class [cl]
    that has at least one example, row [cl] of the table [PZT[grp]] is a
    distribution over the 12 subclasses: entry [sc] is the fraction of the
    training examples of class [cl] whose group [grp] carries subclass
    [sc], and the entries sum to one. *)
Theorem PZT_is_subclass_frequency :
  forall (T : list nat) (Z : list (list nat)) (grp cl sc : nat),
    List.length Z = List.length T ->
    Forall (fun z => nth grp z 0 < nbsubclss) Z ->
    grp < nbgroups -> cl < nbclasses -> sc < nbsubclss ->
    0 < examples (fun _ t => t =? cl) Z T ->
    let row := nth cl (nth grp (PZT T Z) []) [] in
    List.length row = nbsubclss /\
    (Qsum row == 1)%Q /\
    (nth sc row 0
     == Qn (examples (fun z t => (t =? cl) && (nth grp z 0 =? sc)%nat) Z T)
        / Qn (examples (fun _ t => t =? cl) Z T))%Q /\
    (0 <= nth sc row 0 <= 1)%Q.
Proof.
  intros T Z grp cl sc L HZ Hg Hc Hs Hpos row.
  subst row. rewrite (@PZT_row T Z grp cl Hg Hc). cbv zeta.
  rewrite (@subclass_total T Z grp cl HZ).
  set (counts := map _ (seq 0 nbsubclss)).
  assert (Lc : List.length counts = nbsubclss)
    by (unfold counts; rewrite length_map; apply length_seq).
  assert (E : (nth sc (map (fun c => Qn c
                                     / Qn (examples (fun _ t => t =? cl) Z T))
                           counts) 0
               == Qn (examples (fun z t => (t =? cl)
                                           && (nth grp z 0 =? sc)%nat) Z T)
                  / Qn (examples (fun _ t => t =? cl) Z T))%Q).
  { rewrite (nth_map_in _ 0%Q 0%nat) by (rewrite Lc; exact Hs).
    unfold counts. rewrite (nth_map_seq _ 0 0 Hs). cbn [Nat.add].
    rewrite subclass_count. reflexivity. }
  split; [rewrite length_map; exact Lc|]. split; [|split; [exact E|]].
  - rewrite (Qsum_div (fun c => Qn c)), (Qsum_Qn (fun c => c)), map_id.
    unfold counts. rewrite (@subclass_total T Z grp cl HZ).
    apply Qdiv_same, Qn_pos, Hpos.
  - rewrite E. apply fraction_range; [exact Hpos|].
    unfold examples. apply filter_length_le.
    intros [z t] H. apply andb_prop in H. exact (proj1 H).
Qed.

(** X8 at two training examples of class 3 whose groups all carry
    subclass 0. *)
Lemma PZT_is_subclass_frequency_witness :
  List.length two_white_labels = List.length [3; 3] /\
  Forall (fun z => nth 0 z 0 < nbsubclss) two_white_labels /\
  0 < nbgroups /\ 3 < nbclasses /\ 0 < nbsubclss /\
  0 < examples (fun _ t => t =? 3) two_white_labels [3; 3] /\
  (Qsum (nth 3 (nth 0 (PZT [3%nat; 3%nat] two_white_labels) []) []) == 1)%Q.
Proof.
  assert (H1 : List.length two_white_labels = List.length [3; 3])
    by reflexivity.
  assert (H2 : Forall (fun z => nth 0 z 0 < nbsubclss) two_white_labels)
    by (repeat constructor; cbn; unfold nbsubclss; lia).
  assert (H3 : 0 < nbgroups) by (unfold nbgroups; lia).
  assert (H4 : 3 < nbclasses) by (unfold nbclasses; lia).
  assert (H5 : 0 < nbsubclss) by (unfold nbsubclss; lia).
  assert (H6 : 0 < examples (fun _ t => t =? 3) two_white_labels [3; 3])
    by (vm_compute; lia).
  repeat (split; [assumption|]).
  exact (proj1 (proj2 (@PZT_is_subclass_frequency
                         [3; 3] two_white_labels 0 3 0 H1 H2 H3 H4 H5 H6))).
Defined.

End TableFacts.

(* ================================================================= *)
(** * The patches of an image                                         *)
(* ================================================================= *)

Module LayoutFacts.
Import Graphical GraphicalFacts.

(** [x.shape == (20,20)] *)
Definition shape20 (x : image) : Prop :=
  List.length x = 20 /\ Forall (fun r => List.length r = 20) x.

(** The 20x20 array with entry [f r c] at row [r], column [c]. *)
Definition tabulate (f : nat -> nat -> nat) : image :=
  map (fun r => map (fun c => f r c) (seq 0 20)) (seq 0 20).

(** The pixel of [x] that entry [nbf] of group [grp] of [xsub] holds. *)
Definition patch_row (grp nbf : nat) : nat := 5 * (grp / 4) + nbf / 5.
Definition patch_col (grp nbf : nat) : nat := 5 * (grp mod 4) + nbf mod 5.

(** The position in [x.ravel()] of entry [k] of [xsub.ravel()]. *)
Definition patch_index (k : nat) : nat :=
  20 * patch_row (k / 25) (k mod 25) + patch_col (k / 25) (k mod 25).

Lemma list_tabulate (A : Type) (d : A) (l : list A) :
  l = map (fun i => nth i l d) (seq 0 (List.length l)).
Proof.
  rewrite (map_nth_seq (fun a => a) d l). symmetry. apply map_id.
Qed.

Lemma image_tabulate (x : image) :
  shape20 x -> x = tabulate (fun r c => nth c (nth r x []) 0).
Proof.
  intros [L R]. unfold tabulate.
  rewrite (list_tabulate [] x) at 1. rewrite L.
  apply map_ext_in. intros r Hr. apply in_seq in Hr.
  assert (Lr : List.length (nth r x []) = 20).
  { rewrite Forall_forall in R. apply R, nth_In. lia. }
  rewrite (list_tabulate 0 (nth r x [])) at 1. rewrite Lr. reflexivity.
Qed.

Section Tabulated.

Variable f : nat -> nat -> nat.

Lemma xsub_tabulate :
  xsub (tabulate f)
  = map (fun grp =>
           map (fun nbf => f (patch_row grp nbf) (patch_col grp nbf))
               (seq 0 25))
        (seq 0 16).
Proof. vm_compute. reflexivity. Qed.

Lemma ravel_tabulate :
  ravel (tabulate f) = map (fun k => f (k / 20) (k mod 20)) (seq 0 400).
Proof. vm_compute. reflexivity. Qed.

Lemma xsub_ravel_tabulate :
  concat (xsub (tabulate f))
  = map (fun k => f (k / 20) (k mod 20)) (map patch_index (seq 0 400)).
Proof. vm_compute. reflexivity. Qed.

End Tabulated.

Lemma patch_index_permutation :
  Permutation (map patch_index (seq 0 400)) (seq 0 400).
Proof.
  assert (H : enumerates (map patch_index (seq 0 400)) 400 = true)
    by (vm_compute; reflexivity).
  exact (proj2 (proj2 (enumerates_sound _ _ H))).
Qed.

(** X9: for a 20x20 image [x], [xsub] has 16 groups of 25 entries, and
    entry [nbf] of group [grp] is the pixel of [x] at row
    [5*(grp/4) + nbf/5] and column [5*(grp mod 4) + nbf mod 5]: group
    [grp] is the 5x5 block in block row [grp/4] and block column
    [grp mod 4], read row by row. *)
Theorem xsub_reads_blocks :
  forall (x : image) (grp nbf : nat),
    shape20 x -> grp < nbgroups -> nbf < nbgfeats ->
    List.length (xsub x) = nbgroups /\
    List.length (nth grp (xsub x) []) = nbgfeats /\
    nth nbf (nth grp (xsub x) []) 0
    = nth (patch_col grp nbf) (nth (patch_row grp nbf) x []) 0.
Proof.
  intros x grp nbf Hx Hg Hn.
  rewrite (image_tabulate Hx) at 1 2 3. rewrite xsub_tabulate.
  rewrite length_map, length_seq.
  rewrite (nth_map_seq _ [] 0 Hg).
  rewrite length_map, length_seq.
  rewrite (nth_map_seq _ 0 0 Hn).
  repeat split.
Qed.

(** X9 at the all-white image: entry 7 of group 5 is the pixel at row 6,
    column 7. *)
Lemma xsub_reads_blocks_witness :
  shape20 white_image /\ 5 < nbgroups /\ 7 < nbgfeats /\
  nth 7 (nth 5 (xsub white_image) []) 0 = nth 7 (nth 6 white_image []) 0.
Proof.
  assert (H1 : shape20 white_image) by (split; repeat constructor).
  assert (H2 : 5 < nbgroups) by (unfold nbgroups; lia).
  assert (H3 : 7 < nbgfeats) by (unfold nbgfeats; lia).
  repeat (split; [assumption|]).
  exact (proj2 (proj2 (xsub_reads_blocks H1 H2 H3))).
Defined.

(** X10: for a 20x20 image, the 400 entries of [xsub] are the 400 pixels
    of the image in another order: every pixel is the evidence of exactly
    one node [VX[grp][nbf]]. *)
Theorem xsub_rearranges_pixels :
  forall x : image,
    shape20 x -> Permutation (concat (xsub x)) (ravel x).
Proof.
  intros x Hx. rewrite (image_tabulate Hx).
  rewrite xsub_ravel_tabulate, ravel_tabulate.
  apply Permutation_map, patch_index_permutation.
Qed.

(** X10 at the all-white image. *)
Lemma xsub_rearranges_pixels_witness :
  shape20 white_image /\
  Permutation (concat (xsub white_image)) (ravel white_image).
Proof.
  assert (H1 : shape20 white_image) by (split; repeat constructor).
  split; [exact H1|]. exact (xsub_rearranges_pixels H1).
Defined.

Lemma image_check_shape (x : image) : image_check x = true -> shape20 x.
Proof.
  intros H. apply image_check_rows in H. destruct H as [L R].
  split; [exact L|]. eapply Forall_impl; [|exact R]. intros r [Hr _].
  exact Hr.
Qed.

End LayoutFacts.

(* ================================================================= *)
(** * The pixel tables of the hierarchical model                     *)
(* ================================================================= *)

Module PatchTableFacts.
Import Graphical GraphicalFacts TableFacts LayoutFacts.

(** *** The patches selected for a group and a subclass *)

(** [Z[ex,grp] == sc], for a row [z = Z[ex]]. *)
Definition carries (grp sc : nat) (z : list nat) : bool :=
  (grp <? List.length z) && (nth grp z 0 =? sc).

Lemma filter_hit (grp : nat) (q : nat -> bool) (n : nat) : forall s,
  filter (fun g => (grp =? g) && q g) (seq s n)
  = if (s <=? grp) && (grp <? s + n) && q grp then [grp] else [].
Proof.
  induction n as [|n IH]; intros s.
  - cbn [seq filter].
    destruct (Nat.leb_spec s grp), (Nat.ltb_spec grp (s + 0));
      cbn [andb]; try reflexivity; lia.
  - cbn [seq filter]. rewrite IH.
    destruct (Nat.eqb_spec grp s) as [->|Hne].
    + rewrite Nat.leb_refl.
      destruct (Nat.leb_spec (S s) s); [lia|].
      destruct (Nat.ltb_spec s (s + S n)); [|lia].
      cbn [andb]. destruct (q s); reflexivity.
    + cbn [andb].
      destruct (Nat.leb_spec (S s) grp), (Nat.ltb_spec grp (S s + n)),
        (Nat.leb_spec s grp), (Nat.ltb_spec grp (s + S n));
        cbn [andb]; try reflexivity; lia.
Qed.

Lemma filter_map_swap (A B : Type) (f : A -> B) (p : B -> bool)
      (l : list A) :
  filter p (map f l) = map f (filter (fun a => p (f a)) l).
Proof.
  induction l as [|a l IH]; [reflexivity|].
  cbn [map filter]. destruct (p (f a)); cbn [map]; rewrite IH; reflexivity.
Qed.

Lemma filter_filter (A : Type) (p q : A -> bool) (l : list A) :
  filter p (filter q l) = filter (fun a => p a && q a) l.
Proof.
  induction l as [|a l IH]; [reflexivity|].
  cbn [filter]. destruct (q a) eqn:Q.
  - cbn [filter]. destruct (p a); cbn [andb]; rewrite IH; reflexivity.
  - rewrite IH. destruct (p a); reflexivity.
Qed.

Lemma row_selection (grp sc e : nat) (z : list nat) :
  map fst (filter (fun p : nat * nat => grp =? snd p)
                  (map (fun g => (e, g))
                       (filter (fun g => nth g z 0 =? sc)
                               (seq 0 (List.length z)))))
  = if carries grp sc z then [e] else [].
Proof.
  rewrite filter_map_swap, map_map. cbn [fst snd].
  rewrite filter_filter, filter_hit. unfold carries.
  cbn [Nat.leb Nat.add andb]. 
  destruct (grp <? List.length z), (nth grp z 0 =? sc); reflexivity.
Qed.

Lemma group_examples_flat (grp sc : nat) (l : list (nat * list nat)) :
  group_examples
    (flat_map (fun er : nat * list nat =>
                 map (fun g => (fst er, g))
                     (filter (fun g => nth g (snd er) 0 =? sc)
                             (seq 0 (List.length (snd er))))) l) grp
  = map fst (filter (fun er => carries grp sc (snd er)) l).
Proof.
  unfold group_examples.
  induction l as [|[e z] l IH]; [reflexivity|].
  cbn [flat_map fst snd]. rewrite filter_app, map_app, IH.
  rewrite row_selection. cbn [filter snd].
  destruct (carries grp sc z); reflexivity.
Qed.

Lemma selection_spec (Z : list (list nat)) (sc grp : nat) :
  group_examples (argwhere Z sc) grp
  = map fst (filter (fun er => carries grp sc (snd er))
                    (combine (seq 0 (List.length Z)) Z)).
Proof. unfold argwhere. apply group_examples_flat. Qed.

Lemma combine_seq_fst (A : Type) (l : list A) (a : nat) :
  map fst (combine (seq a (List.length l)) l) = seq a (List.length l).
Proof.
  revert a. induction l as [|x l IH]; intros a; [reflexivity|].
  cbn [List.length seq combine map fst]. rewrite IH. reflexivity.
Qed.

Lemma selected_keys_NoDup (A B : Type) (key : A -> B) (keep : A -> bool) :
  forall l : list A, NoDup (map key l) -> NoDup (map key (filter keep l)).
Proof.
  intros l. induction l as [|a l IH]; cbn [map filter]; intros H;
    [constructor|].
  inversion H as [|? ? Hin Hnd]; subst.
  destruct (keep a); cbn [map]; [|auto].
  constructor; [|auto]. intros Hc. apply Hin.
  apply in_map_iff in Hc. destruct Hc as (b & E & Hb).
  apply filter_In in Hb. apply in_map_iff. exists b. tauto.
Qed.

(** X11: the examples the hierarchical loop selects for group [grp] and
    subclass [sc], [ind[:,0][grp==ind[:,1]]] with
    [ind = np.argwhere(Z == sc)], are exactly the examples [ex] with
    [Z[ex,grp] == sc], each listed once. *)
Theorem selection_lists_matching_examples :
  forall (Z : list (list nat)) (sc grp : nat),
    NoDup (group_examples (argwhere Z sc) grp) /\
    forall ex,
      In ex (group_examples (argwhere Z sc) grp) <->
      ex < List.length Z /\
      grp < List.length (nth ex Z []) /\
      nth grp (nth ex Z []) 0 = sc.
Proof.
  intros Z sc grp. rewrite selection_spec. split.
  - apply selected_keys_NoDup. rewrite combine_seq_fst. apply seq_NoDup.
  - intros ex. rewrite in_map_iff. split.
    + intros ([e z] & E & Hin). cbn [fst] in E. subst e.
      apply filter_In in Hin. destruct Hin as [Hin Hc].
      apply (in_combine_seq []) in Hin. destruct Hin as [Hex ->].
      cbn [snd] in Hc. unfold carries in Hc.
      apply andb_prop in Hc. destruct Hc as [H1 H2].
      rewrite Nat.sub_0_r in *.
      apply Nat.ltb_lt in H1. apply Nat.eqb_eq in H2.
      repeat split; [lia|exact H1|exact H2].
    + intros (Hex & H1 & H2). exists (ex, nth ex Z []). split; [reflexivity|].
      apply filter_In. split.
      * apply (in_combine_seq []). rewrite Nat.sub_0_r. split; [lia|reflexivity].
      * cbn [snd]. unfold carries.
        apply Nat.ltb_lt in H1. apply Nat.eqb_eq in H2.
        rewrite H1, H2. reflexivity.
Qed.

(** *** The table when no patch is selected *)

Lemma hier_PXT_entry (X : list image) (Z : list (list nat))
      (grp f sc : nat) :
  grp < nbgroups -> f < nbgfeats -> sc < nbsubclss ->
  nth sc (nth f (nth grp (hier_PXT X Z) []) []) []
  = [1 - hier_white X Z grp f sc; hier_white X Z grp f sc]%Q.
Proof.
  intros Hg Hf Hs. unfold hier_PXT.
  rewrite (nth_map_seq _ [] 0 Hg), (nth_map_seq _ [] 0 Hf),
    (nth_map_seq _ [] 0 Hs).
  reflexivity.
Qed.

(** X12: when no training example carries subclass [sc] in group [grp],
    the hierarchical table gives [[1, 0]] for every pixel of the group at
    that subclass (the divisor falls back to 1): under such a subclass a
    white pixel has probability 0, that is [1e-20] once smoothed. *)
Theorem hier_PXT_without_patches :
  forall (X : list image) (Z : list (list nat)) (grp f sc : nat),
    grp < nbgroups -> f < nbgfeats -> sc < nbsubclss ->
    (forall ex, ex < List.length Z -> grp < List.length (nth ex Z []) ->
                nth grp (nth ex Z []) 0 <> sc) ->
    Forall2 Qeq (nth sc (nth f (nth grp (hier_PXT X Z) []) []) [])
            [1; 0]%Q.
Proof.
  intros X Z grp f sc Hg Hf Hs Hnone.
  rewrite (hier_PXT_entry X Z Hg Hf Hs).
  assert (E : group_examples (argwhere Z sc) grp = []).
  { destruct (group_examples (argwhere Z sc) grp) as [|ex l] eqn:El;
      [reflexivity|].
    assert (Hin : In ex (group_examples (argwhere Z sc) grp))
      by (rewrite El; left; reflexivity).
    apply (proj2 (selection_lists_matching_examples Z sc grp)) in Hin.
    destruct Hin as (H1 & H2 & H3). destruct (Hnone ex H1 H2 H3). }
  assert (W : (hier_white X Z grp f sc == 0)%Q).
  { unfold hier_white. rewrite E. unfold white_counts, sum_axis0.
    cbn [map fold_right]. rewrite nth_repeat. reflexivity. }
  repeat constructor; rewrite W; reflexivity.
Qed.

(** X12 at two examples whose groups all carry subclass 0, for
    subclass 5. *)
Lemma hier_PXT_without_patches_witness :
  0 < nbgroups /\ 0 < nbgfeats /\ 5 < nbsubclss /\
  Forall2 Qeq (nth 5 (nth 0 (nth 0 (hier_PXT two_white two_white_labels)
                                 []) []) [])
          [1; 0]%Q.
Proof.
  assert (H1 : 0 < nbgroups) by (unfold nbgroups; lia).
  assert (H2 : 0 < nbgfeats) by (unfold nbgfeats; lia).
  assert (H3 : 5 < nbsubclss) by (unfold nbsubclss; lia).
  repeat (split; [assumption|]).
  apply (@hier_PXT_without_patches two_white two_white_labels 0 0 5 H1 H2 H3).
  intros [|[|ex]] Hex _; cbn; [discriminate|discriminate|].
  cbn in Hex. lia.
Defined.

(** *** The numerator of the hierarchical table *)

Lemma selected_patch (X : list image) (grp ex : nat) :
  ex < List.length X ->
  concat (nth grp (nth ex (subX X) []) [])
  = nth grp (xsub (nth ex X [])) [].
Proof.
  intros Hex. unfold subX.
  rewrite (nth_map_in patches [] [] X Hex). unfold xsub.
  symmetry. exact (map_nth (fun p => concat p) (patches (nth ex X [])) [] grp).
Qed.

Lemma hier_divisor_pos (sel : list nat) : (0 < hier_divisor sel)%Q.
Proof.
  unfold hier_divisor. destruct (Nat.ltb_spec 0 (list_sum sel)) as [H|H].
  - apply Qn_pos, H.
  - reflexivity.
Qed.

(** X13: for a training set of 20x20 0/1 images with one row of labels
    each, the numerator of the hierarchical table is right: before the
    division, [PXT[grp,f,sc,1]] is the number of selected patches (the
    examples [ex] with [Z[ex,grp] == sc]) in which pixel [f] of group
    [grp] is white; the final entry is that count over the divisor of the
    loop. *)
Theorem hier_white_counts_white_patches :
  forall (X : list image) (Z : list (list nat)) (grp f sc : nat),
    List.length X = List.length Z ->
    Forall (fun x => image_check x = true) X ->
    grp < nbgroups -> f < nbgfeats ->
    let sel := group_examples (argwhere Z sc) grp in
    let white :=
      List.length
        (filter (fun ex => nth f (nth grp (xsub (nth ex X [])) []) 0 =? 1)
                sel) in
    nth f (white_counts X sel grp) 0 = white /\
    (hier_white X Z grp f sc * hier_divisor sel == Qn white)%Q.
Proof.
  intros X Z grp f sc L HX Hg Hf sel white.
  assert (Hsel : forall ex, In ex sel -> ex < List.length X).
  { intros ex Hin.
    apply (proj2 (selection_lists_matching_examples Z sc grp)) in Hin.
    lia. }
  assert (Himg : forall ex, In ex sel -> image_check (nth ex X []) = true).
  { intros ex Hin. rewrite Forall_forall in HX.
    apply HX, nth_In, Hsel, Hin. }
  assert (W : nth f (white_counts X sel grp) 0 = white).
  { unfold white_counts.
    rewrite (map_ext_in _ (fun ex => nth grp (xsub (nth ex X [])) []))
      by (intros ex Hin; apply selected_patch, Hsel, Hin).
    rewrite sum_axis0_nth.
    - rewrite map_map.
      apply (list_sum_bit_count
               (fun ex => nth f (nth grp (xsub (nth ex X [])) []) 0)).
      apply Forall_forall. intros ex Hin.
      apply (Forall_nth_default (P := bit)); [|unfold bit; lia].
      apply (Forall_nth_default (P := Forall bit)); [|constructor].
      apply xsub_bits, image_check_bits, Himg, Hin.
    - apply Forall_map, Forall_forall. intros ex Hin.
      exact (proj1 (proj2 (@xsub_reads_blocks (nth ex X []) grp f
                             (@image_check_shape _ (Himg ex Hin)) Hg Hf))).
    - exact Hf. }
  split; [exact W|].
  unfold hier_white. fold sel. rewrite W.
  unfold Qdiv. rewrite <- Qmult_assoc.
  rewrite (Qmult_comm (/ hier_divisor sel)), Qmult_inv_r.
  - apply Qmult_1_r.
  - pose proof (hier_divisor_pos sel) as P. intros E. rewrite E in P.
    exact (Qlt_irrefl _ P).
Qed.

(** X13 at two all-white images whose groups all carry subclass 0: both
    patches of group 0 are selected and pixel 0 is white in both. *)
Lemma hier_white_counts_white_patches_witness :
  List.length two_white = List.length two_white_labels /\
  Forall (fun x => image_check x = true) two_white /\
  0 < nbgroups /\ 0 < nbgfeats /\
  nth 0 (white_counts two_white
                      (group_examples (argwhere two_white_labels 0) 0) 0) 0
  = List.length
      (filter (fun ex => nth 0 (nth 0 (xsub (nth ex two_white [])) []) 0 =? 1)
              (group_examples (argwhere two_white_labels 0) 0)).
Proof.
  assert (H1 : List.length two_white = List.length two_white_labels)
    by reflexivity.
  assert (H2 : Forall (fun x => image_check x = true) two_white)
    by (repeat constructor).
  assert (H3 : 0 < nbgroups) by (unfold nbgroups; lia).
  assert (H4 : 0 < nbgfeats) by (unfold nbgfeats; lia).
  repeat (split; [assumption|]).
  exact (proj1 (@hier_white_counts_white_patches
                  two_white two_white_labels 0 0 0 H1 H2 H3 H4)).
Defined.

End PatchTableFacts.

(* ================================================================= *)
(** * Facts about the nodes and the evidence                          *)
(* ================================================================= *)

Module NodeFacts.
Import Graphical GraphicalFacts.

(** The variable a factor gives the distribution of: the last of its
    variable list ([P(VT)] for [[VT]], [P(child | parent)] for
    [[parent, child]]). *)
Definition child (scope : list nat) : option nat :=
  match rev scope with
  | c :: _ => Some c
  | [] => None
  end.

(** The factors of a model that give the distribution of variable [v], by
    index of creation. *)
Definition tables_of (sc : list (list nat)) (v : nat) : list nat :=
  map fst
      (filter (fun js : nat * list nat =>
                 match child (snd js) with
                 | Some c => c =? v
                 | None => false
                 end)
              (combine (seq 0 (List.length sc)) sc)).

(** Every variable below [nv] has exactly one such factor, and every
    factor joins one or two variables. *)
Definition one_table_each (nv : nat) (sc : list (list nat)) : bool :=
  forallb (fun v => List.length (tables_of sc v) =? 1) (seq 0 nv) &&
  forallb (fun s => (1 <=? List.length s) && (List.length s <=? 2)) sc.

Definition bayesian_network (m : model) : Prop :=
  (forall v, v < List.length (variables m) ->
             exists i, tables_of (scopes m) v = [i]) /\
  Forall (fun f => 1 <= List.length (fvars f) <= 2) (factors m).

Lemma one_table_each_sound (m : model) :
  one_table_each (List.length (variables m)) (scopes m) = true ->
  bayesian_network m.
Proof.
  unfold one_table_each, bayesian_network. intros H.
  apply andb_prop in H. destruct H as [H1 H2].
  rewrite forallb_forall in H1, H2. split.
  - intros v Hv. specialize (H1 v ltac:(apply in_seq; lia)).
    apply Nat.eqb_eq in H1.
    destruct (tables_of (scopes m) v) as [|i [|j l]];
      try discriminate H1.
    exists i. reflexivity.
  - apply Forall_forall. intros f Hf.
    specialize (H2 (fvars f) ltac:(unfold scopes; apply in_map; exact Hf)).
    apply andb_prop in H2. destruct H2 as [A B].
    apply Nat.leb_le in A, B. lia.
Qed.

(** X14: each of the three models is a Bayesian network over its variable
    nodes: every factor joins one or two variable nodes, and every
    variable node is the last node of exactly one factor, the one that
    holds its distribution ([FT] for [VT], the factor [P(child | parent)]
    for any other node). *)
Theorem models_are_bayesian_networks :
  forall (X : list image) (T : list nat) (Z : list (list nat)),
    bayesian_network (example_model X T) /\
    bayesian_network (shallow_model X T) /\
    bayesian_network (hier_model X T Z).
Proof.
  intros X T Z. split; [|split]; apply one_table_each_sound.
  - rewrite example_scopes_eq.
    change (List.length (variables (example_model X T)))
      with (List.length example_variables).
    vm_compute. reflexivity.
  - rewrite shallow_scopes_eq.
    change (List.length (variables (shallow_model X T)))
      with (List.length shallow_variables).
    vm_compute. reflexivity.
  - rewrite hier_scopes_eq.
    change (List.length (variables (hier_model X T Z)))
      with (List.length hier_variables).
    vm_compute. reflexivity.
Qed.

(** *** Names *)

Definition distinct_names (l : list string) : bool := nodupb String.eqb l.

Lemma distinct_names_NoDup (l : list string) :
  distinct_names l = true -> NoDup l.
Proof. apply (nodupb_sound String.eqb String.eqb_eq). Qed.

Lemma shallow_factor_names X T :
  map fname (factors (shallow_model X T))
  = "FT"%string
    :: map (fun nbf => ("FXT[" ++ dec nbf ++ "]")%string) (seq 0 nbfeats).
Proof.
  cbn [factors shallow_model]. unfold shallow_factors.
  cbn [map fname]. rewrite map_map. reflexivity.
Qed.

Lemma hier_factor_names X T Z :
  map fname (factors (hier_model X T Z))
  = "FT"%string
    :: map (fun grp => ("FXT[" ++ dec grp ++ "]")%string) (seq 0 nbgroups)
    ++ concat (map (fun grp =>
                      map (fun nbf =>
                             ("FXT[" ++ dec grp ++ "][" ++ dec nbf ++ "]")%string)
                          (seq 0 nbgfeats))
                   (seq 0 nbgroups)).
Proof.
  cbn [factors hier_model]. unfold hier_factors.
  cbn [map fname]. rewrite map_app, map_map, concat_map, map_map.
  cbn [fname]. f_equal.
  all: try (f_equal; f_equal; apply map_ext; intros grp; rewrite map_map;
            reflexivity).
Qed.

(** X15: the names given to the nodes.  In each of the three models the
    variable nodes have pairwise distinct names.  The factor nodes of the
    shallow and of the hierarchical model have pairwise distinct names
    too (the class-to-subclass factors are created under the names
    [FXT[grp]]); the two level factors of the example model are both
    named [FXT]. *)
Theorem node_names :
  forall (X : list image) (T : list nat) (Z : list (list nat)),
    NoDup (map vname (variables (example_model X T))) /\
    NoDup (map vname (variables (shallow_model X T))) /\
    NoDup (map vname (variables (hier_model X T Z))) /\
    NoDup (map fname (factors (shallow_model X T))) /\
    NoDup (map fname (factors (hier_model X T Z))) /\
    map fname (factors (example_model X T))
    = ["FT"; "FXT"; "FXT"]%string.
Proof.
  intros X T Z.
  change (variables (example_model X T)) with example_variables.
  change (variables (shallow_model X T)) with shallow_variables.
  change (variables (hier_model X T Z)) with hier_variables.
  repeat split.
  - apply distinct_names_NoDup. vm_compute. reflexivity.
  - apply distinct_names_NoDup. vm_compute. reflexivity.
  - apply distinct_names_NoDup. vm_compute. reflexivity.
  - rewrite shallow_factor_names. apply distinct_names_NoDup.
    vm_compute. reflexivity.
  - rewrite hier_factor_names. apply distinct_names_NoDup.
    vm_compute. reflexivity.
Qed.

(** *** The evidence the [predict] functions leave *)

Lemma not_shallow_pixel v :
  v = sh_VT \/ nbfeats < v -> ~ In v (map sh_VX (seq 0 nbfeats)).
Proof.
  intros H Hin. apply in_map_iff in Hin. destruct Hin as (nbf & E & Hn).
  apply in_seq in Hn. unfold sh_VX, sh_VT, nbfeats in *. lia.
Qed.

Lemma not_hier_pixel v :
  v <= nbgroups \/ nbgroups + nbgroups * nbgfeats < v ->
  ~ In v (map (fun gn => h_VX (fst gn) (snd gn)) hier_pixels).
Proof.
  intros H Hin. apply in_map_iff in Hin. destruct Hin as ([g n] & E & Hp).
  unfold hier_pixels in Hp. apply in_flat_map in Hp.
  destruct Hp as (g' & Hg & Hp). apply in_map_iff in Hp.
  destruct Hp as (n' & E' & Hn). injection E' as <- <-.
  apply in_seq in Hg, Hn. cbn [fst snd] in E.
  unfold h_VX, nbgroups, nbgfeats in *. lia.
Qed.

(** X16: the evidence the three [predict] functions leave in the nodes.
    The example model holds the white pixels of the top ten rows in [VX1]
    and of the other rows in [VX2], which add up to the white pixels of
    the image; the shallow model holds [x.ravel()[nbf]] in every
    [VX[nbf]], the hierarchical model [xsub[grp,nbf]] in every
    [VX[grp][nbf]]; no other node is written: [VT] and the [VZ[grp]] keep
    whatever evidence they had. *)
Theorem predict_leaves_pixel_evidence :
  forall (x : image) (st : store),
    (example_evidence x st ex_VX1 = Some (np_sum2 (firstn 10 x)) /\
     example_evidence x st ex_VX2 = Some (np_sum2 (skipn 10 x)) /\
     np_sum2 (firstn 10 x) + np_sum2 (skipn 10 x) = np_sum2 x /\
     forall v, v = ex_VT \/ 2 < v -> example_evidence x st v = st v) /\
    ((forall nbf, nbf < nbfeats ->
        shallow_evidence x st (sh_VX nbf) = Some (nth nbf (ravel x) 0)) /\
     forall v, v = sh_VT \/ nbfeats < v -> shallow_evidence x st v = st v) /\
    ((forall grp nbf, grp < nbgroups -> nbf < nbgfeats ->
        hier_evidence x st (h_VX grp nbf)
        = Some (nth nbf (nth grp (xsub x) []) 0)) /\
     forall v, v <= nbgroups \/ nbgroups + nbgroups * nbgfeats < v ->
               hier_evidence x st v = st v).
Proof.
  intros x st. split; [|split].
  - split; [reflexivity|]. split; [reflexivity|]. split.
    + unfold np_sum2. rewrite <- (firstn_skipn 10 x) at 3.
      rewrite map_app, list_sum_app. reflexivity.
    + intros v Hv. apply example_keeps. unfold ex_VT, ex_VX1, ex_VX2 in *.
      cbn [In]. lia.
  - split.
    + intros nbf Hn. rewrite shallow_evidence_assign.
      apply (assign_key sh_VX (fun nbf => nth nbf (ravel x) 0)).
      * apply shallow_keys_NoDup.
      * apply in_seq. lia.
    + intros v Hv. apply shallow_keeps, not_shallow_pixel, Hv.
  - split.
    + intros grp nbf Hg Hn. rewrite hier_evidence_assign.
      apply (assign_key (fun gn => h_VX (fst gn) (snd gn))
                        (fun gn => nth (snd gn) (nth (fst gn) (xsub x) []) 0)
                        hier_pixels st (grp, nbf)).
      * apply hier_keys_NoDup.
      * apply hier_pixels_In; assumption.
    + intros v Hv. apply hier_keeps, not_hier_pixel, Hv.
Qed.

End NodeFacts.
